(** * The playlist controller of norskvideo/playlist

    A shallow embedding of [playlist.ts]: the [Playlist] class with its three
    slots, the source factory [createNode], the per-slot subscription callback
    [subscribeToNode], the listener registry filled by [precreateListeners],
    and the JavaScript event loop the class runs on (timers, promises that
    suspend an [async] function at every [await], engine callbacks).

    Numbers that count milliseconds are [Z]; playlist positions and ports are
    [nat].  An [async] function is a computation in continuation-passing
    style that stops at each [await] and hands the rest of its body to the
    event loop. *)

From Stdlib Require Import ZArith String List Lia DecimalString DecimalNat.
From stdpp Require Import base option list gmap strings.

Local Open Scope string_scope.
Local Open Scope list_scope.

(** ** Playlist items (lines 3-45) *)

Inductive SrtMode := caller | listener.

Inductive PlaylistSource :=
| localTsFile (fileName : string)
| localMp4File (fileName : string)
| srt (mode : SrtMode) (ip : string) (port : nat)
| rtmp (port : nat) (app stream : option string)
| image (fileName : string) (imageFormat : option string)
| rtp (streams : list string)
| whip.

Module PlaylistItem.
Record t := mk { begin : option Z; duration : option Z; source : PlaylistSource }.
End PlaylistItem.

Inductive AVKind := Kvideo | Kav.

Definition AVKind_eqb (a b : AVKind) : bool :=
  match a, b with Kvideo, Kvideo | Kav, Kav => true | _, _ => false end.

(** [isLive] and [nodeKind] (lines 555-576). *)
Definition isLive (item : PlaylistSource) : bool :=
  match item with
  | image _ _ | localMp4File _ | localTsFile _ => false
  | rtmp _ _ _ | rtp _ | srt _ _ _ | whip => true
  end.

Definition nodeKind (item : PlaylistSource) : AVKind :=
  match item with
  | image _ _ => Kvideo
  | _ => Kav
  end.

(** JavaScript truthiness of an optional number and of an optional string. *)
Definition truthyZ (d : option Z) : bool :=
  match d with Some z => negb (Z.eqb z 0) | None => false end.

Definition truthyS (s : option string) : bool :=
  match s with Some EmptyString => false | Some _ => true | None => false end.

(** [Number.prototype.toString] on a playlist position. *)
Definition toString (n : nat) : string := NilZero.string_of_uint (Nat.to_uint n).

(** ** Engine values: stream keys, stream metadata, nodes *)

Record StreamKey := mkStreamKey {
  programNumber : Z;
  renditionName : string;
  streamId : Z;
  sourceName : string }.

Inductive MediaType := audioMessage | videoMessage | otherMessage.

Record StreamMetadata := mkStream { streamKey : StreamKey; message : MediaType }.

(** Modelled from the spec: the SDK helpers [audioStreamKeys] and
    [videoStreamKeys] are imported from the engine's SDK and are not part of
    this repository; section 4.1 has them "return the keys of streams of that
    media type". *)
Definition audioStreamKeys (streams : list StreamMetadata) : list StreamKey :=
  map streamKey
    (List.filter (fun s => match message s with audioMessage => true | _ => false end) streams).

Definition videoStreamKeys (streams : list StreamMetadata) : list StreamKey :=
  map streamKey
    (List.filter (fun s => match message s with videoMessage => true | _ => false end) streams).

(** A node of the engine.  Two nodes may carry the same [id] string, so a node
    is identified by the handle the engine gave it. *)
Record Node := mkNode { handle : nat; id : string }.

Definition Node_eqb (a b : Node) : bool :=
  Nat.eqb (handle a) (handle b) && String.eqb (id a) (id b).

(** [PinToKey<string>]: an object from pin names to lists of stream keys. *)
Abbreviation PinToKey := (gmap string (list StreamKey)).

(** ** Closures of the class, as data

    [closeNode] (lines 443-451) closes over [isStandaloneNode], [nodeId] and
    [node] of the [createNode] call that made it. *)
Record CloseNode := mkCloseNode {
  isStandaloneNode : bool;
  cn_nodeId : string;
  cn_node : Node }.

(** The two [sourceSelector] closures of [subscribeToNode] (lines 234-253 and
    258-267).  The first closes over [sourceIndex], [kind], [streamKeyFilter]
    and the [state] object it updates; the second over [sourceIndex] only. *)
Inductive Selector :=
| StreamSelector (sourceIndex : nat) (kind : AVKind)
    (streamKeyFilter : StreamKey -> bool) (state : nat)
| SilenceSelector (sourceIndex : nat).

(** [ReceiveFromAddress<SwitchPins>]. *)
Record Subscription := mkSub { sub_source : Node; sourceSelector : Selector }.

Module PlayingItem.
Record t := mk {
  item : PlaylistItem.t;
  sub : option Subscription;
  silenceSub : option Subscription;
  ready : bool;
  index : nat;
  duration : option Z;
  closeNode : CloseNode }.

Definition set_ready (b : bool) (s : t) : t :=
  mk (item s) (sub s) (silenceSub s) b (index s) (duration s) (closeNode s).
Definition set_sub (x : option Subscription) (s : t) : t :=
  mk (item s) x (silenceSub s) (ready s) (index s) (duration s) (closeNode s).
Definition set_silenceSub (x : option Subscription) (s : t) : t :=
  mk (item s) (sub s) x (ready s) (index s) (duration s) (closeNode s).
Definition set_duration (d : option Z) (s : t) : t :=
  mk (item s) (sub s) (silenceSub s) (ready s) (index s) d (closeNode s).
Definition set_closeNode (c : CloseNode) (s : t) : t :=
  mk (item s) (sub s) (silenceSub s) (ready s) (index s) (duration s) c.
End PlayingItem.

(** The callbacks [createNode] stores in a listener's [onDisconnect] map
    (lines 368-372 and 401-407).  Both close over [nodeId] and the listener
    they were stored in; the RTMP one also over [sourceName]. *)
Inductive Protocol := SRT | RTMP.

Inductive DisconnectCallback :=
| srtOnDisconnect (nodeId : string) (port : nat)
| rtmpOnDisconnect (nodeId : string) (port : nat) (sourceName : option string).

(** [ListenerNode] (lines 534-553).  [onDisconnect] is a JavaScript [Map]: an
    ordered list of entries in which [delete] empties an entry in place and
    [set] of a new key appends, so that an iteration in progress sees both. *)
Module ListenerNode.
Record t := mk {
  node : option Node;
  onDisconnect : list (option (string * DisconnectCallback)) }.
End ListenerNode.

Fixpoint Map_has {V} (key : string) (m : list (option (string * V))) : bool :=
  match m with
  | [] => false
  | Some (k, _) :: m' => if String.eqb k key then true else Map_has key m'
  | None :: m' => Map_has key m'
  end.


Fixpoint Map_replace {V} (key : string) (v : V) (m : list (option (string * V)))
  : list (option (string * V)) :=
  match m with
  | [] => []
  | Some (k, v0) :: m' =>
      if String.eqb k key then Some (k, v) :: m' else Some (k, v0) :: Map_replace key v m'
  | None :: m' => None :: Map_replace key v m'
  end.

Definition Map_set {V} (key : string) (v : V) (m : list (option (string * V)))
  : list (option (string * V)) :=
  if Map_has key m then Map_replace key v m else m ++ [Some (key, v)].

Fixpoint Map_delete {V} (key : string) (m : list (option (string * V)))
  : list (option (string * V)) :=
  match m with
  | [] => []
  | Some (k, v) :: m' =>
      if String.eqb k key then None :: m' else Some (k, v) :: Map_delete key m'
  | None :: m' => None :: Map_delete key m'
  end.

(** ** Timers of the runtime *)

Inductive TimerCallback :=
| durationExpired (currentSource : nat)       (* lines 189-197 *)
| deferredClose (close : option CloseNode)    (* lines 194-196 *)
| closeNodeNow (nodeId : string) (node : Node)  (* lines 446-449 *)
| switchSource (pin : string).                (* line 295 *)

Record Timer := mkTimer { timerId : nat; delay : Z; callback : TimerCallback }.

Definition isDurationTimer (t : Timer) : bool :=
  match callback t with durationExpired _ => true | _ => false end.

(** What the engine knows of an input node it created: the source it was
    created for decides which hooks were installed on it. *)
Record InputSettings := mkInput { in_id : string; in_source : PlaylistSource }.

(** ** The state

    [Slots] is [playingItems]; a slot holds a reference into [heap], the store
    of [PlayingItem] objects, because the same object can sit in two slots and
    is updated through the closures that captured it. *)
Record Slots := mkSlots { prev : option nat; current : option nat; next : option nat }.

Inductive NodeType := currentSlot | nextSlot.

Record World := mkWorld {
  (* fields of the class *)
  playlist : list PlaylistItem.t;
  transitionDuration : Z;
  sourceIndex : nat;
  playing : option nat;
  playingItems : Slots;
  timeouts : list nat;
  srtListeners : gmap nat ListenerNode.t;
  rtmpListeners : gmap nat ListenerNode.t;
  (* objects and collaborators *)
  heap : list PlayingItem.t;
  timers : list Timer;
  nextTimer : nat;
  nextHandle : nat;
  inputs : list (Node * InputSettings);
  subscribed : list Subscription;
  switched : list string;
  closed : list Node }.

(** Field updates. *)
Definition set_sourceIndex (x : nat) (w : World) : World :=
  mkWorld (playlist w) (transitionDuration w) x (playing w) (playingItems w)
    (timeouts w) (srtListeners w) (rtmpListeners w) (heap w) (timers w) (nextTimer w)
    (nextHandle w) (inputs w) (subscribed w) (switched w) (closed w).
Definition set_playing (x : option nat) (w : World) : World :=
  mkWorld (playlist w) (transitionDuration w) (sourceIndex w) x (playingItems w)
    (timeouts w) (srtListeners w) (rtmpListeners w) (heap w) (timers w) (nextTimer w)
    (nextHandle w) (inputs w) (subscribed w) (switched w) (closed w).
Definition set_playingItems (x : Slots) (w : World) : World :=
  mkWorld (playlist w) (transitionDuration w) (sourceIndex w) (playing w) x (timeouts w)
    (srtListeners w) (rtmpListeners w) (heap w) (timers w) (nextTimer w) (nextHandle w)
    (inputs w) (subscribed w) (switched w) (closed w).
Definition set_timeouts (x : list nat) (w : World) : World :=
  mkWorld (playlist w) (transitionDuration w) (sourceIndex w) (playing w)
    (playingItems w) x (srtListeners w) (rtmpListeners w) (heap w) (timers w)
    (nextTimer w) (nextHandle w) (inputs w) (subscribed w) (switched w) (closed w).
Definition set_srtListeners (x : gmap nat ListenerNode.t) (w : World) : World :=
  mkWorld (playlist w) (transitionDuration w) (sourceIndex w) (playing w)
    (playingItems w) (timeouts w) x (rtmpListeners w) (heap w) (timers w) (nextTimer w)
    (nextHandle w) (inputs w) (subscribed w) (switched w) (closed w).
Definition set_rtmpListeners (x : gmap nat ListenerNode.t) (w : World) : World :=
  mkWorld (playlist w) (transitionDuration w) (sourceIndex w) (playing w)
    (playingItems w) (timeouts w) (srtListeners w) x (heap w) (timers w) (nextTimer w)
    (nextHandle w) (inputs w) (subscribed w) (switched w) (closed w).
Definition set_heap (x : list PlayingItem.t) (w : World) : World :=
  mkWorld (playlist w) (transitionDuration w) (sourceIndex w) (playing w)
    (playingItems w) (timeouts w) (srtListeners w) (rtmpListeners w) x (timers w)
    (nextTimer w) (nextHandle w) (inputs w) (subscribed w) (switched w) (closed w).
Definition set_timers (x : list Timer) (w : World) : World :=
  mkWorld (playlist w) (transitionDuration w) (sourceIndex w) (playing w)
    (playingItems w) (timeouts w) (srtListeners w) (rtmpListeners w) (heap w) x
    (nextTimer w) (nextHandle w) (inputs w) (subscribed w) (switched w) (closed w).
Definition set_nextTimer (x : nat) (w : World) : World :=
  mkWorld (playlist w) (transitionDuration w) (sourceIndex w) (playing w)
    (playingItems w) (timeouts w) (srtListeners w) (rtmpListeners w) (heap w) (timers w)
    x (nextHandle w) (inputs w) (subscribed w) (switched w) (closed w).
Definition set_nextHandle (x : nat) (w : World) : World :=
  mkWorld (playlist w) (transitionDuration w) (sourceIndex w) (playing w)
    (playingItems w) (timeouts w) (srtListeners w) (rtmpListeners w) (heap w) (timers w)
    (nextTimer w) x (inputs w) (subscribed w) (switched w) (closed w).
Definition set_inputs (x : list (Node * InputSettings)) (w : World) : World :=
  mkWorld (playlist w) (transitionDuration w) (sourceIndex w) (playing w)
    (playingItems w) (timeouts w) (srtListeners w) (rtmpListeners w) (heap w) (timers w)
    (nextTimer w) (nextHandle w) x (subscribed w) (switched w) (closed w).
Definition set_subscribed (x : list Subscription) (w : World) : World :=
  mkWorld (playlist w) (transitionDuration w) (sourceIndex w) (playing w)
    (playingItems w) (timeouts w) (srtListeners w) (rtmpListeners w) (heap w) (timers w)
    (nextTimer w) (nextHandle w) (inputs w) x (switched w) (closed w).
Definition set_switched (x : list string) (w : World) : World :=
  mkWorld (playlist w) (transitionDuration w) (sourceIndex w) (playing w)
    (playingItems w) (timeouts w) (srtListeners w) (rtmpListeners w) (heap w) (timers w)
    (nextTimer w) (nextHandle w) (inputs w) (subscribed w) x (closed w).
Definition set_closed (x : list Node) (w : World) : World :=
  mkWorld (playlist w) (transitionDuration w) (sourceIndex w) (playing w)
    (playingItems w) (timeouts w) (srtListeners w) (rtmpListeners w) (heap w) (timers w)
    (nextTimer w) (nextHandle w) (inputs w) (subscribed w) (switched w) x.

Definition set_slot (nodeType : NodeType) (x : option nat) (p : Slots) : Slots :=
  match nodeType with
  | currentSlot => mkSlots (prev p) x (next p)
  | nextSlot => mkSlots (prev p) (current p) x
  end.

Definition set_prev (x : option nat) (p : Slots) : Slots := mkSlots x (current p) (next p).

(** The updates unfold under [simpl], so that a projection of an updated
    state reduces. *)
Arguments set_sourceIndex _ _ /.
Arguments set_playing _ _ /.
Arguments set_playingItems _ _ /.
Arguments set_timeouts _ _ /.
Arguments set_srtListeners _ _ /.
Arguments set_rtmpListeners _ _ /.
Arguments set_heap _ _ /.
Arguments set_timers _ _ /.
Arguments set_nextTimer _ _ /.
Arguments set_nextHandle _ _ /.
Arguments set_inputs _ _ /.
Arguments set_subscribed _ _ /.
Arguments set_switched _ _ /.
Arguments set_closed _ _ /.
Arguments set_slot _ _ _ /.
Arguments set_prev _ _ /.

(** ** Synchronous operations of the class and of the runtime *)

(** The nodes [Playlist.create] makes before the constructor runs
    (lines 93-137), in the order the engine hands them out. *)
Definition switcher : Node := mkNode 0 "switcher".
Definition audio_signal : Node := mkNode 1 "audio_signal".
Definition silence : Node := mkNode 2 "silence".
Definition video_stream_key : Node := mkNode 3 "video_stream_key".
Definition audio_stream_key : Node := mkNode 4 "audio_stream_key".

Definition deref (w : World) (r : option nat) : option PlayingItem.t :=
  match r with Some i => heap w !! i | None => None end.

(** [setTimeout]: the new timer gets the next identifier. *)
Definition setTimeout (cb : TimerCallback) (ms : Z) (w : World) : nat * World :=
  (nextTimer w,
   set_nextTimer (S (nextTimer w)) (set_timers (timers w ++ [mkTimer (nextTimer w) ms cb]) w)).

Definition clearTimeout (t : nat) (w : World) : World :=
  set_timers (List.filter (fun x => negb (Nat.eqb (timerId x) t)) (timers w)) w.

(** Lines 153-156: the loop runs over the array [this.timeouts] held when it
    starts, and replaces the field by a new empty array in each round. *)
Definition clearTimeouts (w : World) : World :=
  fold_left (fun w timeout => set_timeouts [] (clearTimeout timeout w)) (timeouts w) w.

(** [refreshSubs] (lines 283-288). *)
Definition subs (item : option PlayingItem.t) : list Subscription :=
  match item with
  | Some i => omap (fun x => x) [PlayingItem.sub i; PlayingItem.silenceSub i]
  | None => []
  end.

Definition refreshSubs (w : World) : World :=
  let p := playingItems w in
  set_subscribed
    (flat_map subs [deref w (prev p); deref w (current p); deref w (next p)]) w.

(** [refreshActive] (lines 291-305). *)
Definition activateSource (item : PlayingItem.t) (w : World) : World :=
  snd (setTimeout (switchSource (toString (PlayingItem.index item))) 10
         (set_playing (Some (PlayingItem.index item)) w)).

Definition option_nat_eqb (a b : option nat) : bool :=
  match a, b with
  | Some x, Some y => Nat.eqb x y
  | None, None => true
  | _, _ => false
  end.

Definition isReady (item : option PlayingItem.t) : bool :=
  match item with Some i => PlayingItem.ready i | None => false end.

Definition refreshActive (w : World) : World :=
  let p := playingItems w in
  let cur := deref w (current p) in
  if negb (option_nat_eqb (playing w) (PlayingItem.index <$> cur)) && isReady cur then
    match cur with Some c => activateSource c w | None => w end
  else if option_nat_eqb (playing w) None && isReady (deref w (prev p)) then
    match deref w (prev p) with Some c => activateSource c w | None => w end
  else w.

(** The argument of the subscribe callback. *)
Record InitialCreateInfo := mkInfo {
  ci_node : Node;
  ci_nodeId : string;
  ci_kind : AVKind;
  ci_item : PlaylistItem.t;
  ci_streamKeyFilter : StreamKey -> bool;
  ci_closeNode : CloseNode }.

(** [subscribeToNode] (lines 221-273): the new [state] object is put on the
    heap and the slot [nodeType] is made to point at it. *)
Definition subscribeToNode (sourceIndex : nat) (nodeType : NodeType)
    (info : InitialCreateInfo) (w : World) : World :=
  let r := length (heap w) in
  let state :=
    PlayingItem.mk (ci_item info)
      (Some (mkSub (ci_node info)
               (StreamSelector sourceIndex (ci_kind info) (ci_streamKeyFilter info) r)))
      (if AVKind_eqb (ci_kind info) Kvideo
       then Some (mkSub silence (SilenceSelector sourceIndex)) else None)
      false sourceIndex None (ci_closeNode info) in
  refreshSubs
    (set_playingItems (set_slot nodeType (Some r) (playingItems w))
       (set_heap (heap w ++ [state]) w)).

(** The two [sourceSelector] closures, run on the stream list the switcher
    passes in.  The first one writes [state.ready] and calls
    [refreshActive]. *)
Definition runSelector (sel : Selector) (streams : list StreamMetadata) (w : World)
  : option PinToKey * World :=
  match sel with
  | StreamSelector sourceIndex kind streamKeyFilter state =>
      let pin := toString sourceIndex in
      let audio := take 1 (List.filter streamKeyFilter (audioStreamKeys streams)) in
      let video := take 1 (List.filter streamKeyFilter (videoStreamKeys streams)) in
      let keys := audio ++ video in
      let res := if (1 <=? length keys)%nat then Some ({[ pin := keys ]} : PinToKey) else None in
      let ready :=
        (AVKind_eqb kind Kvideo || (1 <=? length audio)%nat) && (1 <=? length video)%nat in
      (res, refreshActive (set_heap (alter (PlayingItem.set_ready ready) state (heap w)) w))
  | SilenceSelector sourceIndex =>
      let pin := toString sourceIndex in
      let audio := audioStreamKeys streams in
      ((if Nat.eqb (length audio) 1 then Some ({[ pin := audio ]} : PinToKey) else None), w)
  end.

(** [avToPin] (lines 578-590). *)
Definition avToPin (pin : string) (streams : list StreamMetadata) : option PinToKey :=
  let audio := take 1 (audioStreamKeys streams) in
  let video := take 1 (videoStreamKeys streams) in
  let keys := audio ++ video in
  if (1 <=? length audio)%nat && (1 <=? length video)%nat
  then Some ({[ pin := keys ]} : PinToKey)
  else None.

(** [closeNode] (lines 443-451). *)
Definition closeNode (c : CloseNode) (w : World) : World :=
  if isStandaloneNode c
  then snd (setTimeout (closeNodeNow (cn_nodeId c) (cn_node c)) 1000 w)
  else w.

(** [onClose] (lines 275-280). *)
Definition onClose (node : Node) (w : World) : World :=
  match deref w (prev (playingItems w)) with
  | Some p =>
      match PlayingItem.sub p with
      | Some s =>
          if Node_eqb (sub_source s) node
          then refreshSubs (set_playingItems (set_prev None (playingItems w)) w)
          else w
      | None => w
      end
  | None => w
  end.

(** ** [async] functions

    An [async] function runs until its first [await], which suspends it; the
    event loop resumes the rest later with the value awaited.  [Outcome] is
    what a call has come to when control returns to the event loop, and
    [M A] is a computation that passes the state along and can suspend. *)

Inductive Await :=
| awaitInput (settings : InputSettings)   (* [this.norsk.input.X(...)] in [createNode] *)
| awaitListener (proto : Protocol) (port : nat)  (* [ListenerNode.create] *)
| awaitInfo (nodeId : string)             (* the duration promise of an MP4 input *)
| awaitSettled.                           (* a promise that is already settled *)

Inductive Response :=
| created (node : Node)
| failed (e : string)
| info (durationMs : option Z)
| settled.

Inductive Outcome :=
| Finished (w : World)
| Exited (w : World)
| Rejected (w : World) (e : string)
| Suspended (w : World) (a : Await) (k : Response -> World -> Outcome).

Definition M (A : Type) : Type := World -> (A -> World -> Outcome) -> Outcome.

#[export] Instance M_ret : MRet M := fun A a w k => k a w.
#[export] Instance M_bind : MBind M := fun A B f m w k => m w (fun a w' => f a w' k).

Definition get : M World := fun w k => k w w.
Definition modify (f : World -> World) : M unit := fun w k => k tt (f w).
Definition throw {A} (e : string) : M A := fun w _ => Rejected w e.
Definition exit {A} : M A := fun w _ => Exited w.
Definition await (a : Await) : M Response := fun w k => Suspended w a k.

Definition run (m : M unit) (w : World) : Outcome := m w (fun _ w' => Finished w').

(** ** The source factory [createNode] (lines 308-462) *)

Inductive DurationPromise := resolvedUndefined | resolvedByOnInfo (nodeId : string).

Record CreatedNodeInfo := mkCreated {
  cr_info : InitialCreateInfo;
  cr_duration : DurationPromise }.

Definition acceptAll (k : StreamKey) : bool := true.

(** The [streamKeyFilter] of an RTMP item (lines 408-413). *)
Definition rtmpStreamKeyFilter (sourceName' : option string) (streamKey : StreamKey) : bool :=
  if truthyS sourceName' then
    match sourceName' with
    | Some n => String.eqb (sourceName streamKey) n
    | None => true
    end
  else true.

(** Lines 396-399. *)
Definition rtmpSourceName (app stream : option string) : option string :=
  if truthyS app && truthyS stream then
    match app, stream with
    | Some a, Some s => Some (a +:+ "/" +:+ s)
    | _, _ => None
    end
  else None.

Definition listenerNotFound (port : nat) : string :=
  "Didn't find SRT listener on port " +:+ toString port.

Definition attach (nodeId : string) (cb : DisconnectCallback) (l : ListenerNode.t)
  : ListenerNode.t :=
  ListenerNode.mk (ListenerNode.node l) (Map_set nodeId cb (ListenerNode.onDisconnect l)).

Definition detach (nodeId : string) (l : ListenerNode.t) : ListenerNode.t :=
  ListenerNode.mk (ListenerNode.node l) (Map_delete nodeId (ListenerNode.onDisconnect l)).

(** The cases that ask the engine for a fresh input node.  The engine calls
    [onCreate] (lines 315-317) when it has made the node, and then fulfils the
    promise the function awaits. *)
Definition createStandalone (item : PlaylistItem.t) (nodeId : string)
    (subscribeNode : InitialCreateInfo -> World -> World)
    (durationPromise : DurationPromise) : M CreatedNodeInfo :=
  r ← await (awaitInput (mkInput nodeId (PlaylistItem.source item)));
  match r with
  | created node =>
      let info :=
        mkInfo node nodeId (nodeKind (PlaylistItem.source item)) item acceptAll
          (mkCloseNode true nodeId node) in
      modify (subscribeNode info);;
      mret (mkCreated info durationPromise)
  | failed e => throw e
  | _ => throw "unexpected answer"
  end.

Definition createNode (item : PlaylistItem.t) (currentSource : nat)
    (subscribeNode : InitialCreateInfo -> World -> World) : M CreatedNodeInfo :=
  let nodeId := "input-" +:+ toString currentSource in
  match PlaylistItem.source item with
  | localTsFile _ => createStandalone item nodeId subscribeNode resolvedUndefined
  | localMp4File _ => createStandalone item nodeId subscribeNode (resolvedByOnInfo nodeId)
  | srt listener _ port =>
      w ← get;
      match srtListeners w !! port with
      | Some l =>
          match ListenerNode.node l with
          | Some node =>
              let info :=
                mkInfo node nodeId (nodeKind (PlaylistItem.source item)) item acceptAll
                  (mkCloseNode false nodeId node) in
              modify (fun w =>
                set_srtListeners
                  (<[port := attach nodeId (srtOnDisconnect nodeId port) l]> (srtListeners w)) w);;
              modify (subscribeNode info);;
              mret (mkCreated info resolvedUndefined)
          | None => throw (listenerNotFound port)
          end
      | None => throw (listenerNotFound port)
      end
  | srt caller _ _ => createStandalone item nodeId subscribeNode resolvedUndefined
  | rtmp port app stream =>
      w ← get;
      match rtmpListeners w !! port with
      | Some l =>
          match ListenerNode.node l with
          | Some node =>
              let sourceName := rtmpSourceName app stream in
              let info :=
                mkInfo node nodeId (nodeKind (PlaylistItem.source item)) item
                  (rtmpStreamKeyFilter sourceName) (mkCloseNode false nodeId node) in
              modify (fun w =>
                set_rtmpListeners
                  (<[port := attach nodeId (rtmpOnDisconnect nodeId port sourceName) l]>
                     (rtmpListeners w)) w);;
              modify (subscribeNode info);;
              mret (mkCreated info resolvedUndefined)
          | None => throw (listenerNotFound port)
          end
      | None => throw (listenerNotFound port)
      end
  | image _ _ => createStandalone item nodeId subscribeNode resolvedUndefined
  | rtp _ => createStandalone item nodeId subscribeNode resolvedUndefined
  | whip => createStandalone item nodeId subscribeNode resolvedUndefined
  end.

(** [await createInfo.duration]. *)
Definition awaitDuration (p : DurationPromise) : M (option Z) :=
  match p with
  | resolvedUndefined => await awaitSettled;; mret None
  | resolvedByOnInfo nodeId =>
      r ← await (awaitInfo nodeId);
      match r with
      | info d => mret d
      | _ => throw "unexpected answer"
      end
  end.

(** [item.duration || (await createInfo.duration)]. *)
Definition durationOf (item : PlaylistItem.t) (createInfo : CreatedNodeInfo) : M (option Z) :=
  if truthyZ (PlaylistItem.duration item) then mret (PlaylistItem.duration item)
  else awaitDuration (cr_duration createInfo).

Definition setDurationAndClose (r : nat) (duration : option Z) (c : CloseNode) (w : World)
  : World :=
  set_heap
    (alter (fun s => PlayingItem.set_closeNode c (PlayingItem.set_duration duration s)) r
       (heap w)) w.

(** ** [update] (lines 151-219) *)

(** [const currentSource = this.sourceIndex++]. *)
Definition postIncrement : M nat :=
  fun w k => k (sourceIndex w) (set_sourceIndex (S (sourceIndex w)) w).

(** Lines 175-184. *)
Definition startImmediately (item : PlaylistItem.t) (currentSource : nat) : M unit :=
  createInfo ← createNode item currentSource (subscribeToNode currentSource currentSlot);
  await awaitSettled;;
  duration ← durationOf item createInfo;
  modify (fun w =>
    match current (playingItems w) with
    | Some r => setDurationAndClose r duration (ci_closeNode (cr_info createInfo)) w
    | None => w
    end).

(** Lines 168-173. *)
Definition usePrestarted (n : nat) (w : World) : World :=
  refreshActive (set_playingItems (mkSlots (prev (playingItems w)) (Some n) None) w).

(** Lines 187-199. *)
Definition scheduleAdvance (currentSource : nat) (w : World) : World :=
  let currentDuration := deref w (current (playingItems w)) ≫= PlayingItem.duration in
  if truthyZ currentDuration then
    match currentDuration with
    | Some d =>
        let '(timeout, w1) :=
          setTimeout (durationExpired currentSource) (d - transitionDuration w)%Z w in
        set_timeouts (timeouts w1 ++ [timeout]) w1
    | None => w
    end
  else w.

(** Lines 206-216. *)
Definition prewarm (currentSource : nat) : M unit :=
  w ← get;
  match playlist w !! (currentSource + 1)%nat with
  | Some next' =>
      if isLive (PlaylistItem.source next') then
        createInfo ← createNode next' currentSource
                        (subscribeToNode (currentSource + 1) nextSlot);
        await awaitSettled;;
        duration ← durationOf next' createInfo;
        w ← get;
        match next (playingItems w) with
        | Some r =>
            modify (setDurationAndClose r duration (ci_closeNode (cr_info createInfo)))
        | None => throw "TypeError: Cannot set properties of undefined (setting 'duration')"
        end
      else mret tt
  | None => mret tt
  end.

(** The body of [update] after [currentSource] is known (lines 160-218). *)
Definition advance (currentSource : nat) : M unit :=
  w ← get;
  match playlist w !! currentSource with
  | None => exit
  | Some item =>
      modify (fun w => set_playingItems (set_prev (current (playingItems w)) (playingItems w)) w);;
      w ← get;
      match next (playingItems w) with
      | Some n => modify (usePrestarted n)
      | None => startImmediately item currentSource
      end;;
      modify (scheduleAdvance currentSource);;
      prewarm currentSource
  end.

Definition update : M unit :=
  modify clearTimeouts;;
  currentSource ← postIncrement;
  advance currentSource.

(** ** [precreateListeners] (lines 464-520) and [create] (lines 92-149) *)

Definition newListener (node : Node) : ListenerNode.t := ListenerNode.mk (Some node) [].

(** One round of the loop.  In the ["rtmp"] case the [break] sits inside the
    [if], so a port that is already registered falls through to the ["rtp"]
    case, which only logs. *)
Definition precreateItem (item : PlaylistItem.t) : M unit :=
  match PlaylistItem.source item with
  | srt mode _ port =>
      w ← get;
      match mode, srtListeners w !! port with
      | listener, None =>
          r ← await (awaitListener SRT port);
          match r with
          | created node =>
              modify (fun w => set_srtListeners (<[port := newListener node]> (srtListeners w)) w)
          | failed e => throw e
          | _ => throw "unexpected answer"
          end
      | _, _ => mret tt
      end
  | rtmp port _ _ =>
      w ← get;
      match rtmpListeners w !! port with
      | None =>
          r ← await (awaitListener RTMP port);
          match r with
          | created node =>
              modify (fun w => set_rtmpListeners (<[port := newListener node]> (rtmpListeners w)) w)
          | failed e => throw e
          | _ => throw "unexpected answer"
          end
      | Some _ => mret tt
      end
  | _ => mret tt
  end.

Fixpoint precreateFrom (items : list PlaylistItem.t) : M unit :=
  match items with
  | [] => mret tt
  | item :: rest => precreateItem item;; precreateFrom rest
  end.

Definition precreateListeners : M unit :=
  w ← get; precreateFrom (playlist w).

(** The constructor (lines 79-83), after the five nodes of [create]. *)
Definition newPlaylist (playlist : list PlaylistItem.t) (transitionDuration : option Z)
  : World :=
  mkWorld playlist
    (if truthyZ transitionDuration then default 300%Z transitionDuration else 300%Z)
    0 None (mkSlots None None None) [] ∅ ∅
    [] [] 0 5 [] [] [] [].

(** ** The event loop

    [tasks] are the suspended calls of [async] functions.  [overlapped] is not
    a field of the program: it records that [update] was called while an
    earlier call of it was still suspended.  [unhandled] collects the
    rejections of promises nobody awaits; [halted] is set by
    [process.exit]. *)

Inductive TaskKind := updateCall | precreateCall.

Record Task := mkTask {
  taskKind : TaskKind;
  awaiting : Await;
  resume : Response -> World -> Outcome }.

Record Sys := mkSys {
  world : World;
  tasks : list Task;
  halted : bool;
  overlapped : bool;
  unhandled : list string }.

Definition set_world (w : World) (s : Sys) : Sys :=
  mkSys w (tasks s) (halted s) (overlapped s) (unhandled s).

Definition isUpdate (t : Task) : bool :=
  match taskKind t with updateCall => true | precreateCall => false end.

(** What is left of a call when it gives control back. *)
Definition settle (kind : TaskKind) (o : Outcome) (s : Sys) : Sys :=
  match o with
  | Finished w => set_world w s
  | Exited w => mkSys w (tasks s) true (overlapped s) (unhandled s)
  | Rejected w e => mkSys w (tasks s) (halted s) (overlapped s) (unhandled s ++ [e])
  | Suspended w a k =>
      mkSys w (tasks s ++ [mkTask kind a k]) (halted s) (overlapped s) (unhandled s)
  end.

(** A synchronous step of a callback; nothing runs after [process.exit]. *)
Definition sync (f : World -> World) (s : Sys) : Sys :=
  if halted s then s else set_world (f (world s)) s.

(** [this.update()] called and not awaited. *)
Definition callUpdate (s : Sys) : Sys :=
  if halted s then s
  else
    settle updateCall (run update (world s))
      (mkSys (world s) (tasks s) (halted s)
         (overlapped s || existsb isUpdate (tasks s)) (unhandled s)).

(** [Playlist.create]: [ret.precreateListeners()] is called and not awaited,
    and [ret] is returned (lines 146-148). *)
Definition create (playlist : list PlaylistItem.t) (transitionDuration : option Z) : Sys :=
  let ret := newPlaylist playlist transitionDuration in
  settle precreateCall (run precreateListeners ret) (mkSys ret [] false false []).

(** [start] and [switch] (lines 85-90). *)
Definition start (s : Sys) : Sys := callUpdate s.
Definition switch (s : Sys) : Sys := callUpdate s.

(** The engine's part in settling an awaited promise. *)
Inductive Answer := ok | error (e : string) | durationMs (d : option Z).

Definition listenerId (proto : Protocol) (port : nat) : string :=
  match proto with
  | SRT => "srt-" +:+ toString port
  | RTMP => "rtmp-" +:+ toString port
  end.

Definition deliver (a : Await) (ans : Answer) (w : World) : option (Response * World) :=
  match a, ans with
  | awaitInput settings, ok =>
      let node := mkNode (nextHandle w) (in_id settings) in
      Some (created node,
            set_nextHandle (S (nextHandle w)) (set_inputs (inputs w ++ [(node, settings)]) w))
  | awaitInput _, error e => Some (failed e, w)
  | awaitListener proto port, ok =>
      let node := mkNode (nextHandle w) (listenerId proto port) in
      Some (created node, set_nextHandle (S (nextHandle w)) w)
  | awaitListener _ _, error e => Some (failed e, w)
  | awaitInfo _, durationMs d => Some (info d, w)
  | awaitSettled, ok => Some (settled, w)
  | _, _ => None
  end.

Definition listeners (proto : Protocol) (w : World) : gmap nat ListenerNode.t :=
  match proto with SRT => srtListeners w | RTMP => rtmpListeners w end.

Definition set_listeners (proto : Protocol) (m : gmap nat ListenerNode.t) (w : World) : World :=
  match proto with SRT => set_srtListeners m w | RTMP => set_rtmpListeners m w end.

(** [listener?.onDisconnect.delete(nodeId)]. *)
Definition deleteCallback (proto : Protocol) (port : nat) (nodeId : string) (w : World) : World :=
  set_listeners proto (alter (detach nodeId) port (listeners proto w)) w.

(** The callbacks of lines 368-372 and 401-407, called with the name of the
    source that disconnected. *)
Definition runDisconnect (cb : DisconnectCallback) (disconnectSourceName : string) (s : Sys)
  : Sys :=
  match cb with
  | srtOnDisconnect nodeId port =>
      sync (deleteCallback SRT port nodeId) (callUpdate s)
  | rtmpOnDisconnect nodeId port sourceName =>
      match sourceName with
      | Some n =>
          if String.eqb disconnectSourceName n
          then sync (deleteCallback RTMP port nodeId) (callUpdate s)
          else s
      | None => s
      end
  end.

(** [nodeOnDisconnect] (lines 545-549): the loop over the entries of the
    [Map], which sees the entries the callbacks delete and add on the way.
    [fuel] bounds the number of rounds. *)
Fixpoint nodeOnDisconnect (fuel : nat) (proto : Protocol) (port : nat) (sourceName : string)
    (i : nat) (s : Sys) : option Sys :=
  match fuel with
  | O => None
  | S fuel' =>
      if halted s then Some s
      else
        match listeners proto (world s) !! port with
        | None => Some s
        | Some l =>
            match ListenerNode.onDisconnect l !! i with
            | None => Some s
            | Some None => nodeOnDisconnect fuel' proto port sourceName (S i) s
            | Some (Some (_, fn)) =>
                nodeOnDisconnect fuel' proto port sourceName (S i)
                  (runDisconnect fn sourceName s)
            end
        end
  end.

(** The hooks of a standalone input: [onEof] (lines 329-333 and 344-348) and
    [onConnectionStatusChange] of an SRT caller (lines 377-381). *)
Definition hasEndHook (source : PlaylistSource) : bool :=
  match source with
  | localTsFile _ | localMp4File _ | srt caller _ _ => true
  | _ => false
  end.

Definition onEnded (nodeId : string) (node : Node) (s : Sys) : Sys :=
  callUpdate (sync (closeNode (mkCloseNode true nodeId node)) s).

(** The callbacks handed to [setTimeout]. *)
Definition runTimer (cb : TimerCallback) (s : Sys) : Sys :=
  match cb with
  | durationExpired currentSource =>
      let close :=
        PlayingItem.closeNode <$> deref (world s) (current (playingItems (world s))) in
      sync (fun w => snd (setTimeout (deferredClose close) 1000 w)) (callUpdate s)
  | deferredClose close =>
      match close with
      | Some c => sync (closeNode c) s
      | None => s
      end
  | closeNodeNow nodeId node => sync (fun w => set_closed (closed w ++ [node]) w) s
  | switchSource pin => sync (fun w => set_switched (switched w ++ [pin]) w) s
  end.

Inductive Event :=
| callStart
| callSwitch
| settles (task : nat) (ans : Answer)
| fires (timer : nat)
| ended (node : Node)
| nodeClosed (node : Node)
| streamsChanged (subscription : nat) (streams : list StreamMetadata)
| disconnected (proto : Protocol) (port : nat) (sourceName : string) (fuel : nat).

Definition findTimer (t : nat) (w : World) : option Timer :=
  List.find (fun x => Nat.eqb (timerId x) t) (timers w).

Definition findInput (node : Node) (w : World) : option InputSettings :=
  snd <$> List.find (fun x => Node_eqb (fst x) node) (inputs w).

(** One turn of the event loop; [None] when the event cannot happen in [s]. *)
Definition dispatch (ev : Event) (s : Sys) : option Sys :=
  if halted s then None
  else
    match ev with
    | callStart => Some (start s)
    | callSwitch => Some (switch s)
    | settles i ans =>
        t ← tasks s !! i;
        '(r, w) ← deliver (awaiting t) ans (world s);
        Some (settle (taskKind t) (resume t r w)
                (mkSys w (delete i (tasks s)) (halted s) (overlapped s) (unhandled s)))
    | fires t =>
        x ← findTimer t (world s);
        Some (runTimer (callback x) (sync (clearTimeout t) s))
    | ended node =>
        settings ← findInput node (world s);
        if hasEndHook (in_source settings)
        then Some (onEnded (in_id settings) node s)
        else None
    | nodeClosed node =>
        settings ← findInput node (world s);
        Some (sync (onClose node) s)
    | streamsChanged i streams =>
        x ← subscribed (world s) !! i;
        Some (sync (fun w => snd (runSelector (sourceSelector x) streams w)) s)
    | disconnected proto port name fuel =>
        l ← listeners proto (world s) !! port;
        nodeOnDisconnect fuel proto port name 0 s
    end.

Definition step (s s' : Sys) : Prop := ∃ ev, dispatch ev s = Some s'.

Inductive reachable (playlist : list PlaylistItem.t) (transitionDuration : option Z)
  : Sys -> Prop :=
| reachable_create : reachable playlist transitionDuration (create playlist transitionDuration)
| reachable_step s s' :
    reachable playlist transitionDuration s -> step s s' ->
    reachable playlist transitionDuration s'.

(** Running a list of events, for traces. *)
Fixpoint dispatchAll (evs : list Event) (s : Sys) : option Sys :=
  match evs with
  | [] => Some s
  | ev :: evs' => s' ← dispatch ev s; dispatchAll evs' s'
  end.

(** Whether the events can happen one after the other from [s], and the
    state they lead to (or [s] itself if they cannot). *)
Definition possible (evs : list Event) (s : Sys) : bool :=
  match dispatchAll evs s with Some _ => true | None => false end.

Definition after (evs : list Event) (s : Sys) : Sys := default s (dispatchAll evs s).

(** * Properties *)

(** ** The stream selector of a slot *)

Lemma take_1_length {A} (l : list A) : (length (take 1 l) ≤ 1)%nat.
Proof. destruct l as [|x [|y l]]; simpl; lia. Qed.

Lemma take_1_nil {A} (l : list A) : take 1 l = [] ↔ l = [].
Proof. destruct l; simpl; split; congruence. Qed.

Lemma take_1_filter_Forall {A} (f : A -> bool) (l : list A) :
  Forall (fun x => f x = true ∧ x ∈ l) (take 1 (List.filter f l)).
Proof.
  apply Forall_forall. intros x Hx.
  apply subseteq_take in Hx. apply list_elem_of_In, filter_In in Hx.
  destruct Hx as [Hl Hf]. split; [exact Hf | by apply list_elem_of_In].
Qed.

Lemma filter_nil_iff {A} (f : A -> bool) (l : list A) :
  List.filter f l = [] ↔ ∀ x, x ∈ l → f x = false.
Proof.
  induction l as [|a l IH]; simpl.
  - split; [intros _ x Hx; inversion Hx | done].
  - destruct (f a) eqn:Hfa.
    + split; [discriminate |].
      intros H. specialize (H a (list_elem_of_here _ _)). congruence.
    + rewrite IH. split.
      * intros H x Hx. apply elem_of_cons in Hx as [-> | Hx]; auto.
      * intros H x Hx. apply H. by apply list_elem_of_further.
Qed.

Lemma refreshActive_heap w : heap (refreshActive w) = heap w.
Proof.
  unfold refreshActive, activateSource.
  repeat (case_match; simpl; try reflexivity).
Qed.

Lemma subscribeToNode_heap i slot ci w :
  heap (subscribeToNode i slot ci w) !! length (heap w) =
  Some (PlayingItem.mk (ci_item ci)
          (Some (mkSub (ci_node ci)
                   (StreamSelector i (ci_kind ci) (ci_streamKeyFilter ci) (length (heap w)))))
          (if AVKind_eqb (ci_kind ci) Kvideo
           then Some (mkSub silence (SilenceSelector i)) else None)
          false i None (ci_closeNode ci)).
Proof.
  unfold subscribeToNode, refreshSubs. simpl.
  rewrite lookup_app_r by lia. by rewrite Nat.sub_diag.
Qed.

Lemma subscribeToNode_slot i slot ci w :
  match slot with
  | currentSlot => current (playingItems (subscribeToNode i slot ci w))
  | nextSlot => next (playingItems (subscribeToNode i slot ci w))
  end = Some (length (heap w)).
Proof. by destruct slot. Qed.

(** C1.  The subscription [subscribeToNode(index, slot)] installs on its new
    [state] object carries a selector that, on any stream list and in any later
    state: keeps at most one audio and one video key, each accepted by the
    item's [streamKeyFilter] (and none only if no key of that kind is
    accepted); returns [{ index.toString(): audio ++ video }] when one key at
    least is kept and nothing otherwise; and leaves [state.ready] true exactly
    when ([kind] is video or an audio key is kept) and a video key is kept,
    changing no other field of the object. *)
Theorem C1_stream_selector (index : nat) (slot : NodeType) (ci : InitialCreateInfo)
    (w0 : World) :
  ∃ r state sel,
    match slot with
    | currentSlot => current (playingItems (subscribeToNode index slot ci w0))
    | nextSlot => next (playingItems (subscribeToNode index slot ci w0))
    end = Some r ∧
    heap (subscribeToNode index slot ci w0) !! r = Some state ∧
    PlayingItem.ready state = false ∧
    PlayingItem.sub state = Some (mkSub (ci_node ci) sel) ∧
    ∀ (streams : list StreamMetadata) (w : World),
      ∃ audio video : list StreamKey,
        (length audio ≤ 1)%nat ∧ (length video ≤ 1)%nat ∧
        Forall (fun k => ci_streamKeyFilter ci k = true ∧ k ∈ audioStreamKeys streams) audio ∧
        Forall (fun k => ci_streamKeyFilter ci k = true ∧ k ∈ videoStreamKeys streams) video ∧
        (audio = [] ↔ ∀ k, k ∈ audioStreamKeys streams → ci_streamKeyFilter ci k = false) ∧
        (video = [] ↔ ∀ k, k ∈ videoStreamKeys streams → ci_streamKeyFilter ci k = false) ∧
        fst (runSelector sel streams w) =
          (if decide (audio ++ video = []) then None
           else Some {[ toString index := audio ++ video ]}) ∧
        ∃ ready : bool,
          (ready = true ↔ (ci_kind ci = Kvideo ∨ audio ≠ []) ∧ video ≠ []) ∧
          heap (snd (runSelector sel streams w)) !! r =
            PlayingItem.set_ready ready <$> heap w !! r.
Proof.
  exists (length (heap w0)).
  eexists. eexists.
  split; [apply subscribeToNode_slot |].
  split; [apply subscribeToNode_heap |].
  split; [reflexivity |].
  split; [reflexivity |].
  intros streams w.
  exists (take 1 (List.filter (ci_streamKeyFilter ci) (audioStreamKeys streams))).
  exists (take 1 (List.filter (ci_streamKeyFilter ci) (videoStreamKeys streams))).
  split; [apply take_1_length |].
  split; [apply take_1_length |].
  split; [apply take_1_filter_Forall |].
  split; [apply take_1_filter_Forall |].
  split; [rewrite take_1_nil; apply filter_nil_iff |].
  split; [rewrite take_1_nil; apply filter_nil_iff |].
  set (audio := take 1 _). set (video := take 1 _).
  split.
  - cbn [runSelector fst]. fold audio video.
    destruct (audio ++ video) as [|k ks] eqn:Hk.
    + rewrite decide_True; done.
    + rewrite decide_False; done.
  - exists ((AVKind_eqb (ci_kind ci) Kvideo || (1 <=? length audio)%nat)
            && (1 <=? length video)%nat).
    split.
    + rewrite andb_true_iff, orb_true_iff, !Nat.leb_le.
      assert (Hlen : ∀ l : list StreamKey, (1 ≤ length l)%nat ↔ l ≠ []).
      { intros [|x l]; simpl; split; try congruence; try lia. }
      rewrite !Hlen.
      assert (Hk : AVKind_eqb (ci_kind ci) Kvideo = true ↔ ci_kind ci = Kvideo).
      { destruct (ci_kind ci); simpl; split; congruence. }
      rewrite Hk. reflexivity.
    + cbn [runSelector snd]. fold audio video. rewrite refreshActive_heap.
      cbn [heap set_heap]. rewrite list_lookup_alter, decide_True; done.
Qed.

(** ** The source factory on shared-listener items *)

(** The listener an item is served from, if it is a shared-listener item. *)
Definition listenerOf (source : PlaylistSource) : option (Protocol * nat) :=
  match source with
  | srt listener _ port => Some (SRT, port)
  | rtmp port _ _ => Some (RTMP, port)
  | _ => None
  end.

(** The node registered for a port, if any. *)
Definition registered (proto : Protocol) (port : nat) (w : World) : option Node :=
  listeners proto w !! port ≫= ListenerNode.node.

(** The callback [createNode] stores for a shared-listener item. *)
Definition callbackOf (source : PlaylistSource) (nodeId : string) : option DisconnectCallback :=
  match source with
  | srt listener _ port => Some (srtOnDisconnect nodeId port)
  | rtmp port app stream => Some (rtmpOnDisconnect nodeId port (rtmpSourceName app stream))
  | _ => None
  end.


Definition nodeIdOf (currentSource : nat) : string := "input-" +:+ toString currentSource.





Lemma createNode_no_listener item currentSource subscribeNode proto port w
    (k : CreatedNodeInfo -> World -> Outcome) :
  listenerOf (PlaylistItem.source item) = Some (proto, port) →
  registered proto port w = None →
  createNode item currentSource subscribeNode w k = Rejected w (listenerNotFound port).
Proof.
  unfold registered, createNode. intros Hl Hr.
  destruct (PlaylistItem.source item) as [| |[] ? p|p ? ?| | |]; simplify_eq/=.
  - unfold mbind, M_bind, get. simpl.
    destruct (srtListeners w !! port) as [l|]; [|done].
    simpl in Hr. by rewrite Hr.
  - unfold mbind, M_bind, get. simpl.
    destruct (rtmpListeners w !! port) as [l|]; [|done].
    simpl in Hr. by rewrite Hr.
Qed.


(** The loop of lines 153-156 in closed form: every timer whose identifier is
    in [this.timeouts] is cancelled, and the field ends up empty. *)
Definition cancelled (ids : list nat) (t : Timer) : bool :=
  existsb (Nat.eqb (timerId t)) ids.

Lemma filter_cancelled_nil (l : list Timer) :
  List.filter (fun t => negb (cancelled [] t)) l = l.
Proof. induction l; unfold cancelled in *; simpl in *; congruence. Qed.

Lemma filter_filter_cancelled a ids (l : list Timer) :
  List.filter (fun t => negb (cancelled ids t))
    (List.filter (fun x => negb (Nat.eqb (timerId x) a)) l) =
  List.filter (fun t => negb (cancelled (a :: ids) t)) l.
Proof.
  unfold cancelled. induction l as [|t l IH]; simpl; [done |].
  destruct (Nat.eqb (timerId t) a) eqn:E; simpl; rewrite ?IH; reflexivity.
Qed.

Lemma clearTimeouts_fold (ids : list nat) (w : World) :
  fold_left (fun w timeout => set_timeouts [] (clearTimeout timeout w)) ids w =
  match ids with
  | [] => w
  | _ => set_timeouts [] (set_timers (List.filter (fun t => negb (cancelled ids t)) (timers w)) w)
  end.
Proof.
  revert w. induction ids as [|a ids IH]; intros w; [done |].
  cbn [fold_left]. rewrite IH. destruct ids as [|b ids].
  - unfold clearTimeout.
    rewrite (filter_ext (fun t => negb (cancelled [a] t))
               (fun x => negb (Nat.eqb (timerId x) a))); [done |].
    intros t. unfold cancelled. simpl. by rewrite orb_false_r.
  - unfold clearTimeout. rewrite <- (filter_filter_cancelled a (b :: ids)).
    reflexivity.
Qed.

Lemma clearTimeouts_eq (w : World) :
  clearTimeouts w =
  set_timeouts []
    (set_timers (List.filter (fun t => negb (cancelled (timeouts w) t)) (timers w)) w).
Proof.
  unfold clearTimeouts. rewrite clearTimeouts_fold.
  destruct (timeouts w) eqn:E; [| done].
  rewrite filter_cancelled_nil. destruct w; simpl in *. by subst.
Qed.

(** The synchronous prefix of [update] (lines 153-158). *)
Definition prefix (w : World) : World :=
  set_sourceIndex (S (sourceIndex w)) (clearTimeouts w).

Lemma update_prefix (w : World) (k : unit -> World -> Outcome) :
  update w k = advance (sourceIndex w) (prefix w) k.
Proof.
  unfold update, prefix, mbind, M_bind, modify, postIncrement.
  rewrite clearTimeouts_eq. reflexivity.
Qed.

(** C7.  An item served by a listener (SRT in listener mode, or RTMP) whose
    port has no listener node registered makes [createNode] throw at once, in
    the state it was called in (no node asked for, no slot written); the
    error leaves [update] as a rejection, both when the item is the one to
    start and when it is the one to prewarm. *)
Theorem C7_missing_listener (item : PlaylistItem.t) (proto : Protocol) (port : nat)
    (w : World) :
  listenerOf (PlaylistItem.source item) = Some (proto, port) →
  registered proto port w = None →
  (∀ currentSource subscribeNode (k : CreatedNodeInfo -> World -> Outcome),
     createNode item currentSource subscribeNode w k = Rejected w (listenerNotFound port)) ∧
  (playlist w !! sourceIndex w = Some item → next (playingItems w) = None →
   ∃ w', run update w = Rejected w' (listenerNotFound port) ∧
         heap w' = heap w ∧ inputs w' = inputs w ∧
         current (playingItems w') = current (playingItems w) ∧
         next (playingItems w') = None) ∧
  (∀ currentSource (k : unit -> World -> Outcome),
     playlist w !! (currentSource + 1)%nat = Some item →
     prewarm currentSource w k = Rejected w (listenerNotFound port)).
Proof.
  intros Hl Hr. split; [| split].
  - intros. by eapply createNode_no_listener.
  - intros Hitem Hnext.
    unfold run. rewrite update_prefix. unfold prefix. rewrite clearTimeouts_eq.
    unfold advance, mbind, M_bind, get, modify. simpl. rewrite Hitem. simpl.
    rewrite Hnext. unfold startImmediately, mbind, M_bind.
    erewrite createNode_no_listener; [| exact Hl |].
    + eexists. split; [reflexivity |]. simpl. auto.
    + unfold registered in *. by destruct proto.
  - intros c k Hitem. unfold prewarm, mbind, M_bind, get. rewrite Hitem.
    assert (isLive (PlaylistItem.source item) = true) as ->.
    { destruct (PlaylistItem.source item) as [| |[] ? ?|? ? ?| | |]; simplify_eq/=; done. }
    by erewrite createNode_no_listener.
Qed.

Definition srtListenerItem (port : nat) : PlaylistItem.t :=
  PlaylistItem.mk None None (srt listener "0.0.0.0" port).

Lemma C7_missing_listener_witness :
  listenerOf (PlaylistItem.source (srtListenerItem 5000)) = Some (SRT, 5000%nat) ∧
  registered SRT 5000 (newPlaylist [srtListenerItem 5000] None) = None ∧
  ∀ currentSource subscribeNode (k : CreatedNodeInfo -> World -> Outcome),
    createNode (srtListenerItem 5000) currentSource subscribeNode
      (newPlaylist [srtListenerItem 5000] None) k =
    Rejected (newPlaylist [srtListenerItem 5000] None) (listenerNotFound 5000).
Proof.
  split; [reflexivity |]. split; [reflexivity |].
  exact (proj1 (C7_missing_listener (srtListenerItem 5000) SRT 5000
                  (newPlaylist [srtListenerItem 5000] None) eq_refl eq_refl)).
Defined.

(** ** Disconnects on a shared listener *)

(** Whether a registered callback calls [update] when the source called
    [name] disconnects. *)
Definition answers (name : string) (cb : DisconnectCallback) : bool :=
  match cb with
  | srtOnDisconnect _ _ => true
  | rtmpOnDisconnect _ _ (Some n) => String.eqb name n
  | rtmpOnDisconnect _ _ None => false
  end.




Definition rtmpItem (port : nat) (app stream : option string) : PlaylistItem.t :=
  PlaylistItem.mk None None (rtmp port app stream).




Definition rtmpRegistered (port : nat) : World :=
  set_rtmpListeners {[ port := newListener (mkNode 5 (listenerId RTMP port)) ]}
    (newPlaylist [rtmpItem port None None] None).


(** ** [closeNode] *)






(** ** The advance timer *)

Definition tsItem (duration : option Z) : PlaylistItem.t :=
  PlaylistItem.mk None duration (localTsFile "a.ts").

(** The claim that the timer is set for [max(duration - transitionDuration, 0)]
    fails: a TS file item of 100 ms, under the default transition of 300 ms,
    is started, and the one timer then pending was given -200. *)
Lemma C2_counterexample :
  let s := after [callStart; settles 0 ok; settles 0 ok] (create [tsItem (Some 100%Z)] None) in
  possible [callStart; settles 0 ok; settles 0 ok] (create [tsItem (Some 100%Z)] None) = true ∧
  deref (world s) (current (playingItems (world s))) ≫= PlayingItem.duration = Some 100%Z ∧
  transitionDuration (world s) = 300%Z ∧
  timers (world s) = [mkTimer 0 (-200) (durationExpired 0)] ∧
  (-200)%Z ≠ Z.max (100 - 300) 0.
Proof. repeat split; try (vm_compute; reflexivity). vm_compute. discriminate. Qed.

(** A duration that is absent or 0 is falsy: no timer is set. *)
Lemma scheduleAdvance_falsy (currentSource : nat) (w : World) :
  truthyZ (deref w (current (playingItems w)) ≫= PlayingItem.duration) = false →
  scheduleAdvance currentSource w = w.
Proof. unfold scheduleAdvance. by intros ->. Qed.

(** C2, amended.  When the current item's known duration [d] is not 0, lines
    187-199 of [update] set one timer, with [d - transitionDuration] as its
    delay, and push it on [this.timeouts].  That delay is
    [max(d - transitionDuration, 0)] when [d] is at least the transition
    duration, and negative when it is shorter; the timer is set all the
    same. *)
Theorem C2_advance_timer (w : World) (currentSource r : nat) (state : PlayingItem.t) (d : Z) :
  current (playingItems w) = Some r →
  heap w !! r = Some state →
  PlayingItem.duration state = Some d →
  d ≠ 0%Z →
  timers (scheduleAdvance currentSource w) =
    timers w ++ [mkTimer (nextTimer w) (d - transitionDuration w) (durationExpired currentSource)] ∧
  timeouts (scheduleAdvance currentSource w) = timeouts w ++ [nextTimer w] ∧
  ((transitionDuration w ≤ d)%Z →
   (d - transitionDuration w)%Z = Z.max (d - transitionDuration w) 0) ∧
  ((d < transitionDuration w)%Z → (d - transitionDuration w < 0)%Z).
Proof.
  intros Hc Hr Hd Hnz. unfold scheduleAdvance.
  rewrite Hc. simpl. rewrite Hr. simpl. rewrite Hd. simpl.
  destruct (Z.eqb_spec d 0) as [|_]; [done |]. simpl.
  repeat split; lia.
Qed.

Definition shortFilePlaying : World :=
  set_heap
    [PlayingItem.mk (tsItem (Some 100%Z)) None None false 0 (Some 100%Z)
       (mkCloseNode true "input-0" (mkNode 5 "input-0"))]
    (set_playingItems (mkSlots None (Some 0%nat) None)
       (newPlaylist [tsItem (Some 100%Z)] None)).

Lemma C2_advance_timer_witness :
  (100 ≠ 0)%Z ∧
  timers (scheduleAdvance 0 shortFilePlaying) = [mkTimer 0 (100 - 300) (durationExpired 0)].
Proof.
  assert (H : (100 ≠ 0)%Z) by discriminate.
  split; [exact H |].
  exact (proj1 (C2_advance_timer shortFilePlaying 0 0 _ 100 eq_refl eq_refl eq_refl H)).
Defined.

(** ** Node ids *)

Definition tsThenRtp : list PlaylistItem.t :=
  [tsItem None; PlaylistItem.mk None None (rtp [])].

(** C4 (the code departs from the claim).  With a TS file followed by an RTP
    item, [start] creates the file's node as ["input-0"] and then prewarms
    the RTP item, which is item 1 and is subscribed on pin ["1"] in the
    [next] slot; the node id handed to the engine for it is ["input-0"]
    again, not ["input-1"]. *)
Theorem C4_prewarm_node_id :
  let evs := [callStart; settles 0 ok; settles 0 ok; settles 0 ok; settles 0 ok] in
  let s := after evs (create tsThenRtp None) in
  possible evs (create tsThenRtp None) = true ∧
  map (fun x => (id (fst x), in_id (snd x), in_source (snd x))) (inputs (world s)) =
    [("input-0", "input-0", localTsFile "a.ts"); ("input-0", "input-0", rtp [])] ∧
  PlayingItem.index <$> deref (world s) (next (playingItems (world s))) = Some 1%nat ∧
  (PlayingItem.item <$> deref (world s) (next (playingItems (world s)))) = tsThenRtp !! 1%nat ∧
  (id ∘ sub_source <$> (deref (world s) (next (playingItems (world s))) ≫= PlayingItem.sub))
    = Some "input-0" ∧
  "input-0" ≠ "input-" +:+ toString 1.
Proof. repeat split; try (vm_compute; reflexivity). vm_compute. discriminate. Qed.

(** The same for every position: the prewarm of the item at
    [currentSource + 1] asks the engine for a node called
    ["input-<currentSource>"]. *)
Lemma prewarm_node_id (currentSource : nat) (w : World) (next' : PlaylistItem.t)
    (k : unit -> World -> Outcome) :
  playlist w !! (currentSource + 1)%nat = Some next' →
  isLive (PlaylistItem.source next') = true →
  listenerOf (PlaylistItem.source next') = None →
  ∃ k', prewarm currentSource w k =
        Suspended w (awaitInput (mkInput ("input-" +:+ toString currentSource)
                                   (PlaylistItem.source next'))) k'.
Proof.
  intros Hn Hlive Hl. unfold prewarm, mbind, M_bind, get. rewrite Hn, Hlive.
  unfold createNode. destruct next' as [b d src]. simpl in *.
  destruct src as [| |[] ? ?|? ? ?| | |]; simplify_eq/=;
    unfold createStandalone, mbind, M_bind, await; eexists; reflexivity.
Qed.

(** ** Listener pre-creation *)

Definition sharedPorts : list PlaylistItem.t :=
  [srtListenerItem 5000; srtListenerItem 5000; rtmpItem 1935 None None;
   rtmpItem 1935 (Some "a") (Some "b")].

(** C3 (the code departs from the claim).  [create] calls
    [precreateListeners] without awaiting it.  For a playlist of one SRT
    listener item on port 5000, the state [create] resolves with has no
    listener registered, the pre-creation being suspended on the engine, and
    [start] called on it fails in the factory.  Had the engine answered
    first, the listener would be there and [start] would go through.  Run to
    its end, the pre-creation makes one node per port: for two SRT listener
    items on port 5000 and two RTMP items on port 1935, two nodes in all. *)
Theorem C3_create_does_not_wait :
  let s := create [srtListenerItem 5000] None in
  let s1 := after [settles 0 ok; callStart] s in
  let s2 := after [settles 0 ok; settles 0 ok] (create sharedPorts None) in
  srtListeners (world s) !! 5000%nat = None ∧
  map awaiting (tasks s) = [awaitListener SRT 5000] ∧
  unhandled (start s) = [listenerNotFound 5000] ∧
  current (playingItems (world (start s))) = None ∧
  (possible [settles 0 ok; callStart] s = true ∧
   registered SRT 5000 (world s1) = Some (mkNode 5 "srt-5000") ∧
   unhandled s1 = [] ∧
   current (playingItems (world s1)) = Some 0%nat) ∧
  possible [settles 0 ok; settles 0 ok] (create sharedPorts None) = true ∧
  map_to_list (srtListeners (world s2)) = [(5000%nat, newListener (mkNode 5 "srt-5000"))] ∧
  map_to_list (rtmpListeners (world s2)) = [(1935%nat, newListener (mkNode 6 "rtmp-1935"))] ∧
  nextHandle (world s2) = 7%nat ∧
  length (tasks s2) = 0%nat.
Proof. repeat split; vm_compute; reflexivity. Qed.

(** ** Case analysis on one turn of the event loop *)

Lemma dispatch_cases (P : Sys -> Sys -> Prop) :
  (∀ s, halted s = false → P s (callUpdate s)) →
  (∀ s i t ans r w,
     halted s = false → tasks s !! i = Some t →
     deliver (awaiting t) ans (world s) = Some (r, w) →
     P s (settle (taskKind t) (resume t r w)
            (mkSys w (delete i (tasks s)) (halted s) (overlapped s) (unhandled s)))) →
  (∀ s t x,
     halted s = false → findTimer t (world s) = Some x →
     P s (runTimer (callback x) (sync (clearTimeout t) s))) →
  (∀ s node settings,
     halted s = false → findInput node (world s) = Some settings →
     hasEndHook (in_source settings) = true →
     P s (onEnded (in_id settings) node s)) →
  (∀ s node, halted s = false → P s (sync (onClose node) s)) →
  (∀ s i streams x,
     halted s = false → subscribed (world s) !! i = Some x →
     P s (sync (fun w => snd (runSelector (sourceSelector x) streams w)) s)) →
  (∀ s proto port name fuel s',
     halted s = false →
     nodeOnDisconnect fuel proto port name 0 s = Some s' → P s s') →
  ∀ ev s s', dispatch ev s = Some s' → P s s'.
Proof.
  intros Hupd Hset Htim Hend Hclo Hstr Hdis ev s s'.
  unfold dispatch. destruct (halted s) eqn:Hh; [done |].
  destruct ev as [| | i ans | t | node | node | i streams | proto port name fuel].
  - intros [= <-]. by apply Hupd.
  - intros [= <-]. by apply Hupd.
  - destruct (tasks s !! i) as [t|] eqn:Ht; simpl; [| done].
    destruct (deliver (awaiting t) ans (world s)) as [[r w]|] eqn:Hd; simpl; [| done].
    intros [= <-]. rewrite <- Hh. by eapply Hset.
  - destruct (findTimer t (world s)) as [x|] eqn:Hx; simpl; [| done].
    intros [= <-]. by apply Htim.
  - destruct (findInput node (world s)) as [settings|] eqn:Hi; simpl; [| done].
    destruct (hasEndHook (in_source settings)) eqn:Hhook; [| done].
    intros [= <-]. by apply Hend.
  - destruct (findInput node (world s)) as [settings|] eqn:Hi; simpl; [| done].
    intros [= <-]. by apply Hclo.
  - destruct (subscribed (world s) !! i) as [x|] eqn:Hx; simpl; [| done].
    intros [= <-]. by eapply Hstr.
  - destruct (listeners proto (world s) !! port) as [l|] eqn:Hl; simpl; [| done].
    intros H. by eapply Hdis.
Qed.

(** * Reasoning about suspended calls

    A relation [R] between states is [kept] by a computation when every
    stretch of it that runs without giving control back relates the state it
    starts in to the state it stops in, whatever the event loop did to the
    state while the computation was suspended. *)

Definition outcomeWorld (o : Outcome) : World :=
  match o with
  | Finished w | Exited w | Rejected w _ | Suspended w _ _ => w
  end.

(** [R] holds of every state with itself and composes. *)
Class StepRel (R : World -> World -> Prop) : Prop := {
  R_refl : ∀ w, R w w;
  R_trans : ∀ a b c, R a b → R b c → R a c }.

(** [R] is kept by the assignments of [precreateListeners]. *)
Class PrecreateKeeps (R : World -> World -> Prop) : Prop := {
  R_step :: StepRel R;
  R_set_listeners : ∀ proto m w, R w (set_listeners proto m w) }.

(** [R] is kept by the assignments of [update] after its prefix. *)
Class UpdateKeeps (R : World -> World -> Prop) : Prop := {
  R_precreate :: PrecreateKeeps R;
  R_subscribe_current : ∀ i ci w, R w (subscribeToNode i currentSlot ci w);
  R_subscribe_next :
    ∀ i ci w, isLive (PlaylistItem.source (ci_item ci)) = true →
              R w (subscribeToNode i nextSlot ci w);
  R_setDurationAndClose : ∀ r d c w, R w (setDurationAndClose r d c w);
  R_scheduleAdvance : ∀ c w, R w (scheduleAdvance c w);
  R_set_prev :
    ∀ w, R w (set_playingItems (set_prev (current (playingItems w)) (playingItems w)) w);
  R_usePrestarted : ∀ n w, next (playingItems w) = Some n → R w (usePrestarted n w) }.

(** [R] is kept, besides, by the synchronous prefix of [update], by the
    callbacks and by the engine. *)
Class EventsKeep (R : World -> World -> Prop) : Prop := {
  R_update :: UpdateKeeps R;
  R_prefix : ∀ w, R w (prefix w);
  R_closeNode : ∀ c w, R w (closeNode c w);
  R_onClose : ∀ node w, R w (onClose node w);
  R_runSelector : ∀ sel streams w, R w (snd (runSelector sel streams w));
  R_clearTimeout : ∀ t w, R w (clearTimeout t w);
  R_deferredClose : ∀ close w, R w (snd (setTimeout (deferredClose close) 1000 w));
  R_closed : ∀ node w, R w (set_closed (closed w ++ [node]) w);
  R_switched : ∀ pin w, R w (set_switched (switched w ++ [pin]) w);
  R_deliver : ∀ a ans w r w', deliver a ans w = Some (r, w') → R w w' }.

Section Guarantee.
Context (R : World -> World -> Prop) `{!StepRel R}.

#[local] Hint Extern 0 (R ?w ?w) => apply R_refl : core.

Inductive guar (w0 : World) : Outcome -> Prop :=
| guar_Finished w : R w0 w → guar w0 (Finished w)
| guar_Exited w : R w0 w → guar w0 (Exited w)
| guar_Rejected w e : R w0 w → guar w0 (Rejected w e)
| guar_Suspended w a k :
    R w0 w → (∀ r w', guar w' (k r w')) → guar w0 (Suspended w a k).

(** The continuations an outcome leaves behind are kept. *)
Definition conts (o : Outcome) : Prop :=
  match o with
  | Suspended _ _ k => ∀ r w', guar w' (k r w')
  | _ => True
  end.

Lemma guar_world w0 o : guar w0 o → R w0 (outcomeWorld o).
Proof. by destruct 1. Qed.

Lemma guar_conts w0 o : guar w0 o → conts o.
Proof. by destruct 1. Qed.

(** [m], started in [w], keeps [R] and hands over to its continuation in a
    state and with a value that satisfy [Post]. *)
Definition kept {A} (m : M A) (w : World) (Post : A -> World -> Prop) : Prop :=
  ∀ k, (∀ a w0 w', Post a w' → R w0 w' → guar w0 (k a w')) →
       ∀ w0, R w0 w → guar w0 (m w k).

Lemma kept_weaken {A} (m : M A) w (Post Post' : A -> World -> Prop) :
  kept m w Post → (∀ a w', Post a w' → Post' a w') → kept m w Post'.
Proof. intros Hm HP k Hk w0 Hw. apply Hm; auto. Qed.

Lemma kept_ret {A} (a : A) w : kept (mret a) w (fun a' w' => a' = a ∧ w' = w).
Proof. intros k Hk w0 Hw. by apply Hk. Qed.

Lemma kept_bind {A B} (m : M A) (f : A -> M B) w Post Post' :
  kept m w Post →
  (∀ a w', Post a w' → kept (f a) w' Post') →
  kept (m ≫= f) w Post'.
Proof.
  intros Hm Hf k Hk w0 Hw. unfold mbind, M_bind.
  apply Hm; [| done]. intros a w1 w' HP Hw'. by apply (Hf a w' HP).
Qed.

Lemma kept_get w : kept get w (fun a w' => a = w ∧ w' = w).
Proof. intros k Hk w0 Hw. by apply Hk. Qed.

Lemma kept_modify (f : World -> World) w :
  R w (f w) → kept (modify f) w (fun _ w' => w' = f w).
Proof. intros Hf k Hk w0 Hw. apply Hk; [done |]. by eapply R_trans. Qed.

Lemma kept_throw {A} e w (Post : A -> World -> Prop) : kept (throw e) w Post.
Proof. intros k Hk w0 Hw. by constructor. Qed.

Lemma kept_exit {A} w (Post : A -> World -> Prop) : kept exit w Post.
Proof. intros k Hk w0 Hw. by constructor. Qed.

Lemma kept_await a w : kept (await a) w (fun _ _ => True).
Proof.
  intros k Hk w0 Hw. constructor; [done |].
  intros r w'. by apply Hk.
Qed.

Lemma kept_run (m : M unit) w Post : kept m w Post → guar w (run m w).
Proof.
  intros Hm. apply Hm; [| done]. intros a w0 w' _ Hw'. by constructor.
Qed.

End Guarantee.

(** ** [precreateListeners] keeps [R] *)

Section Precreate.
Context (R : World -> World -> Prop) `{!PrecreateKeeps R}.

#[local] Hint Extern 0 (R ?w ?w) => apply R_refl : core.

Lemma precreateItem_kept item w : kept R (precreateItem item) w (fun _ _ => True).
Proof.
  unfold precreateItem.
  destruct (PlaylistItem.source item) as [| |mode ? port|port ? ?| | |];
    try (eapply (kept_weaken R); [apply (kept_ret R) | done]).
  - intros k Hk w0 Hw. unfold mbind, M_bind, get, await, modify, mret, M_ret, throw.
    destruct mode; [by apply Hk |].
    destruct (srtListeners w !! port); [by apply Hk |].
    constructor; [done |]. intros r w'. destruct r; try by constructor.
    apply Hk; [done |]. apply (R_set_listeners SRT).
  - intros k Hk w0 Hw. unfold mbind, M_bind, get, await, modify, mret, M_ret, throw.
    destruct (rtmpListeners w !! port); [by apply Hk |].
    constructor; [done |]. intros r w'. destruct r; try by constructor.
    apply Hk; [done |]. apply (R_set_listeners RTMP).
Qed.

Lemma precreateFrom_kept items w : kept R (precreateFrom items) w (fun _ _ => True).
Proof.
  revert w. induction items as [|item rest IH]; intros w; simpl.
  - eapply (kept_weaken R); [apply (kept_ret R) | done].
  - eapply (kept_bind R); [apply precreateItem_kept |]. intros _ w1 _. apply IH.
Qed.

Lemma precreate_kept w : guar R w (run precreateListeners w).
Proof.
  eapply (kept_run R). unfold precreateListeners.
  eapply (kept_bind R); [apply (kept_get R) |]. intros ? ? [-> ->].
  apply precreateFrom_kept.
Qed.

Lemma precreate_conts w : conts R (run precreateListeners w).
Proof. apply (guar_conts R _ _ (precreate_kept w)). Qed.
End Precreate.

(** ** [update] keeps [R] after its prefix *)

Section Update.
Context (R : World -> World -> Prop) `{!UpdateKeeps R}.

#[local] Hint Extern 0 (R ?w ?w) => apply R_refl : core.


Lemma createStandalone_kept item nodeId subscribeNode promise w :
  (∀ ci w, ci_item ci = item → R w (subscribeNode ci w)) →
  kept R (createStandalone item nodeId subscribeNode promise) w (fun _ _ => True).
Proof.
  intros Hsub k Hk w0 Hw.
  unfold createStandalone, mbind, M_bind, await, modify, mret, M_ret, throw.
  constructor; [done |]. intros r w'.
  destruct r; try by constructor.
  apply Hk; [done |]. by apply Hsub.
Qed.

Lemma createNode_kept item currentSource subscribeNode w :
  (∀ ci w, ci_item ci = item → R w (subscribeNode ci w)) →
  kept R (createNode item currentSource subscribeNode) w (fun _ _ => True).
Proof.
  intros Hsub. unfold createNode.
  destruct (PlaylistItem.source item) as [| |[] ? port|port ? ?| | |] eqn:Hsrc;
    try by apply createStandalone_kept.
  - intros k Hk w0 Hw. unfold mbind, M_bind, get, modify, mret, M_ret, throw.
    destruct (srtListeners w !! port) as [l|]; [| by constructor].
    destruct (ListenerNode.node l) as [node|]; [| by constructor].
    apply Hk; [done |].
    eapply R_trans; [exact Hw |].
    eapply R_trans; [apply (R_set_listeners SRT) | by apply Hsub].
  - intros k Hk w0 Hw. unfold mbind, M_bind, get, modify, mret, M_ret, throw.
    destruct (rtmpListeners w !! port) as [l|]; [| by constructor].
    destruct (ListenerNode.node l) as [node|]; [| by constructor].
    apply Hk; [done |].
    eapply R_trans; [exact Hw |].
    eapply R_trans; [apply (R_set_listeners RTMP) | by apply Hsub].
Qed.

Lemma durationOf_kept item createInfo w :
  kept R (durationOf item createInfo) w (fun _ _ => True).
Proof.
  intros k Hk w0 Hw. unfold durationOf.
  destruct (truthyZ (PlaylistItem.duration item)); [by apply Hk |].
  unfold awaitDuration, mbind, M_bind, await, mret, M_ret, throw.
  destruct (cr_duration createInfo); constructor; try done.
  - intros r w'. by apply Hk.
  - intros r w'. destruct r; try by constructor. by apply Hk.
Qed.

Lemma startImmediately_kept item currentSource w :
  kept R (startImmediately item currentSource) w (fun _ _ => True).
Proof.
  unfold startImmediately.
  eapply (kept_bind R); [apply createNode_kept; intros; apply R_subscribe_current |].
  intros createInfo w1 _.
  eapply (kept_bind R); [apply (kept_await R) |]. intros _ w2 _.
  eapply (kept_bind R); [apply durationOf_kept |]. intros duration w3 _.
  eapply (kept_weaken R); [apply (kept_modify R) | done].
  destruct (current (playingItems w3)); [apply R_setDurationAndClose | apply R_refl].
Qed.

Lemma prewarm_kept currentSource w :
  kept R (prewarm currentSource) w (fun _ _ => True).
Proof.
  unfold prewarm.
  eapply (kept_bind R); [apply (kept_get R) |]. intros ? ? [-> ->].
  destruct (playlist w !! (currentSource + 1)%nat) as [next'|];
    [| eapply (kept_weaken R); [apply (kept_ret R) | done]].
  destruct (isLive (PlaylistItem.source next')) eqn:Hlive;
    [| eapply (kept_weaken R); [apply (kept_ret R) | done]].
  eapply (kept_bind R).
  { apply createNode_kept. intros ci w1 Hci. apply R_subscribe_next. by rewrite Hci. }
  intros createInfo w1 _.
  eapply (kept_bind R); [apply (kept_await R) |]. intros _ w2 _.
  eapply (kept_bind R); [apply durationOf_kept |]. intros duration w3 _.
  eapply (kept_bind R); [apply (kept_get R) |]. intros ? ? [-> ->].
  destruct (next (playingItems w3)); [| apply (kept_throw R)].
  eapply (kept_weaken R); [apply (kept_modify R) | done]. apply R_setDurationAndClose.
Qed.

Lemma advance_kept currentSource w :
  kept R (advance currentSource) w (fun _ _ => True).
Proof.
  unfold advance.
  eapply (kept_bind R); [apply (kept_get R) |]. intros ? ? [-> ->].
  destruct (playlist w !! currentSource) as [item|]; [| apply (kept_exit R)].
  eapply (kept_bind R); [apply (kept_modify R), R_set_prev |]. intros _ w1 ->.
  eapply (kept_bind R); [apply (kept_get R) |]. intros ? ? [-> ->].
  eapply (kept_bind R) with (Post := fun _ _ => True).
  { simpl. destruct (next (playingItems w)) as [n|] eqn:Hn.
    - eapply (kept_weaken R); [apply (kept_modify R) | done].
      by apply R_usePrestarted.
    - apply startImmediately_kept. }
  intros _ w2 _.
  eapply (kept_bind R); [apply (kept_modify R), R_scheduleAdvance |]. intros _ w3 ->.
  apply prewarm_kept.
Qed.

Lemma update_conts w : conts R (run update w).
Proof.
  unfold run. rewrite update_prefix.
  eapply (guar_conts R), advance_kept; [| apply R_refl].
  intros a w0 w' _ Hw'. by constructor.
Qed.

(** *** The event loop keeps the suspended calls kept *)

Definition poolKept (s : Sys) : Prop :=
  Forall (fun t => ∀ r w, guar R w (resume t r w)) (tasks s).

Lemma settle_poolKept kind o s : conts R o → poolKept s → poolKept (settle kind o s).
Proof.
  unfold poolKept. destruct o; simpl; try done.
  intros Hk Hs. apply Forall_app. split; [done |]. by constructor.
Qed.

Lemma sync_poolKept f s : poolKept s → poolKept (sync f s).
Proof. unfold sync, poolKept. by destruct (halted s). Qed.

Lemma callUpdate_poolKept s : poolKept s → poolKept (callUpdate s).
Proof.
  unfold callUpdate. destruct (halted s); [done |].
  intros Hs. apply settle_poolKept; [apply update_conts | done].
Qed.

Lemma runDisconnect_poolKept cb name s : poolKept s → poolKept (runDisconnect cb name s).
Proof.
  destruct cb as [nodeId port | nodeId port [n|]]; simpl; auto.
  - intros. by apply sync_poolKept, callUpdate_poolKept.
  - destruct (String.eqb name n); auto.
    intros. by apply sync_poolKept, callUpdate_poolKept.
Qed.

Lemma nodeOnDisconnect_poolKept fuel proto port name i s s' :
  nodeOnDisconnect fuel proto port name i s = Some s' → poolKept s → poolKept s'.
Proof.
  revert i s. induction fuel as [|fuel IH]; intros i s; simpl; [done |].
  destruct (halted s); [by intros [= <-] |].
  destruct (listeners proto (world s) !! port) as [l|]; [| by intros [= <-]].
  destruct (ListenerNode.onDisconnect l !! i) as [[[key fn]|]|]; [| | by intros [= <-]].
  - intros H Hs. eapply IH; [exact H |]. by apply runDisconnect_poolKept.
  - intros H Hs. by eapply IH.
Qed.

Lemma runTimer_poolKept cb s : poolKept s → poolKept (runTimer cb s).
Proof.
  destruct cb as [c | [c|] | nodeId node | pin]; simpl; intros Hs;
    auto using sync_poolKept, callUpdate_poolKept.
Qed.

Lemma dispatch_poolKept ev s s' : dispatch ev s = Some s' → poolKept s → poolKept s'.
Proof.
  revert ev s s'. apply (dispatch_cases (fun s s' => poolKept s → poolKept s')).
  - intros s _. apply callUpdate_poolKept.
  - intros s i t ans r w _ Ht _ Hs.
    pose proof (Forall_lookup_1 _ _ _ _ Hs Ht) as Hk. simpl in Hk.
    apply settle_poolKept.
    + eapply (guar_conts R), Hk.
    + unfold poolKept in *. simpl. by apply Forall_delete.
  - intros s t x _ _ Hs. by apply runTimer_poolKept, sync_poolKept.
  - intros s node settings _ _ _ Hs. unfold onEnded.
    by apply callUpdate_poolKept, sync_poolKept.
  - intros s node _ Hs. by apply sync_poolKept.
  - intros s i streams x _ _ Hs. by apply sync_poolKept.
  - intros s proto port name fuel s' _ H Hs. by eapply nodeOnDisconnect_poolKept.
Qed.

Lemma create_poolKept playlist transitionDuration :
  poolKept (create playlist transitionDuration).
Proof.
  unfold create. apply settle_poolKept; [apply (precreate_conts R) | by constructor].
Qed.

Lemma reachable_poolKept playlist transitionDuration s :
  reachable playlist transitionDuration s → poolKept s.
Proof.
  induction 1 as [| s s' _ IH [ev Hev]]; [apply create_poolKept |].
  by eapply dispatch_poolKept.
Qed.

End Update.

(** ** Every turn of the event loop keeps [R] *)

Section Events.
Context (R : World -> World -> Prop) `{!EventsKeep R}.

#[local] Hint Extern 0 (R ?w ?w) => apply R_refl : core.

Lemma update_kept w : guar R w (run update w).
Proof.
  unfold run. rewrite update_prefix.
  eapply (advance_kept R); [| apply R_prefix].
  intros a w0 w' _ Hw'. by constructor.
Qed.

Lemma world_settle kind o s : world (settle kind o s) = outcomeWorld o.
Proof. by destruct o. Qed.

Lemma callUpdate_R s : R (world s) (world (callUpdate s)).
Proof.
  unfold callUpdate. destruct (halted s); [apply R_refl |].
  rewrite world_settle. apply (guar_world R), update_kept.
Qed.

Lemma sync_R f s : (∀ w, R w (f w)) → R (world s) (world (sync f s)).
Proof. unfold sync. destruct (halted s); simpl; auto. Qed.

Lemma runDisconnect_R cb name s : R (world s) (world (runDisconnect cb name s)).
Proof.
  assert (H : ∀ proto port nodeId,
            R (world s) (world (sync (deleteCallback proto port nodeId) (callUpdate s)))).
  { intros. eapply R_trans; [apply callUpdate_R |].
    apply sync_R. intros w. apply R_set_listeners. }
  destruct cb as [nodeId port | nodeId port [n|]]; simpl; auto.
  destruct (String.eqb name n); auto.
Qed.

Lemma nodeOnDisconnect_R fuel proto port name i s s' :
  nodeOnDisconnect fuel proto port name i s = Some s' → R (world s) (world s').
Proof.
  revert i s. induction fuel as [|fuel IH]; intros i s; simpl; [done |].
  destruct (halted s); [by intros [= <-] |].
  destruct (listeners proto (world s) !! port) as [l|]; [| by intros [= <-]].
  destruct (ListenerNode.onDisconnect l !! i) as [[[key fn]|]|]; [| | by intros [= <-]].
  - intros H. eapply R_trans; [apply runDisconnect_R | by eapply IH].
  - intros H. by eapply IH.
Qed.

Lemma runTimer_R cb s : R (world s) (world (runTimer cb s)).
Proof.
  destruct cb as [c | [c|] | nodeId node | pin]; simpl.
  - eapply R_trans; [apply callUpdate_R |]. apply sync_R. intros w.
    apply R_deferredClose.
  - apply sync_R, R_closeNode.
  - apply R_refl.
  - apply sync_R. intros w. apply R_closed.
  - apply sync_R. intros w. apply R_switched.
Qed.

Lemma dispatch_R ev s s' :
  dispatch ev s = Some s' → poolKept R s → R (world s) (world s').
Proof.
  revert ev s s'.
  apply (dispatch_cases (fun s s' => poolKept R s → R (world s) (world s'))).
  - intros s _ _. apply callUpdate_R.
  - intros s i t ans r w _ Ht Hd Hs.
    pose proof (Forall_lookup_1 _ _ _ _ Hs Ht) as Hk. simpl in Hk.
    rewrite world_settle.
    eapply R_trans; [by eapply R_deliver | apply (guar_world R), Hk].
  - intros s t x _ _ _.
    eapply R_trans; [apply sync_R, R_clearTimeout | apply runTimer_R].
  - intros s node settings _ _ _ _. unfold onEnded.
    eapply R_trans; [apply sync_R, R_closeNode | apply callUpdate_R].
  - intros s node _ _. apply sync_R, R_onClose.
  - intros s i streams x _ _ _. apply sync_R. intros w. apply R_runSelector.
  - intros s proto port name fuel s' _ H _. by eapply nodeOnDisconnect_R.
Qed.

Lemma reachable_R playlist transitionDuration s :
  reachable playlist transitionDuration s →
  R (newPlaylist playlist transitionDuration) (world s).
Proof.
  induction 1 as [| s s' Hs IH [ev Hev]].
  - unfold create. rewrite world_settle.
    apply (guar_world R _ _ (precreate_kept R _)).
  - eapply R_trans; [exact IH |].
    eapply dispatch_R; [exact Hev |]. by eapply (reachable_poolKept R).
Qed.
End Events.

(** * The playlist position *)

Ltac unfold_ops :=
  unfold subscribeToNode, refreshSubs, usePrestarted, refreshActive, activateSource,
    setDurationAndClose, scheduleAdvance, closeNode, onClose, runSelector, clearTimeout,
    setTimeout, set_listeners, deleteCallback in *.

(** [sourceIndex] is written by the prefix of [update] only. *)
Definition samePosition (w w' : World) : Prop := sourceIndex w' = sourceIndex w.

Ltac solve_samePosition :=
  intros; unfold samePosition in *; unfold_ops; repeat case_match; simpl; congruence.

#[export] Instance samePosition_step : StepRel samePosition.
Proof. split; solve_samePosition. Qed.

#[export] Instance samePosition_precreate : PrecreateKeeps samePosition.
Proof. split; [apply _ |]; solve_samePosition. Qed.

#[export] Instance samePosition_update : UpdateKeeps samePosition.
Proof. split; [apply _ | ..]; solve_samePosition. Qed.

Lemma update_position (w : World) :
  sourceIndex (outcomeWorld (run update w)) = S (sourceIndex w).
Proof.
  unfold run. rewrite update_prefix.
  change (S (sourceIndex w)) with (sourceIndex (prefix w)).
  apply (guar_world samePosition).
  eapply (advance_kept samePosition); [| apply R_refl].
  intros a w0 w' _ Hw'. by constructor.
Qed.

(** A call of [update] that finds an item at [sourceIndex] does not end the
    process in its synchronous part. *)
Definition notExited (o : Outcome) : Prop :=
  match o with Exited _ => False | _ => True end.

Definition noExit {A} (m : M A) : Prop :=
  ∀ w k, (∀ a w', notExited (k a w')) → notExited (m w k).

Lemma createNode_noExit item currentSource subscribeNode :
  noExit (createNode item currentSource subscribeNode).
Proof.
  intros w k Hk. unfold createNode, createStandalone, mbind, M_bind, get, await.
  destruct (PlaylistItem.source item) as [| |[] ? port|port ? ?| | |]; simpl; try done.
  - destruct (srtListeners w !! port) as [l|]; [| done].
    destruct (ListenerNode.node l); [apply Hk | done].
  - destruct (rtmpListeners w !! port) as [l|]; [| done].
    destruct (ListenerNode.node l); [apply Hk | done].
Qed.

Lemma prewarm_noExit currentSource : noExit (prewarm currentSource).
Proof.
  intros w k Hk. unfold prewarm, mbind, M_bind, get.
  destruct (playlist w !! (currentSource + 1)%nat) as [next'|]; [| apply Hk].
  destruct (isLive (PlaylistItem.source next')); [| apply Hk].
  apply createNode_noExit. intros a w'. by unfold await.
Qed.

Lemma update_noExit (w : World) :
  is_Some (playlist w !! sourceIndex w) → notExited (run update w).
Proof.
  intros [item Hitem]. unfold run. rewrite update_prefix.
  unfold advance, mbind, M_bind, get, modify.
  assert (Hp : playlist (prefix w) !! sourceIndex w = Some item).
  { unfold prefix. rewrite clearTimeouts_eq. exact Hitem. }
  rewrite Hp.
  match goal with |- notExited (match ?x with _ => _ end _ _) => destruct x end.
  - apply prewarm_noExit. by intros.
  - unfold startImmediately, mbind, M_bind. apply createNode_noExit.
    intros a w'. by unfold await.
Qed.

Lemma halted_settle kind o s :
  halted (settle kind o s) = match o with Exited _ => true | _ => halted s end.
Proof. by destruct o. Qed.

Lemma deliver_position a ans w r w' :
  deliver a ans w = Some (r, w') → sourceIndex w' = sourceIndex w.
Proof.
  destruct a, ans; simpl; intros; simplify_eq; reflexivity.
Qed.

Lemma settles_position (answers : list (nat * Answer)) (s s' : Sys) :
  poolKept samePosition s →
  dispatchAll (map (fun x => settles (fst x) (snd x)) answers) s = Some s' →
  sourceIndex (world s') = sourceIndex (world s).
Proof.
  revert s. induction answers as [|[i ans] answers IH]; intros s Hs; simpl.
  - by intros [= <-].
  - destruct (dispatch (settles i ans) s) as [s1|] eqn:Hd; simpl; [| done].
    intros H. rewrite (IH s1); [| | exact H].
    + revert Hd. unfold dispatch. destruct (halted s); [done |].
      destruct (tasks s !! i) as [t|] eqn:Ht; simpl; [| done].
      destruct (deliver (awaiting t) ans (world s)) as [[r w]|] eqn:Hdel; simpl; [| done].
      intros [= <-]. rewrite world_settle.
      pose proof (Forall_lookup_1 _ _ _ _ Hs Ht) as Hk. simpl in Hk.
      rewrite (guar_world samePosition _ _ (Hk r w)).
      by eapply deliver_position.
    + by eapply (dispatch_poolKept samePosition).
Qed.

(** C8.  Every call of [update] has added exactly one to [sourceIndex] by the
    time it first gives control back.  From a state of the running program
    in which the playlist still has an item at [sourceIndex], two calls of
    [switch] in a row leave [sourceIndex] two higher; and however the
    suspended calls are resumed afterwards, with whatever answers from the
    engine, it stays two higher. *)
Theorem C8_switch_twice (playlist' : list PlaylistItem.t) (transitionDuration' : option Z)
    (s : Sys) :
  reachable playlist' transitionDuration' s →
  halted s = false →
  is_Some (playlist (world s) !! sourceIndex (world s)) →
  (∀ w, sourceIndex (outcomeWorld (run update w)) = S (sourceIndex w)) ∧
  sourceIndex (world (switch s)) = (sourceIndex (world s) + 1)%nat ∧
  sourceIndex (world (switch (switch s))) = (sourceIndex (world s) + 2)%nat ∧
  ∀ (answers : list (nat * Answer)) (s' : Sys),
    dispatchAll (map (fun x => settles (fst x) (snd x)) answers) (switch (switch s)) = Some s' →
    sourceIndex (world s') = (sourceIndex (world s) + 2)%nat.
Proof.
  intros Hreach Hh Hitem.
  assert (H1 : sourceIndex (world (switch s)) = S (sourceIndex (world s))).
  { unfold switch, callUpdate. rewrite Hh, world_settle. apply update_position. }
  assert (Hh1 : halted (switch s) = false).
  { unfold switch, callUpdate. rewrite Hh, halted_settle.
    pose proof (update_noExit (world s) Hitem) as Hne.
    destruct (run update (world s)); simpl in *; done. }
  assert (H2 : sourceIndex (world (switch (switch s))) = S (S (sourceIndex (world s)))).
  { rewrite <- H1. unfold switch at 1. unfold callUpdate.
    rewrite Hh1, world_settle. apply update_position. }
  split; [apply update_position |].
  split; [lia |]. split; [lia |].
  intros answers s' Hs'.
  assert (Hr2 : reachable playlist' transitionDuration' (switch (switch s))).
  { eapply reachable_step; [eapply reachable_step; [exact Hreach |] |].
    - exists callSwitch. unfold dispatch. by rewrite Hh.
    - exists callSwitch. unfold dispatch. by rewrite Hh1. }
  rewrite (settles_position answers (switch (switch s)) s'); [lia | | exact Hs'].
  by eapply (reachable_poolKept samePosition).
Qed.

Lemma C8_switch_twice_witness :
  reachable tsThenRtp None (create tsThenRtp None) ∧
  halted (create tsThenRtp None) = false ∧
  is_Some (playlist (world (create tsThenRtp None))
             !! sourceIndex (world (create tsThenRtp None))) ∧
  sourceIndex (world (switch (switch (create tsThenRtp None)))) = 2%nat.
Proof.
  assert (Hr : reachable tsThenRtp None (create tsThenRtp None)) by constructor.
  assert (Hh : halted (create tsThenRtp None) = false) by reflexivity.
  assert (Hi : is_Some (playlist (world (create tsThenRtp None))
                          !! sourceIndex (world (create tsThenRtp None)))).
  { eexists. reflexivity. }
  split; [exact Hr |]. split; [exact Hh |]. split; [exact Hi |].
  exact (proj1 (proj2 (proj2 (C8_switch_twice tsThenRtp None _ Hr Hh Hi)))).
Defined.

(** * Timers *)

(** Timer identifiers are handed out in increasing order, no two pending
    timers share one, and every pending duration timer is in
    [this.timeouts]. *)
Definition timersOk (w : World) : Prop :=
  (∀ t, t ∈ timers w → (timerId t < nextTimer w)%nat) ∧
  NoDup (map timerId (timers w)) ∧
  (∀ t, t ∈ timers w → isDurationTimer t = true → timerId t ∈ timeouts w).

(** What a stretch of the program may do to the timers: cancel some, set new
    ones under fresh identifiers, and, if it moved the playlist position,
    leave no duration timer pending that was set before it. *)
Definition timersStep (w w' : World) : Prop :=
  timersOk w →
  timersOk w' ∧
  (nextTimer w ≤ nextTimer w')%nat ∧
  (sourceIndex w ≤ sourceIndex w')%nat ∧
  (∀ t, t ∈ timers w' → t ∈ timers w ∨ (nextTimer w ≤ timerId t)%nat) ∧
  ((sourceIndex w < sourceIndex w')%nat →
   ∀ t, t ∈ timers w' → isDurationTimer t = true → (nextTimer w ≤ timerId t)%nat).

Lemma timersStep_refl w : timersStep w w.
Proof. intros H. repeat split; auto; try lia; apply H. Qed.

Lemma timersStep_trans a b c : timersStep a b → timersStep b c → timersStep a c.
Proof.
  intros Hab Hbc Ha.
  destruct (Hab Ha) as (Hb & Hn1 & Hs1 & Hin1 & Hd1).
  destruct (Hbc Hb) as (Hc & Hn2 & Hs2 & Hin2 & Hd2).
  split; [exact Hc |]. split; [lia |]. split; [lia |]. split.
  - intros t Ht. destruct (Hin2 t Ht) as [Ht' | Ht']; [| right; lia].
    destruct (Hin1 t Ht') as [? | ?]; [by left | right; lia].
  - intros Hlt t Ht Hdur.
    destruct (decide (sourceIndex b < sourceIndex c)%nat) as [Hbc' | Hbc'].
    + specialize (Hd2 Hbc' t Ht Hdur). lia.
    + assert (Hab' : (sourceIndex a < sourceIndex b)%nat) by lia.
      destruct (Hin2 t Ht) as [Ht' | Ht']; [| lia].
      by apply (Hd1 Hab' t Ht' Hdur).
Qed.

(** The three shapes of a step. *)
Lemma timersStep_silent w w' :
  timers w' = timers w → timeouts w' = timeouts w → nextTimer w' = nextTimer w →
  sourceIndex w' = sourceIndex w → timersStep w w'.
Proof.
  intros Ht Hto Hn Hs (Hlt & Hnd & Hdur). unfold timersOk.
  rewrite Ht, Hto, Hn, Hs. repeat split; auto; try lia.
Qed.

Lemma NoDup_map_filter {A B} (f : A -> B) (p : A -> bool) (l : list A) :
  NoDup (map f l) → NoDup (map f (List.filter p l)).
Proof.
  induction l as [|x l IH]; simpl; [done |].
  rewrite NoDup_cons. intros [Hx Hl]. destruct (p x); simpl; auto.
  rewrite NoDup_cons. split; auto.
  intros Hin. apply Hx. apply list_elem_of_fmap in Hin as (y & -> & Hy).
  apply list_elem_of_fmap. exists y. split; [done |].
  apply list_elem_of_In, filter_In in Hy. apply list_elem_of_In, Hy.
Qed.

Lemma timersStep_filter (p : Timer -> bool) w w' :
  timers w' = List.filter p (timers w) → timeouts w' = timeouts w →
  nextTimer w' = nextTimer w → sourceIndex w' = sourceIndex w → timersStep w w'.
Proof.
  intros Ht Hto Hn Hs (Hlt & Hnd & Hdur). unfold timersOk.
  rewrite Ht, Hto, Hn, Hs.
  assert (Hsub : ∀ t, t ∈ List.filter p (timers w) → t ∈ timers w).
  { intros t Hin. apply list_elem_of_In, filter_In in Hin. apply list_elem_of_In, Hin. }
  repeat split; auto; try lia.
  by apply NoDup_map_filter.
Qed.

Lemma timersStep_append cb ms w w' :
  timers w' = timers w ++ [mkTimer (nextTimer w) ms cb] →
  (∀ i, i ∈ timeouts w → i ∈ timeouts w') →
  (isDurationTimer (mkTimer (nextTimer w) ms cb) = true → nextTimer w ∈ timeouts w') →
  nextTimer w' = S (nextTimer w) → sourceIndex w' = sourceIndex w → timersStep w w'.
Proof.
  intros Ht Hto Hnew Hn Hs (Hlt & Hnd & Hdur). unfold timersOk.
  rewrite Ht, Hn, Hs. repeat split; try lia.
  - intros t Hin. apply elem_of_app in Hin as [Hin | Hin].
    + specialize (Hlt t Hin). lia.
    + apply list_elem_of_singleton in Hin as ->. simpl. lia.
  - rewrite map_app. simpl. apply NoDup_app. split; [done |]. split.
    + intros i Hi Hi'. apply list_elem_of_singleton in Hi' as ->.
      apply list_elem_of_fmap in Hi as (t & Heq & Hin).
      specialize (Hlt t Hin). lia.
    + apply NoDup_singleton.
  - intros t Hin Hd. apply elem_of_app in Hin as [Hin | Hin].
    + apply Hto. by apply Hdur.
    + apply list_elem_of_singleton in Hin as ->. by apply Hnew.
  - intros t Hin. apply elem_of_app in Hin as [Hin | Hin]; [by left | right].
    apply list_elem_of_singleton in Hin as ->. simpl. lia.
Qed.

Lemma timersStep_prefix w : timersStep w (prefix w).
Proof.
  intros (Hlt & Hnd & Hdur). unfold prefix. rewrite clearTimeouts_eq. simpl.
  assert (Hsub : ∀ t, t ∈ List.filter (fun t => negb (cancelled (timeouts w) t)) (timers w) →
                      t ∈ timers w ∧ cancelled (timeouts w) t = false).
  { intros t Hin. apply list_elem_of_In, filter_In in Hin as [Hin Hc].
    split; [by apply list_elem_of_In | by apply negb_true_iff]. }
  assert (Hnodur : ∀ t, t ∈ List.filter (fun t => negb (cancelled (timeouts w) t)) (timers w) →
                        isDurationTimer t = true → False).
  { intros t Hin Hd. destruct (Hsub t Hin) as [Hin' Hc].
    specialize (Hdur t Hin' Hd).
    assert (cancelled (timeouts w) t = true); [| congruence].
    unfold cancelled. apply existsb_exists. exists (timerId t).
    split; [by apply list_elem_of_In | apply Nat.eqb_refl]. }
  unfold timersOk. simpl. repeat split; try lia.
  - intros t Hin. apply Hlt, Hsub, Hin.
  - by apply NoDup_map_filter.
  - intros t Hin Hd. destruct (Hnodur t Hin Hd).
  - intros t Hin. left. apply Hsub, Hin.
  - intros _ t Hin Hd. destruct (Hnodur t Hin Hd).
Qed.

Lemma timersStep_refreshActive w : timersStep w (refreshActive w).
Proof.
  unfold refreshActive, activateSource.
  repeat case_match; try apply timersStep_refl;
    eapply timersStep_append; simpl; try reflexivity; auto; discriminate.
Qed.

Ltac solve_timersStep :=
  intros;
  first
    [ apply timersStep_refl
    | apply timersStep_silent; unfold_ops; repeat case_match; reflexivity
    | eapply timersStep_filter; unfold_ops; simpl; reflexivity
    | eapply timersStep_append; unfold_ops; simpl; try reflexivity; auto; discriminate ].

Lemma timersStep_scheduleAdvance c w : timersStep w (scheduleAdvance c w).
Proof.
  unfold scheduleAdvance.
  destruct (truthyZ _); [| apply timersStep_refl].
  destruct (deref w (current (playingItems w)) ≫= PlayingItem.duration);
    [| apply timersStep_refl].
  eapply timersStep_append; simpl; try reflexivity.
  - intros i Hi. apply elem_of_app. by left.
  - intros _. apply elem_of_app. right. by apply list_elem_of_singleton.
Qed.

Lemma timersStep_usePrestarted n w : timersStep w (usePrestarted n w).
Proof.
  unfold usePrestarted.
  eapply timersStep_trans; [| apply timersStep_refreshActive].
  by apply timersStep_silent.
Qed.

Lemma timersStep_runSelector sel streams w : timersStep w (snd (runSelector sel streams w)).
Proof.
  destruct sel; simpl; [| apply timersStep_refl].
  eapply timersStep_trans; [| apply timersStep_refreshActive].
  by apply timersStep_silent.
Qed.

Lemma timersStep_closeNode c w : timersStep w (closeNode c w).
Proof.
  unfold closeNode. destruct (isStandaloneNode c); [| apply timersStep_refl].
  eapply timersStep_append; simpl; try reflexivity; auto; discriminate.
Qed.

Lemma timersStep_deliver a ans w r w' : deliver a ans w = Some (r, w') → timersStep w w'.
Proof.
  destruct a, ans; simpl; intros; simplify_eq;
    first [apply timersStep_refl | by apply timersStep_silent].
Qed.

Lemma timersOk_new playlist transitionDuration :
  timersOk (newPlaylist playlist transitionDuration).
Proof.
  unfold timersOk. simpl. repeat split.
  - intros t Ht. inversion Ht.
  - constructor.
  - intros t Ht. inversion Ht.
Qed.

#[export] Instance timersStep_step : StepRel timersStep.
Proof. split; [apply timersStep_refl | apply timersStep_trans]. Qed.

#[export] Instance timersStep_precreate : PrecreateKeeps timersStep.
Proof. split; [apply _ |]. solve_timersStep. Qed.

#[export] Instance timersStep_update : UpdateKeeps timersStep.
Proof.
  split.
  - apply _.
  - solve_timersStep.
  - solve_timersStep.
  - solve_timersStep.
  - apply timersStep_scheduleAdvance.
  - solve_timersStep.
  - intros. apply timersStep_usePrestarted.
Qed.

#[export] Instance timersStep_events : EventsKeep timersStep.
Proof.
  split.
  - apply _.
  - apply timersStep_prefix.
  - apply timersStep_closeNode.
  - solve_timersStep.
  - apply timersStep_runSelector.
  - solve_timersStep.
  - solve_timersStep.
  - solve_timersStep.
  - solve_timersStep.
  - apply timersStep_deliver.
Qed.

Lemma timersStep_dispatch playlist transitionDuration s ev s' :
  reachable playlist transitionDuration s →
  dispatch ev s = Some s' → timersStep (world s) (world s').
Proof.
  intros Hr Hd. eapply (dispatch_R timersStep); [exact Hd |].
  by eapply (reachable_poolKept timersStep).
Qed.

Lemma timersOk_reachable playlist transitionDuration s :
  reachable playlist transitionDuration s → timersOk (world s).
Proof.
  intros Hr. apply (reachable_R timersStep) in Hr.
  apply Hr, timersOk_new.
Qed.

Lemma NoDup_map_inj {A B} (f : A -> B) (l : list A) x y :
  NoDup (map f l) → x ∈ l → y ∈ l → f x = f y → x = y.
Proof.
  induction l as [|a l IH]; simpl; [by intros _ Hx; inversion Hx |].
  rewrite NoDup_cons. intros [Ha Hl] Hx Hy Hf.
  apply elem_of_cons in Hx as [-> | Hx]; apply elem_of_cons in Hy as [-> | Hy]; auto.
  - exfalso. apply Ha. rewrite Hf. by apply list_elem_of_fmap_2.
  - exfalso. apply Ha. rewrite <- Hf. by apply list_elem_of_fmap_2.
Qed.

(** A timer identifier that is used up: below [nextTimer], and not pending. *)
Definition spent (i : nat) (w : World) : Prop :=
  (i < nextTimer w)%nat ∧ ∀ t, t ∈ timers w → timerId t ≠ i.

Lemma spent_step i w w' : timersOk w → timersStep w w' → spent i w → spent i w'.
Proof.
  intros Hok Hstep [Hlt Hno]. destruct (Hstep Hok) as (_ & Hn & _ & Hin & _).
  split; [lia |]. intros t Ht.
  destruct (Hin t Ht) as [Ht' | Ht']; [by apply Hno | lia].
Qed.

Lemma spent_findTimer i w : spent i w → findTimer i w = None.
Proof.
  intros [_ Hno]. unfold findTimer.
  destruct (List.find _ (timers w)) as [x|] eqn:Hx; [| done].
  apply find_some in Hx as [Hin Heq].
  apply Nat.eqb_eq in Heq. destruct (Hno x); [by apply list_elem_of_In | done].
Qed.

Lemma spent_dispatchAll playlist transitionDuration evs s s' i :
  reachable playlist transitionDuration s →
  dispatchAll evs s = Some s' → spent i (world s) → spent i (world s').
Proof.
  revert s. induction evs as [|ev evs IH]; intros s Hr; simpl.
  - by intros [= <-].
  - destruct (dispatch ev s) as [s1|] eqn:Hd; simpl; [| done].
    intros H Hsp. eapply (IH s1); [| exact H |].
    + eapply reachable_step; [exact Hr | by exists ev].
    + eapply spent_step; [| | exact Hsp].
      * by eapply timersOk_reachable.
      * by eapply timersStep_dispatch.
Qed.

Definition threeFiles : list PlaylistItem.t :=
  [tsItem (Some 5000%Z); tsItem None; tsItem None].

(** The claim that after an advance no timer set for the outgoing item can
    fire fails when calls of [update] overlap: [switch] is called while the
    node of [start] is still being created; the call made by [start] then
    goes on and sets the timer of item 0, at a time when the position has
    moved past item 0 already; that timer fires and moves it again. *)
Lemma C9_counterexample :
  let s0 := create threeFiles None in
  let s1 := after [callStart] s0 in
  let s2 := after [callStart; callSwitch] s0 in
  let s3 := after [callStart; callSwitch; settles 0 ok; settles 1 ok] s0 in
  let s4 := after [callStart; callSwitch; settles 0 ok; settles 1 ok; fires 0] s0 in
  possible [callStart; callSwitch; settles 0 ok; settles 1 ok; fires 0] s0 = true ∧
  sourceIndex (world s1) = 1%nat ∧
  sourceIndex (world s2) = 2%nat ∧
  timers (world s2) = [] ∧
  sourceIndex (world s3) = 2%nat ∧
  timers (world s3) = [mkTimer 0 4700 (durationExpired 0)] ∧
  sourceIndex (world s4) = 3%nat.
Proof. repeat split; vm_compute; reflexivity. Qed.

(** C9, amended.  In every state of the running program: [update] first
    cancels ([clearTimeouts]) and only then moves [sourceIndex], and in the
    state in which it moves it no duration timer is pending; and when a turn
    of the event loop has moved [sourceIndex] (a manual switch, a timer, an
    end of file, a disconnect), no duration timer that was pending before
    that turn is pending in any later state, so none of them can fire. *)
Theorem C9_timers_cancelled_before_advance (playlist' : list PlaylistItem.t)
    (transitionDuration' : option Z) (s : Sys) :
  reachable playlist' transitionDuration' s →
  (∀ k, update (world s) k =
        advance (sourceIndex (world s))
          (set_sourceIndex (S (sourceIndex (world s))) (clearTimeouts (world s))) k) ∧
  sourceIndex (clearTimeouts (world s)) = sourceIndex (world s) ∧
  (∀ t, t ∈ timers (clearTimeouts (world s)) → isDurationTimer t = false) ∧
  ∀ ev s1,
    dispatch ev s = Some s1 →
    (sourceIndex (world s) < sourceIndex (world s1))%nat →
    ∀ t, t ∈ timers (world s) → isDurationTimer t = true →
      ∀ evs s2,
        dispatchAll evs s1 = Some s2 →
        findTimer (timerId t) (world s2) = None ∧
        dispatch (fires (timerId t)) s2 = None.
Proof.
  intros Hr. pose proof (timersOk_reachable _ _ _ Hr) as Hok.
  split; [intros k; apply update_prefix |].
  split; [by rewrite clearTimeouts_eq |].
  split.
  - intros t Ht. destruct (isDurationTimer t) eqn:Hd; [| done]. exfalso.
    destruct (timersStep_prefix (world s) Hok) as ((Hid & _ & _) & _ & _ & _ & Hnew).
    assert (Ht' : t ∈ timers (prefix (world s))) by exact Ht.
    assert (Hlt : (sourceIndex (world s) < sourceIndex (prefix (world s)))%nat).
    { unfold prefix. simpl. lia. }
    specialize (Hnew Hlt t Ht' Hd). specialize (Hid t Ht').
    assert (nextTimer (prefix (world s)) = nextTimer (world s))
      by (unfold prefix; by rewrite clearTimeouts_eq).
    lia.
  - intros ev s1 Hd Hlt t Ht Hdur evs s2 Hevs.
    assert (Hr1 : reachable playlist' transitionDuration' s1).
    { eapply reachable_step; [exact Hr | by exists ev]. }
    assert (Hsp : spent (timerId t) (world s1)).
    { destruct (timersStep_dispatch _ _ _ _ _ Hr Hd Hok) as (_ & Hn & _ & Hin & Hnew).
      destruct Hok as (Hid & Hnd & _).
      pose proof (Hid t Ht) as Htid.
      split; [lia |].
      intros t' Ht' Heq.
      destruct (Hin t' Ht') as [Hold | Hfresh]; [| lia].
      assert (t' = t) as -> by (eapply NoDup_map_inj; eauto).
      specialize (Hnew Hlt t Ht' Hdur). lia. }
    assert (Hsp2 : spent (timerId t) (world s2)) by (by eapply spent_dispatchAll).
    split; [by apply spent_findTimer |].
    unfold dispatch. destruct (halted s2); [done |].
    by rewrite (spent_findTimer _ _ Hsp2).
Qed.

Lemma reachable_dispatchAll playlist transitionDuration evs s s' :
  reachable playlist transitionDuration s →
  dispatchAll evs s = Some s' → reachable playlist transitionDuration s'.
Proof.
  revert s. induction evs as [|ev evs IH]; intros s Hr; simpl.
  - by intros [= <-].
  - destruct (dispatch ev s) as [s1|] eqn:Hd; simpl; [| done].
    apply IH. eapply reachable_step; [exact Hr | by exists ev].
Qed.

Lemma reachable_after playlist transitionDuration evs :
  reachable playlist transitionDuration (after evs (create playlist transitionDuration)).
Proof.
  unfold after.
  destruct (dispatchAll evs (create playlist transitionDuration)) as [s'|] eqn:H; simpl.
  - eapply reachable_dispatchAll; [constructor | exact H].
  - constructor.
Qed.

(** A 100 ms file, started: its duration timer is pending. *)
Definition shortFileStarted : Sys :=
  after [callStart; settles 0 ok; settles 0 ok] (create [tsItem (Some 100%Z)] None).

Lemma C9_timers_cancelled_before_advance_witness :
  reachable [tsItem (Some 100%Z)] None shortFileStarted ∧
  timers (world shortFileStarted) = [mkTimer 0 (-200) (durationExpired 0)] ∧
  ∀ t, t ∈ timers (clearTimeouts (world shortFileStarted)) → isDurationTimer t = false.
Proof.
  assert (Hr : reachable [tsItem (Some 100%Z)] None shortFileStarted)
    by apply reachable_after.
  split; [exact Hr |]. split; [vm_compute; reflexivity |].
  exact (proj1 (proj2 (proj2
           (C9_timers_cancelled_before_advance [tsItem (Some 100%Z)] None _ Hr)))).
Defined.

(** * The slots *)

(** Objects on the heap are never removed, and their [item] and [index] are
    never written. *)
Definition heapKeeps (h h' : list PlayingItem.t) : Prop :=
  ∀ r x, h !! r = Some x →
         ∃ x', h' !! r = Some x' ∧
               PlayingItem.item x' = PlayingItem.item x ∧
               PlayingItem.index x' = PlayingItem.index x.

Lemma heapKeeps_refl h : heapKeeps h h.
Proof. intros r x Hx. eauto. Qed.

Lemma heapKeeps_trans h1 h2 h3 : heapKeeps h1 h2 → heapKeeps h2 h3 → heapKeeps h1 h3.
Proof.
  intros H12 H23 r x Hx.
  destruct (H12 r x Hx) as (x' & Hx' & Hi & Hj).
  destruct (H23 r x' Hx') as (x'' & Hx'' & Hi' & Hj').
  exists x''. repeat split; congruence.
Qed.

Lemma heapKeeps_app h l : heapKeeps h (h ++ l).
Proof. intros r x Hx. exists x. split; [by apply lookup_app_l_Some | done]. Qed.

Lemma heapKeeps_alter (f : PlayingItem.t -> PlayingItem.t) i h :
  (∀ x, PlayingItem.item (f x) = PlayingItem.item x ∧
        PlayingItem.index (f x) = PlayingItem.index x) →
  heapKeeps h (alter f i h).
Proof.
  intros Hf r x Hx. rewrite list_lookup_alter. destruct (decide (i = r)) as [-> |].
  - rewrite Hx. simpl. exists (f x). split; [done | apply Hf].
  - exists x. done.
Qed.

(** What the callbacks other than [update] may do: they leave the playlist,
    the position and the [current] and [next] slots alone. *)
Definition frame (w w' : World) : Prop :=
  playlist w' = playlist w ∧
  sourceIndex w' = sourceIndex w ∧
  current (playingItems w') = current (playingItems w) ∧
  next (playingItems w') = next (playingItems w) ∧
  heapKeeps (heap w) (heap w').

Lemma frame_refl w : frame w w.
Proof. unfold frame. auto using heapKeeps_refl. Qed.

Lemma frame_trans a b c : frame a b → frame b c → frame a c.
Proof.
  unfold frame. intros (? & ? & ? & ? & ?) (? & ? & ? & ? & ?).
  repeat split; try congruence. by eapply heapKeeps_trans.
Qed.

Ltac solve_frame :=
  intros; unfold frame; unfold_ops; repeat case_match; simpl;
  repeat split;
  first [ reflexivity | apply heapKeeps_refl | (apply heapKeeps_alter; by intros []) ].

Lemma frame_refreshActive w : frame w (refreshActive w).
Proof. solve_frame. Qed.

Lemma frame_set_listeners proto m w : frame w (set_listeners proto m w).
Proof. solve_frame. Qed.

Lemma frame_setDurationAndClose r d c w : frame w (setDurationAndClose r d c w).
Proof. solve_frame. Qed.

Lemma frame_scheduleAdvance c w : frame w (scheduleAdvance c w).
Proof. solve_frame. Qed.

Lemma frame_set_prev x w : frame w (set_playingItems (set_prev x (playingItems w)) w).
Proof. solve_frame. Qed.

Lemma frame_closeNode c w : frame w (closeNode c w).
Proof. solve_frame. Qed.

Lemma frame_onClose node w : frame w (onClose node w).
Proof. solve_frame. Qed.

Lemma frame_runSelector sel streams w : frame w (snd (runSelector sel streams w)).
Proof.
  destruct sel; simpl; [| apply frame_refl].
  eapply frame_trans; [| apply frame_refreshActive]. solve_frame.
Qed.

Lemma frame_clearTimeout t w : frame w (clearTimeout t w).
Proof. solve_frame. Qed.

Lemma frame_setTimeout cb ms w : frame w (snd (setTimeout cb ms w)).
Proof. solve_frame. Qed.

Lemma frame_closed node w : frame w (set_closed (closed w ++ [node]) w).
Proof. solve_frame. Qed.

Lemma frame_switched pin w : frame w (set_switched (switched w ++ [pin]) w).
Proof. solve_frame. Qed.

Lemma frame_deliver a ans w r w' : deliver a ans w = Some (r, w') → frame w w'.
Proof. destruct a, ans; simpl; intros; simplify_eq; solve_frame. Qed.

#[export] Instance frame_step : StepRel frame.
Proof. split; [apply frame_refl | apply frame_trans]. Qed.

#[export] Instance frame_precreate : PrecreateKeeps frame.
Proof. split; [apply _ | apply frame_set_listeners]. Qed.

(** ** A populated [next] slot holds a live item *)

Definition liveNext (w : World) : Prop :=
  ∀ n, next (playingItems w) = Some n →
       ∃ x, heap w !! n = Some x ∧ isLive (PlaylistItem.source (PlayingItem.item x)) = true.

Definition liveStep (w w' : World) : Prop := liveNext w → liveNext w'.

Lemma liveStep_frame w w' :
  next (playingItems w') = next (playingItems w) → heapKeeps (heap w) (heap w') →
  liveStep w w'.
Proof.
  intros Hn Hh Hlive n Hn'. rewrite Hn in Hn'.
  destruct (Hlive n Hn') as (x & Hx & Hl).
  destruct (Hh n x Hx) as (x' & Hx' & Hi & _).
  exists x'. split; [done | by rewrite Hi].
Qed.

Lemma frame_liveStep w w' : frame w w' → liveStep w w'.
Proof. intros (_ & _ & _ & Hn & Hh). by apply liveStep_frame. Qed.

Lemma liveStep_subscribe_current i ci w : liveStep w (subscribeToNode i currentSlot ci w).
Proof. apply liveStep_frame; [reflexivity |]. simpl. apply heapKeeps_app. Qed.

Lemma liveStep_subscribe_next i ci w :
  isLive (PlaylistItem.source (ci_item ci)) = true →
  liveStep w (subscribeToNode i nextSlot ci w).
Proof.
  intros Hlive _ n Hn. simpl in Hn. simplify_eq.
  eexists. split; [apply subscribeToNode_heap | exact Hlive].
Qed.

Lemma liveStep_usePrestarted n w : liveStep w (usePrestarted n w).
Proof.
  intros _ m Hm. unfold usePrestarted in Hm.
  destruct (frame_refreshActive
              (set_playingItems (mkSlots (prev (playingItems w)) (Some n) None) w))
    as (_ & _ & _ & Hn & _).
  rewrite Hn in Hm. discriminate Hm.
Qed.

Lemma liveStep_prefix w : liveStep w (prefix w).
Proof.
  unfold prefix. rewrite clearTimeouts_eq.
  apply liveStep_frame; [reflexivity | apply heapKeeps_refl].
Qed.

#[export] Instance liveStep_step : StepRel liveStep.
Proof. split; unfold liveStep; auto. Qed.

#[export] Instance liveStep_precreate : PrecreateKeeps liveStep.
Proof. split; [apply _ |]. intros. apply frame_liveStep, frame_set_listeners. Qed.

#[export] Instance liveStep_update : UpdateKeeps liveStep.
Proof.
  split.
  - apply _.
  - apply liveStep_subscribe_current.
  - apply liveStep_subscribe_next.
  - intros. apply frame_liveStep, frame_setDurationAndClose.
  - intros. apply frame_liveStep, frame_scheduleAdvance.
  - intros. apply frame_liveStep, frame_set_prev.
  - intros. apply liveStep_usePrestarted.
Qed.

#[export] Instance liveStep_events : EventsKeep liveStep.
Proof.
  split.
  - apply _.
  - apply liveStep_prefix.
  - intros. apply frame_liveStep, frame_closeNode.
  - intros. apply frame_liveStep, frame_onClose.
  - intros. apply frame_liveStep, frame_runSelector.
  - intros. apply frame_liveStep, frame_clearTimeout.
  - intros. apply frame_liveStep, frame_setTimeout.
  - intros. apply frame_liveStep, frame_closed.
  - intros. apply frame_liveStep, frame_switched.
  - intros. by eapply frame_liveStep, frame_deliver.
Qed.

Lemma liveNext_reachable playlist transitionDuration s :
  reachable playlist transitionDuration s → liveNext (world s).
Proof.
  intros Hr. apply (reachable_R liveStep) in Hr. apply Hr.
  intros n Hn. discriminate Hn.
Qed.

(** ** [next] follows [current], while calls of [update] do not overlap *)

Definition idx (w : World) (r : nat) : option nat := PlayingItem.index <$> heap w !! r.

(** Between two calls of [update]: a populated [next] holds the item at
    [sourceIndex], and [current] then holds the one before it. *)
Definition quiet (w : World) : Prop :=
  ∀ n, next (playingItems w) = Some n →
       idx w n = Some (sourceIndex w) ∧
       ∀ r, current (playingItems w) = Some r →
            ∃ i, idx w r = Some i ∧ S i = sourceIndex w.

Definition consecutive (w : World) : Prop :=
  ∀ r n, current (playingItems w) = Some r → next (playingItems w) = Some n →
         ∃ i, idx w r = Some i ∧ idx w n = Some (S i).

Lemma quiet_consecutive w : quiet w → consecutive w.
Proof.
  intros Hq r n Hr Hn. destruct (Hq n Hn) as [Hi Hc].
  destruct (Hc r Hr) as (i & Hir & Hs). exists i. split; [done |]. by rewrite Hs.
Qed.

Lemma idx_frame w w' r i : frame w w' → idx w r = Some i → idx w' r = Some i.
Proof.
  intros (_ & _ & _ & _ & Hh). unfold idx. intros Hi.
  destruct (heap w !! r) as [x|] eqn:Hx; [| done]. simpl in Hi.
  destruct (Hh r x Hx) as (x' & -> & _ & Hj). simpl. congruence.
Qed.

Lemma quiet_frame w w' : quiet w → frame w w' → quiet w'.
Proof.
  intros Hq Hf n Hn. pose proof Hf as (_ & Hs & Hc & Hn' & _).
  rewrite Hn' in Hn. destruct (Hq n Hn) as [Hi Hcur]. rewrite Hs. split.
  - by eapply idx_frame.
  - intros r Hr. rewrite Hc in Hr. destruct (Hcur r Hr) as (i & Hi' & Hsi).
    exists i. split; [by eapply idx_frame | done].
Qed.

Lemma consecutive_frame w w' : consecutive w → frame w w' → consecutive w'.
Proof.
  intros Hq Hf r n Hr Hn. pose proof Hf as (_ & _ & Hc & Hn' & _).
  rewrite Hc in Hr. rewrite Hn' in Hn. destruct (Hq r n Hr Hn) as (i & Hi & Hj).
  exists i. split; by eapply idx_frame.
Qed.

(** A condition a suspended call of [update] may rely on: it implies [quiet]
    and no callback other than [update] can break it. *)
Definition Good (P : World -> Prop) : Prop :=
  (∀ w, P w → quiet w) ∧ (∀ w w', P w → frame w w' → P w').

Inductive safe : Outcome -> Prop :=
| safe_Finished w : quiet w → safe (Finished w)
| safe_Rejected w e : quiet w → safe (Rejected w e)
| safe_Exited w : consecutive w → safe (Exited w)
| safe_Suspended w a k (P : World -> Prop) :
    Good P → P w → (∀ r w', P w' → safe (k r w')) → safe (Suspended w a k).

Definition triple {A} (Pre : World -> Prop) (m : M A) (Post : A -> World -> Prop) : Prop :=
  ∀ k, (∀ a w, Post a w → safe (k a w)) → ∀ w, Pre w → safe (m w k).

Lemma triple_bind {A B} Pre Mid Post (m : M A) (f : A -> M B) :
  triple Pre m Mid → (∀ a, triple (Mid a) (f a) Post) → triple Pre (m ≫= f) Post.
Proof.
  intros Hm Hf k Hk w Hw. unfold mbind, M_bind.
  apply (Hm _ (fun a w' H => Hf a k Hk w' H) w Hw).
Qed.

Lemma triple_consequence {A} (Pre Pre' : World -> Prop) (Post Post' : A -> World -> Prop) m :
  triple Pre' m Post' → (∀ w, Pre w → Pre' w) → (∀ a w, Post' a w → Post a w) →
  triple Pre m Post.
Proof. intros Hm Hpre Hpost k Hk w Hw. apply Hm; auto. Qed.

Lemma triple_ret {A} (a : A) (P : World -> Prop) : triple P (mret a) (fun _ => P).
Proof. intros k Hk w Hw. by apply Hk. Qed.

Lemma triple_get (P : World -> Prop) : triple P get (fun a w => a = w ∧ P w).
Proof. intros k Hk w Hw. by apply Hk. Qed.

Lemma triple_modify (P Q : World -> Prop) f :
  (∀ w, P w → Q (f w)) → triple P (modify f) (fun _ => Q).
Proof. intros Hf k Hk w Hw. apply Hk. by apply Hf. Qed.

Lemma triple_throw {A} (P : World -> Prop) e (Post : A -> World -> Prop) :
  (∀ w, P w → quiet w) → triple P (throw e) Post.
Proof. intros HP k Hk w Hw. constructor. by apply HP. Qed.

Lemma triple_exit {A} (P : World -> Prop) (Post : A -> World -> Prop) :
  (∀ w, P w → consecutive w) → triple P exit Post.
Proof. intros HP k Hk w Hw. constructor. by apply HP. Qed.

Lemma triple_await (P : World -> Prop) a : Good P → triple P (await a) (fun _ => P).
Proof.
  intros HP k Hk w Hw. apply safe_Suspended with (P := P); [done | done |].
  intros r w' Hw'. by apply Hk.
Qed.

(** The conditions that hold while a call [update] made with
    [currentSource = c] is under way. *)
Definition starting (c : nat) (w : World) : Prop :=
  sourceIndex w = S c ∧ next (playingItems w) = None.

Definition withCurrent (c : nat) (w : World) : Prop :=
  sourceIndex w = S c ∧ next (playingItems w) = None ∧
  ∀ r, current (playingItems w) = Some r → idx w r = Some c.

Definition withBoth (c : nat) (w : World) : Prop :=
  sourceIndex w = S c ∧
  (∀ n, next (playingItems w) = Some n → idx w n = Some (S c)) ∧
  ∀ r, current (playingItems w) = Some r → idx w r = Some c.

Lemma withCurrent_withBoth c w : withCurrent c w → withBoth c w.
Proof. intros (Hs & Hn & Hc). split; [done |]. split; [| done]. intros n. by rewrite Hn. Qed.

Lemma Good_starting c : Good (starting c).
Proof.
  split.
  - intros w [_ Hn] n. by rewrite Hn.
  - intros w w' [Hs Hn] (_ & Hs' & _ & Hn' & _). split; congruence.
Qed.

Lemma Good_withBoth c : Good (withBoth c).
Proof.
  split.
  - intros w (Hs & Hn & Hc) n Hn'. rewrite Hs. split; [by apply Hn |].
    intros r Hr. exists c. split; [by apply Hc | done].
  - intros w w' (Hs & Hn & Hc) Hf. pose proof Hf as (_ & Hs' & Hc' & Hn' & _).
    split; [congruence |]. split.
    + intros n Hn''. rewrite Hn' in Hn''. eapply idx_frame; eauto.
    + intros r Hr. rewrite Hc' in Hr. eapply idx_frame; eauto.
Qed.

Lemma Good_withCurrent c : Good (withCurrent c).
Proof.
  split.
  - intros w Hw. by apply (proj1 (Good_withBoth c)), withCurrent_withBoth.
  - intros w w' (Hs & Hn & Hc) Hf. pose proof Hf as (_ & Hs' & Hc' & Hn' & _).
    split; [congruence |]. split; [congruence |].
    intros r Hr. rewrite Hc' in Hr. eapply idx_frame; eauto.
Qed.

Lemma idx_subscribe i slot ci w :
  idx (subscribeToNode i slot ci w) (length (heap w)) = Some i.
Proof. unfold idx. by rewrite subscribeToNode_heap. Qed.

Lemma subscribe_current_withCurrent c ci w :
  starting c w → withCurrent c (subscribeToNode c currentSlot ci w).
Proof.
  intros [Hs Hn]. split; [done |]. split; [done |].
  intros r Hr. simpl in Hr. simplify_eq. apply idx_subscribe.
Qed.

Lemma subscribe_next_withBoth c ci w :
  withCurrent c w → withBoth c (subscribeToNode (c + 1) nextSlot ci w).
Proof.
  intros (Hs & Hn & Hc). split; [done |]. split.
  - intros n Hn'. simpl in Hn'. simplify_eq.
    rewrite idx_subscribe. f_equal. lia.
  - intros r Hr. simpl in Hr. specialize (Hc r Hr).
    unfold idx in *. simpl.
    destruct (heap w !! r) as [x|] eqn:Hx; [| done].
    by rewrite (lookup_app_l_Some _ _ _ _ Hx).
Qed.

Lemma createNode_triple (Pre Post : World -> Prop) item currentSource subscribeNode :
  Good Pre →
  (∀ ci w, Pre w → Post (subscribeNode ci w)) →
  triple Pre (createNode item currentSource subscribeNode) (fun _ => Post).
Proof.
  intros HG Hsub k Hk w Hw. unfold createNode.
  assert (Hstand : ∀ nodeId promise,
            safe (createStandalone item nodeId subscribeNode promise w k)).
  { intros nodeId promise.
    unfold createStandalone, mbind, M_bind, await, modify, mret, M_ret, throw.
    apply safe_Suspended with (P := Pre); [done | done |].
    intros r w' Hw'. destruct r; try (constructor; by apply HG).
    apply Hk. by apply Hsub. }
  destruct (PlaylistItem.source item) as [| |[] ? port|port ? ?| | |]; try apply Hstand.
  - unfold mbind, M_bind, get, modify, mret, M_ret, throw.
    destruct (srtListeners w !! port) as [l|]; [| constructor; by apply HG].
    destruct (ListenerNode.node l) as [node|]; [| constructor; by apply HG].
    apply Hk, Hsub. eapply (proj2 HG); [exact Hw |]. apply (frame_set_listeners SRT).
  - unfold mbind, M_bind, get, modify, mret, M_ret, throw.
    destruct (rtmpListeners w !! port) as [l|]; [| constructor; by apply HG].
    destruct (ListenerNode.node l) as [node|]; [| constructor; by apply HG].
    apply Hk, Hsub. eapply (proj2 HG); [exact Hw |]. apply (frame_set_listeners RTMP).
Qed.

Lemma durationOf_triple (P : World -> Prop) item createInfo :
  Good P → triple P (durationOf item createInfo) (fun _ => P).
Proof.
  intros HG k Hk w Hw. unfold durationOf.
  destruct (truthyZ (PlaylistItem.duration item)); [by apply Hk |].
  unfold awaitDuration, mbind, M_bind, await, mret, M_ret, throw.
  destruct (cr_duration createInfo); apply safe_Suspended with (P := P); try done.
  - intros r w' Hw'. by apply Hk.
  - intros r w' Hw'. destruct r; try (constructor; by apply HG). by apply Hk.
Qed.

Lemma startImmediately_triple item c :
  triple (starting c) (startImmediately item c) (fun _ => withCurrent c).
Proof.
  unfold startImmediately.
  eapply triple_bind.
  { apply createNode_triple with (Post := withCurrent c); [apply Good_starting |].
    intros. by apply subscribe_current_withCurrent. }
  intros createInfo.
  eapply triple_bind; [apply triple_await, Good_withCurrent |]. intros ?.
  eapply triple_bind; [apply durationOf_triple, Good_withCurrent |]. intros duration.
  apply triple_modify. intros w Hw.
  destruct (current (playingItems w)); [| done].
  eapply (proj2 (Good_withCurrent c)); [exact Hw | apply frame_setDurationAndClose].
Qed.

Lemma prewarm_triple c : triple (withCurrent c) (prewarm c) (fun _ => withBoth c).
Proof.
  unfold prewarm.
  eapply triple_bind; [apply triple_get |]. intros w0.
  destruct (playlist w0 !! (c + 1)%nat) as [next'|].
  2:{ eapply triple_consequence; [apply triple_ret | |]; simpl.
      - intros w [_ Hw]. exact Hw.
      - intros _ w Hw. by apply withCurrent_withBoth. }
  destruct (isLive (PlaylistItem.source next')).
  2:{ eapply triple_consequence; [apply triple_ret | |]; simpl.
      - intros w [_ Hw]. exact Hw.
      - intros _ w Hw. by apply withCurrent_withBoth. }
  eapply triple_bind.
  { eapply triple_consequence with (Pre' := withCurrent c).
    - apply createNode_triple with (Post := withBoth c); [apply Good_withCurrent |].
      intros. by apply subscribe_next_withBoth.
    - intros w [_ Hw]. exact Hw.
    - intros a w Hw. exact Hw. }
  intros createInfo.
  eapply triple_bind; [apply triple_await, Good_withBoth |]. intros ?.
  eapply triple_bind; [apply durationOf_triple, Good_withBoth |]. intros duration.
  eapply triple_bind; [apply triple_get |]. intros w1.
  destruct (next (playingItems w1)).
  - apply triple_modify. intros w [_ Hw].
    eapply (proj2 (Good_withBoth c)); [exact Hw | apply frame_setDurationAndClose].
  - apply triple_throw. intros w [_ Hw]. by apply (proj1 (Good_withBoth c)).
Qed.

(** The state in which [advance c] is entered. *)
Definition advancing (c : nat) (w : World) : Prop :=
  sourceIndex w = S c ∧
  (∀ n, next (playingItems w) = Some n → idx w n = Some c) ∧
  consecutive w.

Lemma advance_triple c : triple (advancing c) (advance c) (fun _ => withBoth c).
Proof.
  unfold advance.
  eapply triple_bind; [apply triple_get |]. intros w0.
  destruct (playlist w0 !! c) as [item|].
  2:{ apply triple_exit. intros w [_ (_ & _ & Hc)]. exact Hc. }
  eapply triple_bind with (Mid := fun _ => advancing c).
  { apply triple_modify. intros w [_ (Hs & Hn & Hc)].
    split; [done |]. split; [done |].
    eapply consecutive_frame; [exact Hc | apply frame_set_prev]. }
  intros ?.
  eapply triple_bind; [apply triple_get |]. intros w1.
  eapply triple_bind with (Mid := fun _ => withCurrent c).
  { destruct (next (playingItems w1)) as [n|] eqn:Hnext.
    - apply triple_modify. intros w [Heq (Hs & Hn & Hc)]. subst w1.
      unfold usePrestarted.
      eapply (proj2 (Good_withCurrent c)); [| apply frame_refreshActive].
      split; [done |]. split; [done |].
      intros r Hr. simpl in Hr. simplify_eq. by apply Hn.
    - eapply triple_consequence; [apply startImmediately_triple | | done].
      intros w [Heq (Hs & _)]. subst w1. split; done. }
  intros ?.
  eapply triple_bind with (Mid := fun _ => withCurrent c).
  { apply triple_modify. intros w Hw.
    eapply (proj2 (Good_withCurrent c)); [exact Hw | apply frame_scheduleAdvance]. }
  intros ?. apply prewarm_triple.
Qed.

Lemma prefix_advancing w : quiet w → advancing (sourceIndex w) (prefix w).
Proof.
  intros Hq. unfold prefix. rewrite clearTimeouts_eq.
  split; [done |]. split.
  - intros n Hn. by apply (Hq n).
  - apply quiet_consecutive in Hq. exact Hq.
Qed.

Lemma update_safe w : quiet w → safe (run update w).
Proof.
  intros Hq. unfold run. rewrite update_prefix.
  apply (advance_triple (sourceIndex w)); [| by apply prefix_advancing].
  intros _ w' Hw'. constructor. by apply (proj1 (Good_withBoth (sourceIndex w))).
Qed.

(** *** The invariant of runs in which calls of [update] do not overlap *)

Lemma filter_delete_true {A} (p : A -> bool) (l : list A) i t t' :
  l !! i = Some t → p t = true → List.filter p l = [t'] →
  List.filter p (delete i l) = [].
Proof.
  revert i. induction l as [|a l IH]; intros i; [done |].
  destruct i as [|j]; simpl.
  - intros Heq Hp. simplify_eq. rewrite Hp. by intros [= _ ->].
  - intros Ht Hp. destruct (p a) eqn:Ha.
    + intros [= _ Hnil]. exfalso.
      assert (Hin : In t (List.filter p l)).
      { apply filter_In. split; [| done]. by eapply list_elem_of_In, list_elem_of_lookup_2. }
      rewrite Hnil in Hin. destruct Hin.
    + intros Hf. change (delete (S j) (a :: l)) with (a :: delete j l).
      simpl. rewrite ?Ha. by eapply IH.
Qed.

Lemma filter_delete_false {A} (p : A -> bool) (l : list A) i t :
  l !! i = Some t → p t = false → List.filter p (delete i l) = List.filter p l.
Proof.
  revert i. induction l as [|a l IH]; intros i; [done |].
  destruct i as [|j]; simpl.
  - intros Heq Hp. simplify_eq. by rewrite Hp.
  - intros Ht Hp. change (delete (S j) (a :: l)) with (a :: delete j l).
    simpl. by rewrite (IH j Ht Hp).
Qed.

Lemma existsb_false_filter {A} (p : A -> bool) (l : list A) :
  existsb p l = false → List.filter p l = [].
Proof.
  induction l as [|a l IH]; simpl; [done |].
  destruct (p a); simpl; [done | exact IH].
Qed.

Definition updateTasks (s : Sys) : list Task := List.filter isUpdate (tasks s).

(** The suspended calls of [precreateListeners] keep [frame]. *)
Definition othersFramed (s : Sys) : Prop :=
  Forall (fun t => isUpdate t = false → ∀ r w, guar frame w (resume t r w)) (tasks s).

(** Either no call of [update] is under way and the state is [quiet], or one
    is, suspended under a condition that holds and that it can rely on. *)
Definition oneUpdate (s : Sys) : Prop :=
  (updateTasks s = [] ∧ quiet (world s)) ∨
  ∃ t P, updateTasks s = [t] ∧ Good P ∧ P (world s) ∧ ∀ r w', P w' → safe (resume t r w').

Definition serial (s : Sys) : Prop :=
  overlapped s = false →
  consecutive (world s) ∧ (halted s = false → othersFramed s ∧ oneUpdate s).

Lemma oneUpdate_consecutive s : oneUpdate s → consecutive (world s).
Proof.
  intros [[_ Hq] | (t & P & _ & HG & HP & _)]; apply quiet_consecutive; [done |].
  by apply (proj1 HG).
Qed.

Lemma oneUpdate_frame s w' :
  oneUpdate s → frame (world s) w' →
  oneUpdate (mkSys w' (tasks s) (halted s) (overlapped s) (unhandled s)).
Proof.
  intros [[Hu Hq] | (t & P & Hu & HG & HP & Hk)] Hf.
  - left. split; [exact Hu | by eapply quiet_frame].
  - right. exists t, P. split; [exact Hu |]. split; [exact HG |].
    split; [by eapply (proj2 HG) | exact Hk].
Qed.

Lemma serial_sync f s : (∀ w, frame w (f w)) → serial s → serial (sync f s).
Proof.
  intros Hf Hs. unfold sync. destruct (halted s) eqn:Hh; [done |].
  intros Ho. destruct (Hs Ho) as [Hc Hrest]. split.
  - by eapply consecutive_frame.
  - intros _. destruct (Hrest Hh) as [Hothers Hone]. split; [done |].
    pose proof (oneUpdate_frame s (f (world s)) Hone (Hf _)) as H.
    by rewrite Hh in H.
Qed.

(** A call settled from a state with no call of [update] under way. *)
Lemma serial_settle_update o w0 ts (ov : bool) un :
  safe o →
  Forall (fun t => isUpdate t = false → ∀ r w, guar frame w (resume t r w)) ts →
  List.filter isUpdate ts = [] →
  serial (settle updateCall o (mkSys w0 ts false ov un)).
Proof.
  intros Hsafe Hothers Hnone Ho.
  destruct Hsafe as [w Hq | w e Hq | w Hc | w a k P HG HP Hk]; simpl in *.
  - split; [by apply quiet_consecutive |]. intros _. split; [done |]. by left.
  - split; [by apply quiet_consecutive |]. intros _. split; [done |]. by left.
  - split; [done | done].
  - split; [by apply quiet_consecutive, (proj1 HG) |]. intros _. split.
    + apply Forall_app. split; [done |]. by constructor.
    + right. exists (mkTask updateCall a k), P.
      unfold updateTasks. simpl. rewrite List.filter_app, Hnone. by simpl.
Qed.

Lemma serial_callUpdate s : serial s → serial (callUpdate s).
Proof.
  intros Hs. unfold callUpdate. destruct (halted s) eqn:Hh; [done |].
  destruct (overlapped s || existsb isUpdate (tasks s)) eqn:Hov.
  - intros Ho. exfalso. revert Ho.
    destruct (run update (world s)); simpl; congruence.
  - apply orb_false_iff in Hov as [Ho Hex].
    destruct (Hs Ho) as [_ Hrest]. destruct (Hrest Hh) as [Hothers Hone].
    apply existsb_false_filter in Hex.
    destruct Hone as [[_ Hq] | (t & P & Hu & _)]; [| unfold updateTasks in Hu; congruence].
    apply serial_settle_update; [by apply update_safe | done | done].
Qed.

Lemma serial_settles s i t ans r w :
  halted s = false → tasks s !! i = Some t →
  deliver (awaiting t) ans (world s) = Some (r, w) →
  serial s →
  serial (settle (taskKind t) (resume t r w)
            (mkSys w (delete i (tasks s)) (halted s) (overlapped s) (unhandled s))).
Proof.
  intros Hh Ht Hd Hs. rewrite Hh.
  destruct (overlapped s) eqn:Ho.
  { intros Ho'. exfalso. revert Ho'. destruct (resume t r w); simpl; congruence. }
  destruct (Hs Ho) as [_ Hrest].
  destruct (Hrest Hh) as [Hothers Hone].
  pose proof (frame_deliver _ _ _ _ _ Hd) as Hf.
  assert (Hothers' : Forall (fun t => isUpdate t = false → ∀ r w, guar frame w (resume t r w))
                       (delete i (tasks s))) by (by apply Forall_delete).
  assert (Hin : isUpdate t = true → In t (List.filter isUpdate (tasks s))).
  { intros Hkind. apply filter_In. split; [| done].
    by eapply list_elem_of_In, list_elem_of_lookup_2. }
  destruct (isUpdate t) eqn:Hkind.
  - specialize (Hin eq_refl).
    destruct Hone as [[Hu _] | (t' & P & Hu & HG & HP & Hk)]; unfold updateTasks in Hu.
    { exfalso. rewrite Hu in Hin. destruct Hin. }
    assert (t' = t) as ->.
    { rewrite Hu in Hin. by destruct Hin as [-> | []]. }
    assert (taskKind t = updateCall) as ->.
    { unfold isUpdate in Hkind. by destruct (taskKind t). }
    apply serial_settle_update; [| done |].
    + apply Hk. by eapply (proj2 HG).
    + by eapply filter_delete_true.
  - pose proof (Forall_lookup_1 _ _ _ _ Hothers Ht Hkind r w) as Hg.
    assert (Hf' : frame (world s) (outcomeWorld (resume t r w))).
    { eapply frame_trans; [exact Hf |]. by apply (guar_world frame). }
    assert (Hu : List.filter isUpdate (delete i (tasks s)) = updateTasks s)
      by (by eapply filter_delete_false).
    assert (Hone' : ∀ w' ts,
              frame (world s) w' → List.filter isUpdate ts = updateTasks s →
              oneUpdate (mkSys w' ts false false (unhandled s))).
    { intros w' ts Hfr Hts.
      destruct Hone as [[Hn Hq] | (t' & P & Hn & HG & HP & Hk)].
      - left. split; [unfold updateTasks; simpl; congruence | by eapply quiet_frame].
      - right. exists t', P. split; [unfold updateTasks; simpl; congruence |].
        split; [done |]. split; [by eapply (proj2 HG) | done]. }
    assert (Hcons : consecutive (outcomeWorld (resume t r w))).
    { eapply consecutive_frame; [| exact Hf']. by apply oneUpdate_consecutive. }
    pose proof (guar_conts frame _ _ Hg) as Hconts.
    intros _.
    destruct (resume t r w) as [w1 | w1 | w1 e | w1 a k]; simpl in *.
    + split; [done |]. intros _. split; [done |]. by apply Hone'.
    + split; [done | done].
    + split; [done |]. intros _. split; [done |]. by apply Hone'.
    + split; [done |]. intros _. split.
      * apply Forall_app. split; [done |]. constructor; [| done]. intros _. exact Hconts.
      * apply Hone'; [done |]. rewrite List.filter_app. simpl.
        unfold isUpdate at 2. simpl. fold (isUpdate t). rewrite Hkind. by rewrite app_nil_r.
Qed.

Lemma serial_runDisconnect cb name s : serial s → serial (runDisconnect cb name s).
Proof.
  intros Hs.
  assert (H : ∀ proto port nodeId,
            serial (sync (deleteCallback proto port nodeId) (callUpdate s))).
  { intros. apply serial_sync; [| by apply serial_callUpdate].
    intros w. apply frame_set_listeners. }
  destruct cb as [nodeId port | nodeId port [n|]]; simpl; auto.
  destruct (String.eqb name n); auto.
Qed.

Lemma serial_nodeOnDisconnect fuel proto port name i s s' :
  nodeOnDisconnect fuel proto port name i s = Some s' → serial s → serial s'.
Proof.
  revert i s. induction fuel as [|fuel IH]; intros i s; simpl; [done |].
  destruct (halted s); [by intros [= <-] |].
  destruct (listeners proto (world s) !! port) as [l|]; [| by intros [= <-]].
  destruct (ListenerNode.onDisconnect l !! i) as [[[key fn]|]|]; [| | by intros [= <-]].
  - intros H Hs. eapply IH; [exact H |]. by apply serial_runDisconnect.
  - intros H Hs. by eapply IH.
Qed.

Lemma serial_runTimer cb s : serial s → serial (runTimer cb s).
Proof.
  intros Hs. destruct cb as [c | [c|] | nodeId node | pin]; simpl.
  - apply serial_sync; [| by apply serial_callUpdate]. intros w. apply frame_setTimeout.
  - apply serial_sync; [| done]. apply frame_closeNode.
  - done.
  - apply serial_sync; [| done]. intros w. apply frame_closed.
  - apply serial_sync; [| done]. intros w. apply frame_switched.
Qed.

Lemma serial_dispatch ev s s' : dispatch ev s = Some s' → serial s → serial s'.
Proof.
  revert ev s s'. apply (dispatch_cases (fun s s' => serial s → serial s')).
  - intros s _. apply serial_callUpdate.
  - intros s i t ans r w Hh Ht Hd. by eapply serial_settles.
  - intros s t x _ _ Hs. apply serial_runTimer, serial_sync; [| done].
    apply frame_clearTimeout.
  - intros s node settings _ _ _ Hs. unfold onEnded.
    apply serial_callUpdate, serial_sync; [| done]. apply frame_closeNode.
  - intros s node _ Hs. apply serial_sync; [| done]. apply frame_onClose.
  - intros s i streams x _ _ Hs. apply serial_sync; [| done].
    intros w. apply frame_runSelector.
  - intros s proto port name fuel s' _ H Hs. by eapply serial_nodeOnDisconnect.
Qed.

Lemma serial_create playlist transitionDuration : serial (create playlist transitionDuration).
Proof.
  unfold create.
  pose proof (precreate_kept frame (newPlaylist playlist transitionDuration)) as Hg.
  assert (Hq : quiet (outcomeWorld (run precreateListeners
                                      (newPlaylist playlist transitionDuration)))).
  { eapply quiet_frame; [| by apply (guar_world frame)]. intros n Hn. discriminate Hn. }
  pose proof (guar_conts frame _ _ Hg) as Hconts.
  intros _.
  destruct (run precreateListeners (newPlaylist playlist transitionDuration))
    as [w1 | w1 | w1 e | w1 a k]; simpl in *.
  - split; [by apply quiet_consecutive |]. intros _. split; [by constructor |]. by left.
  - split; [by apply quiet_consecutive | done].
  - split; [by apply quiet_consecutive |]. intros _. split; [by constructor |]. by left.
  - split; [by apply quiet_consecutive |]. intros _. split.
    + constructor; [| by constructor]. intros _. exact Hconts.
    + by left.
Qed.

Lemma serial_reachable playlist transitionDuration s :
  reachable playlist transitionDuration s → serial s.
Proof.
  induction 1 as [| s s' _ IH [ev Hev]]; [apply serial_create |].
  by eapply serial_dispatch.
Qed.

(** The claim that [next.index = current.index + 1] in every state fails:
    with a TS file followed by an RTP item, [switch] is called while the node
    of [start] is still being created.  The first call then prewarms item 1
    into [next] while the second call has made item 1 [current]. *)
Lemma C6_counterexample :
  let evs := [callStart; callSwitch; settles 0 ok; settles 1 ok; settles 1 ok;
              settles 0 ok; settles 0 ok] in
  let s := after evs (create tsThenRtp None) in
  possible evs (create tsThenRtp None) = true ∧
  reachable tsThenRtp None s ∧
  PlayingItem.index <$> deref (world s) (current (playingItems (world s))) = Some 1%nat ∧
  PlayingItem.index <$> deref (world s) (next (playingItems (world s))) = Some 1%nat ∧
  (1 ≠ 1 + 1)%nat.
Proof.
  split; [vm_compute; reflexivity |].
  split; [apply reachable_after |].
  split; [vm_compute; reflexivity |].
  split; [vm_compute; reflexivity | discriminate].
Qed.

(** C6, amended.  In every state of the running program a populated [next]
    slot holds a live item.  And as long as no call of [update] has been made
    while an earlier one was still suspended, whenever [current] and [next]
    are both populated, [next.index = current.index + 1]: in every state, so
    also after [update] promotes [next] to [current] and after it prewarms a
    new [next]. *)
Theorem C6_slots (playlist' : list PlaylistItem.t) (transitionDuration' : option Z)
    (s : Sys) :
  reachable playlist' transitionDuration' s →
  (∀ n, next (playingItems (world s)) = Some n →
        ∃ ni, heap (world s) !! n = Some ni ∧
              isLive (PlaylistItem.source (PlayingItem.item ni)) = true) ∧
  (overlapped s = false →
   ∀ ci ni,
     deref (world s) (current (playingItems (world s))) = Some ci →
     deref (world s) (next (playingItems (world s))) = Some ni →
     PlayingItem.index ni = (PlayingItem.index ci + 1)%nat).
Proof.
  intros Hr. split; [by eapply liveNext_reachable |].
  intros Ho ci ni Hc Hn.
  destruct (serial_reachable _ _ _ Hr Ho) as [Hcons _].
  destruct (current (playingItems (world s))) as [r|] eqn:Hr'; [| done].
  destruct (next (playingItems (world s))) as [n|] eqn:Hn'; [| done].
  destruct (Hcons r n Hr' Hn') as (i & Hi & Hj).
  unfold idx in *. simpl in Hc, Hn. rewrite Hc in Hi. rewrite Hn in Hj.
  simpl in *. simplify_eq. lia.
Qed.

(** A TS file followed by an RTP item, started, with the RTP item
    prewarmed. *)
Definition prewarmed : Sys :=
  after [callStart; settles 0 ok; settles 0 ok; settles 0 ok; settles 0 ok]
    (create tsThenRtp None).

Lemma C6_slots_witness :
  reachable tsThenRtp None prewarmed ∧
  overlapped prewarmed = false ∧
  next (playingItems (world prewarmed)) = Some 1%nat ∧
  ∀ ci ni,
    deref (world prewarmed) (current (playingItems (world prewarmed))) = Some ci →
    deref (world prewarmed) (next (playingItems (world prewarmed))) = Some ni →
    PlayingItem.index ni = (PlayingItem.index ci + 1)%nat.
Proof.
  assert (Hr : reachable tsThenRtp None prewarmed) by apply reachable_after.
  assert (Ho : overlapped prewarmed = false) by (vm_compute; reflexivity).
  split; [exact Hr |]. split; [exact Ho |]. split; [vm_compute; reflexivity |].
  exact (proj2 (C6_slots tsThenRtp None prewarmed Hr) Ho).
Defined.

(** * Further properties *)

(** ** [avToPin] and the selector of a slot *)

Lemma filter_acceptAll (l : list StreamKey) : List.filter acceptAll l = l.
Proof. induction l as [|x l IH]; simpl; [done | by rewrite IH]. Qed.

(** X1.  [avToPin(pin)] returns a mapping exactly when the stream list has an
    audio and a video stream, and the mapping then sends [pin] to the first
    audio key followed by the first video key.  Whenever it returns a mapping
    for the pin of a slot, the selector of an ["av"] slot that filters nothing
    returns the same mapping, and that selector leaves the slot [ready]
    exactly when [avToPin] returns a mapping. *)
Theorem avToPin_selector (pin : string) (i r : nat) (streams : list StreamMetadata)
    (w : World) :
  avToPin pin streams =
    match audioStreamKeys streams, videoStreamKeys streams with
    | a :: _, v :: _ => Some {[ pin := [a; v] ]}
    | _, _ => None
    end ∧
  (∀ m, avToPin (toString i) streams = Some m →
        fst (runSelector (StreamSelector i Kav acceptAll r) streams w) = Some m) ∧
  heap (snd (runSelector (StreamSelector i Kav acceptAll r) streams w)) !! r =
    PlayingItem.set_ready (bool_decide (is_Some (avToPin (toString i) streams)))
      <$> heap w !! r.
Proof.
  unfold avToPin. cbn [runSelector fst snd]. rewrite !filter_acceptAll.
  rewrite refreshActive_heap. cbn [heap set_heap].
  rewrite list_lookup_alter, decide_True by done.
  destruct (audioStreamKeys streams) as [|a la], (videoStreamKeys streams) as [|v lv];
    simpl; repeat split; done.
Qed.

(** ** [refreshActive] *)

Lemma option_nat_eqb_refl (a : option nat) : option_nat_eqb a a = true.
Proof. destruct a; simpl; [apply Nat.eqb_refl | done]. Qed.

Lemma refreshActive_cases (w : World) :
  refreshActive w = w ∨
  ∃ c, (deref w (current (playingItems w)) = Some c ∨
        (playing w = None ∧ isReady (deref w (current (playingItems w))) = false ∧
         deref w (prev (playingItems w)) = Some c)) ∧
       PlayingItem.ready c = true ∧
       playing w ≠ Some (PlayingItem.index c) ∧
       refreshActive w = activateSource c w.
Proof.
  unfold refreshActive.
  destruct (deref w (current (playingItems w))) as [c|] eqn:Hc; simpl.
  - destruct (negb (option_nat_eqb (playing w) (Some (PlayingItem.index c)))) eqn:E1; simpl.
    + destruct (PlayingItem.ready c) eqn:E1'; simpl.
      * right. exists c. split; [by left |]. split; [done |]. split; [| done].
        intros Heq. rewrite Heq in E1. simpl in E1. by rewrite Nat.eqb_refl in E1.
      * destruct (playing w) eqn:Hpl; simpl; [by left |].
        destruct (deref w (prev (playingItems w))) as [p|] eqn:Hp; simpl; [| by left].
        destruct (PlayingItem.ready p) eqn:Hr; [| by left].
        right. exists p. split; [right; done |]. done.
    + destruct (playing w) eqn:Hpl; simpl; [by left |]. done.
  - destruct (playing w) eqn:Hpl; simpl; [by left |].
    destruct (deref w (prev (playingItems w))) as [p|] eqn:Hp; simpl; [| by left].
    destruct (PlayingItem.ready p) eqn:Hr; [| by left].
    right. exists p. split; [right; done |]. done.
Qed.

Lemma refreshActive_activated (c : PlayingItem.t) (w : World) :
  (deref w (current (playingItems w)) = Some c ∨
   isReady (deref w (current (playingItems w))) = false) →
  refreshActive (activateSource c w) = activateSource c w.
Proof.
  intros H. unfold refreshActive, activateSource. simpl.
  change (deref _ (current (playingItems w))) with (deref w (current (playingItems w))).
  destruct H as [-> | ->]; simpl.
  - by rewrite Nat.eqb_refl.
  - by rewrite andb_false_r.
Qed.

(** X2.  [refreshActive] writes [playing] and sets a timer only: it leaves
    the slots and the slot states alone.  Either it changes nothing, or it
    makes one item the playing one: the [current] one if that is ready and
    not the one playing, else the [prev] one if that is ready and nothing is
    playing (never the [next] one); it then sets one timer of 10 ms that
    switches to the pin named after that item's index.  Calling it a second
    time changes nothing more. *)
Theorem refreshActive_idempotent (w : World) :
  refreshActive (refreshActive w) = refreshActive w ∧
  playingItems (refreshActive w) = playingItems w ∧
  heap (refreshActive w) = heap w ∧
  (refreshActive w = w ∨
   ∃ c, (deref w (current (playingItems w)) = Some c ∨
         (playing w = None ∧ isReady (deref w (current (playingItems w))) = false ∧
          deref w (prev (playingItems w)) = Some c)) ∧
        PlayingItem.ready c = true ∧
        playing w ≠ Some (PlayingItem.index c) ∧
        playing (refreshActive w) = Some (PlayingItem.index c) ∧
        timers (refreshActive w) =
          timers w ++ [mkTimer (nextTimer w) 10
                         (switchSource (toString (PlayingItem.index c)))]).
Proof.
  split; [| split; [| split]].
  - destruct (refreshActive_cases w) as [Heq | (c & Hc & _ & _ & ->)];
      [by rewrite !Heq |].
    apply refreshActive_activated. destruct Hc as [Hc | (_ & Hc & _)]; auto.
  - unfold refreshActive, activateSource. repeat case_match; reflexivity.
  - apply refreshActive_heap.
  - destruct (refreshActive_cases w) as [Heq | (c & Hc & Hr & Hp & Heq)]; [by left |].
    right. exists c. rewrite Heq. done.
Qed.

(** ** The factory on standalone items *)

(** X3.  For an item that is not served by a shared listener, [createNode]
    asks the engine for an input node called ["input-<currentSource>"] and
    stops there.  If the engine refuses, the error is thrown on (and so
    leaves [update] as a rejection).  Once the engine has made the node, the
    slot holds a new state for the item, not ready, subscribed to the new
    node with a selector that filters nothing, and whose [closeNode] is that
    of a standalone node; an image, and no other source, is also subscribed
    to the silence generator, which is mapped to the slot's pin when it has
    exactly one audio stream. *)
Theorem createNode_standalone (item : PlaylistItem.t) (currentSource i : nat)
    (slot : NodeType) (w : World) (k : CreatedNodeInfo -> World -> Outcome) :
  listenerOf (PlaylistItem.source item) = None →
  let info node :=
    mkInfo node (nodeIdOf currentSource) (nodeKind (PlaylistItem.source item)) item acceptAll
      (mkCloseNode true (nodeIdOf currentSource) node) in
  ∃ k' promise,
    createNode item currentSource (subscribeToNode i slot) w k =
      Suspended w (awaitInput (mkInput (nodeIdOf currentSource) (PlaylistItem.source item))) k' ∧
    (∀ e w1, k' (failed e) w1 = Rejected w1 e) ∧
    ∀ node w1, ∃ state,
      k' (created node) w1 =
        k (mkCreated (info node) promise) (subscribeToNode i slot (info node) w1) ∧
      match slot with
      | currentSlot => current (playingItems (subscribeToNode i slot (info node) w1))
      | nextSlot => next (playingItems (subscribeToNode i slot (info node) w1))
      end = Some (length (heap w1)) ∧
      heap (subscribeToNode i slot (info node) w1) !! length (heap w1) = Some state ∧
      PlayingItem.item state = item ∧
      PlayingItem.index state = i ∧
      PlayingItem.ready state = false ∧
      PlayingItem.closeNode state = mkCloseNode true (nodeIdOf currentSource) node ∧
      PlayingItem.sub state =
        Some (mkSub node (StreamSelector i (nodeKind (PlaylistItem.source item)) acceptAll
                            (length (heap w1)))) ∧
      PlayingItem.silenceSub state =
        match PlaylistItem.source item with
        | image _ _ => Some (mkSub silence (SilenceSelector i))
        | _ => None
        end ∧
      ∀ streams w2,
        runSelector (SilenceSelector i) streams w2 =
          (match audioStreamKeys streams with
           | [a] => Some {[ toString i := [a] ]}
           | _ => None
           end, w2).
Proof.
  intros Hl info. unfold createNode. fold (nodeIdOf currentSource).
  assert (Hsil : ∀ streams w2,
            runSelector (SilenceSelector i) streams w2 =
              (match audioStreamKeys streams with
               | [a] => Some {[ toString i := [a] ]}
               | _ => None
               end, w2)).
  { intros streams w2. simpl. by destruct (audioStreamKeys streams) as [|a [|b l]]. }
  assert (Hst : ∀ promise, ∃ k',
            createStandalone item (nodeIdOf currentSource) (subscribeToNode i slot) promise w k =
              Suspended w
                (awaitInput (mkInput (nodeIdOf currentSource) (PlaylistItem.source item))) k' ∧
            (∀ e w1, k' (failed e) w1 = Rejected w1 e) ∧
            ∀ node w1,
              k' (created node) w1 =
                k (mkCreated (info node) promise) (subscribeToNode i slot (info node) w1)).
  { intros promise.
    unfold createStandalone, mbind, M_bind, await, modify, mret, M_ret, throw.
    eexists. split; [reflexivity |]. split; reflexivity. }
  assert (Hgoal : ∀ promise,
            (∀ node w1, PlayingItem.silenceSub
                          (PlayingItem.mk item
                             (Some (mkSub node
                                      (StreamSelector i (nodeKind (PlaylistItem.source item))
                                         acceptAll (length (heap w1)))))
                             (if AVKind_eqb (nodeKind (PlaylistItem.source item)) Kvideo
                              then Some (mkSub silence (SilenceSelector i)) else None)
                             false i None (mkCloseNode true (nodeIdOf currentSource) node)) =
                        match PlaylistItem.source item with
                        | image _ _ => Some (mkSub silence (SilenceSelector i))
                        | _ => None
                        end) →
            ∃ k' promise',
              createStandalone item (nodeIdOf currentSource) (subscribeToNode i slot) promise w k =
                Suspended w
                  (awaitInput (mkInput (nodeIdOf currentSource) (PlaylistItem.source item))) k' ∧
              (∀ e w1, k' (failed e) w1 = Rejected w1 e) ∧
              ∀ node w1, ∃ state,
                k' (created node) w1 =
                  k (mkCreated (info node) promise') (subscribeToNode i slot (info node) w1) ∧
                match slot with
                | currentSlot => current (playingItems (subscribeToNode i slot (info node) w1))
                | nextSlot => next (playingItems (subscribeToNode i slot (info node) w1))
                end = Some (length (heap w1)) ∧
                heap (subscribeToNode i slot (info node) w1) !! length (heap w1) = Some state ∧
                PlayingItem.item state = item ∧
                PlayingItem.index state = i ∧
                PlayingItem.ready state = false ∧
                PlayingItem.closeNode state = mkCloseNode true (nodeIdOf currentSource) node ∧
                PlayingItem.sub state =
                  Some (mkSub node (StreamSelector i (nodeKind (PlaylistItem.source item))
                                      acceptAll (length (heap w1)))) ∧
                PlayingItem.silenceSub state =
                  match PlaylistItem.source item with
                  | image _ _ => Some (mkSub silence (SilenceSelector i))
                  | _ => None
                  end ∧
                ∀ streams w2,
                  runSelector (SilenceSelector i) streams w2 =
                    (match audioStreamKeys streams with
                     | [a] => Some {[ toString i := [a] ]}
                     | _ => None
                     end, w2)).
  { intros promise Hs. destruct (Hst promise) as (k' & Hk & Hf & Hc).
    exists k', promise. split; [exact Hk |]. split; [exact Hf |].
    intros node w1. eexists.
    split; [apply Hc |].
    split; [apply subscribeToNode_slot |].
    split; [apply subscribeToNode_heap |].
    repeat split; [apply Hs | apply Hsil]. }
  destruct (PlaylistItem.source item) as [| |[] ? ?|? ? ?| | |] eqn:Hsrc; simplify_eq/=;
    apply Hgoal; reflexivity.
Qed.

Lemma createNode_standalone_witness :
  ∃ k',
    createNode (tsItem None) 0 (subscribeToNode 0 currentSlot) (newPlaylist [tsItem None] None)
      (fun _ w => Finished w) =
    Suspended (newPlaylist [tsItem None] None)
      (awaitInput (mkInput "input-0" (localTsFile "a.ts"))) k' ∧
    ∀ e w1, k' (failed e) w1 = Rejected w1 e.
Proof.
  destruct (createNode_standalone (tsItem None) 0 0 currentSlot
              (newPlaylist [tsItem None] None) (fun _ w => Finished w) eq_refl)
    as (k' & promise & Hk & Hf & _).
  exists k'. split; [exact Hk | exact Hf].
Defined.

(** ** The stream key filter of an RTMP item *)

Lemma rtmpSourceName_Some app stream n :
  rtmpSourceName app stream = Some n ↔
  ∃ a s, app = Some a ∧ stream = Some s ∧ a ≠ "" ∧ s ≠ "" ∧ n = a +:+ "/" +:+ s.
Proof.
  unfold rtmpSourceName. split.
  - destruct app as [[|c a]|], stream as [[|c' s]|]; simpl; try done.
    intros [= <-]. eexists _, _. repeat split; done.
  - intros (a & s & -> & -> & Ha & Hs & ->).
    destruct a; [done |]. destruct s; [done |]. reflexivity.
Qed.

(** X4.  For an RTMP item whose listener is registered, [createNode] stops
    at no engine call: it subscribes the slot to the listener's node at once.
    If [app] and [stream] are both set (and not empty), every key the slot's
    selector returns, for any stream list, is a key of that list whose source
    name is ["<app>/<stream>"]: a slot never takes the streams another
    publisher sends to the same port.  If they are not both set the selector
    filters nothing. *)
Theorem rtmp_stream_filter (item : PlaylistItem.t) (port : nat) (app stream : option string)
    (currentSource i : nat) (slot : NodeType) (w : World) (l : ListenerNode.t) (node : Node) :
  PlaylistItem.source item = rtmp port app stream →
  rtmpListeners w !! port = Some l →
  ListenerNode.node l = Some node →
  ∃ ci w' state filter,
    (∀ k : CreatedNodeInfo -> World -> Outcome,
       createNode item currentSource (subscribeToNode i slot) w k = k ci w') ∧
    heap w' !! length (heap w) = Some state ∧
    PlayingItem.sub state = Some (mkSub node (StreamSelector i Kav filter (length (heap w)))) ∧
    (∀ a s, app = Some a → stream = Some s → a ≠ "" → s ≠ "" →
       ∀ streams w1 pins keys key,
         fst (runSelector (StreamSelector i Kav filter (length (heap w))) streams w1) = Some pins →
         pins !! toString i = Some keys → key ∈ keys →
         sourceName key = a +:+ "/" +:+ s ∧
         (key ∈ audioStreamKeys streams ∨ key ∈ videoStreamKeys streams)) ∧
    (rtmpSourceName app stream = None → ∀ key, filter key = true).
Proof.
  intros Hsrc Hl Hn. unfold createNode. rewrite Hsrc.
  unfold mbind, M_bind, get, modify, mret, M_ret. rewrite Hl, Hn.
  set (filter := rtmpStreamKeyFilter (rtmpSourceName app stream)).
  set (info := mkInfo node ("input-" +:+ toString currentSource)
                 (nodeKind (rtmp port app stream)) item filter
                 (mkCloseNode false ("input-" +:+ toString currentSource) node)).
  set (w0 := set_rtmpListeners
               (<[port := attach ("input-" +:+ toString currentSource)
                            (rtmpOnDisconnect ("input-" +:+ toString currentSource) port
                               (rtmpSourceName app stream)) l]> (rtmpListeners w)) w).
  exists (mkCreated info resolvedUndefined), (subscribeToNode i slot info w0).
  eexists _, filter.
  split; [intros k; reflexivity |].
  split; [exact (subscribeToNode_heap i slot info w0) |].
  split; [reflexivity |].
  unfold filter. clear filter info w0.
  split.
  - intros a s -> -> Ha Hs streams w1 pins keys key.
    assert (Hname : rtmpSourceName (Some a) (Some s) = Some (a +:+ "/" +:+ s)).
    { apply rtmpSourceName_Some. eexists _, _. repeat split; done. }
    rewrite Hname. cbn [runSelector fst].
    set (f := rtmpStreamKeyFilter (Some (a +:+ "/" +:+ s))).
    set (audio := take 1 (List.filter f (audioStreamKeys streams))).
    set (video := take 1 (List.filter f (videoStreamKeys streams))).
    destruct (1 <=? length (audio ++ video))%nat; [| done].
    intros [= <-]. rewrite lookup_singleton_eq. intros [= <-] Hkey.
    assert (Hin : ∀ l0, key ∈ take 1 (List.filter f l0) → f key = true ∧ key ∈ l0).
    { intros l0 Hk. pose proof (take_1_filter_Forall f l0) as HF.
      rewrite Forall_forall in HF. by apply HF. }
    assert (Hf : f key = true → sourceName key = a +:+ "/" +:+ s).
    { unfold f, rtmpStreamKeyFilter. simpl.
      destruct (a +:+ "/" +:+ s) eqn:E; [by destruct a |].
      intros H. by apply String.eqb_eq in H. }
    apply elem_of_app in Hkey as [Hk | Hk]; apply Hin in Hk as [Hk1 Hk2]; auto.
  - intros Hnone key. by rewrite Hnone.
Qed.

Lemma rtmp_stream_filter_witness :
  ∃ ci w' state filter,
    (∀ k : CreatedNodeInfo -> World -> Outcome,
       createNode (rtmpItem 1935 None None) 0 (subscribeToNode 0 currentSlot)
         (rtmpRegistered 1935) k = k ci w') ∧
    heap w' !! 0%nat = Some state ∧
    PlayingItem.sub state =
      Some (mkSub (mkNode 5 "rtmp-1935") (StreamSelector 0 Kav filter 0)) ∧
    ∀ key, filter key = true.
Proof.
  destruct (rtmp_stream_filter (rtmpItem 1935 None None) 1935 None None 0 0 currentSlot
              (rtmpRegistered 1935) (newListener (mkNode 5 "rtmp-1935")) (mkNode 5 "rtmp-1935")
              eq_refl eq_refl eq_refl)
    as (ci & w' & state & filter & Hk & Hh & Hs & _ & Hall).
  exists ci, w', state, filter. split; [exact Hk |]. split; [exact Hh |].
  split; [exact Hs |]. exact (Hall eq_refl).
Defined.

(** ** [update] at the end of the playlist *)

Lemma playlist_prefix (w : World) : playlist (prefix w) = playlist w.
Proof. unfold prefix. by rewrite clearTimeouts_eq. Qed.

Lemma update_exits (w : World) :
  playlist w !! sourceIndex w = None → run update w = Exited (prefix w).
Proof.
  intros Hnone. unfold run. rewrite update_prefix.
  unfold advance, mbind, M_bind, get. by rewrite playlist_prefix, Hnone.
Qed.

(** X5.  A call of [update] ends the process exactly when the position is
    past the last item (so [start] on an empty playlist ends it at once).
    It has then cancelled the timers of [this.timeouts] and moved the
    position on by one all the same, and done nothing else: no node is asked
    for, no slot written, no call left suspended. *)
Theorem update_past_the_end (s : Sys) :
  halted s = false →
  (halted (callUpdate s) = true ↔
   (length (playlist (world s)) ≤ sourceIndex (world s))%nat) ∧
  ((length (playlist (world s)) ≤ sourceIndex (world s))%nat →
   world (callUpdate s) =
     set_sourceIndex (S (sourceIndex (world s))) (clearTimeouts (world s)) ∧
   tasks (callUpdate s) = tasks s ∧
   unhandled (callUpdate s) = unhandled s) ∧
  (playlist (world s) = [] → halted (start s) = true).
Proof.
  intros Hh.
  assert (Hexit : (length (playlist (world s)) ≤ sourceIndex (world s))%nat →
                  run update (world s) = Exited (prefix (world s))).
  { intros Hle. apply update_exits. by apply lookup_ge_None. }
  split; [| split].
  - unfold callUpdate. rewrite Hh, halted_settle. split.
    + intros Hhalt.
      destruct (playlist (world s) !! sourceIndex (world s)) as [item|] eqn:Hitem;
        [| by apply lookup_ge_None].
      pose proof (update_noExit (world s) (ex_intro _ item Hitem)) as Hne.
      destruct (run update (world s)); simpl in *; done.
    + intros Hle. by rewrite (Hexit Hle).
  - intros Hle. unfold callUpdate. rewrite Hh, (Hexit Hle). simpl. done.
  - intros Hnil. unfold start, callUpdate. rewrite Hh, halted_settle, Hexit; [done |].
    rewrite Hnil. simpl. lia.
Qed.

Lemma update_past_the_end_witness :
  halted (create [] None) = false ∧
  halted (callUpdate (create [] None)) = true ∧
  sourceIndex (world (callUpdate (create [] None))) = 1%nat.
Proof.
  assert (Hh : halted (create [] None) = false) by reflexivity.
  assert (Hle : (length (playlist (world (create [] None)))
                 ≤ sourceIndex (world (create [] None)))%nat) by (simpl; lia).
  destruct (update_past_the_end (create [] None) Hh) as (Hiff & Hw & _).
  split; [exact Hh |]. split; [exact (proj2 Hiff Hle) |].
  destruct (Hw Hle) as (-> & _). reflexivity.
Defined.

(** ** [update] with a prewarmed item *)

Lemma scheduleAdvance_fields c w :
  playingItems (scheduleAdvance c w) = playingItems w ∧
  heap (scheduleAdvance c w) = heap w ∧
  inputs (scheduleAdvance c w) = inputs w ∧
  playlist (scheduleAdvance c w) = playlist w ∧
  srtListeners (scheduleAdvance c w) = srtListeners w ∧
  rtmpListeners (scheduleAdvance c w) = rtmpListeners w.
Proof. unfold scheduleAdvance, setTimeout. repeat case_match; simpl; done. Qed.

Lemma refreshActive_fields w :
  playingItems (refreshActive w) = playingItems w ∧
  heap (refreshActive w) = heap w ∧
  inputs (refreshActive w) = inputs w ∧
  playlist (refreshActive w) = playlist w ∧
  srtListeners (refreshActive w) = srtListeners w ∧
  rtmpListeners (refreshActive w) = rtmpListeners w.
Proof. unfold refreshActive, activateSource, setTimeout. repeat case_match; simpl; done. Qed.

(** What [prewarm] has come to when it first gives control back. *)
Lemma prewarm_outcome (currentSource : nat) (w : World) :
  prewarm currentSource w (fun _ w' => Finished w') = Finished w ∨
  ∃ next', playlist w !! (currentSource + 1)%nat = Some next' ∧
           isLive (PlaylistItem.source next') = true ∧
           ((listenerOf (PlaylistItem.source next') = None ∧
             ∃ k', prewarm currentSource w (fun _ w' => Finished w') =
                   Suspended w (awaitInput (mkInput (nodeIdOf currentSource)
                                              (PlaylistItem.source next'))) k') ∨
            (∃ e, prewarm currentSource w (fun _ w' => Finished w') = Rejected w e) ∨
            (is_Some (listenerOf (PlaylistItem.source next')) ∧
             ∃ ci w0 k',
               prewarm currentSource w (fun _ w' => Finished w') =
                 Suspended (subscribeToNode (currentSource + 1) nextSlot ci w0) awaitSettled k' ∧
               playingItems w0 = playingItems w ∧ heap w0 = heap w ∧ inputs w0 = inputs w)).
Proof.
  unfold prewarm, mbind, M_bind, get.
  destruct (playlist w !! (currentSource + 1)%nat) as [next'|] eqn:Hn; [| by left].
  destruct (isLive (PlaylistItem.source next')) eqn:Hlive; [| by left].
  right. exists next'. split; [done |]. split; [done |].
  unfold createNode, nodeIdOf.
  destruct next' as [b d src]. simpl in *.
  destruct src as [| |[] ? port|port ? ?| | |]; simplify_eq/=;
    try (left; split; [reflexivity |];
         unfold createStandalone, mbind, M_bind, await; eexists; reflexivity).
  - unfold mbind, M_bind, get, modify, mret, M_ret, throw, await.
    destruct (srtListeners w !! port) as [l|]; [| right; left; eexists; reflexivity].
    destruct (ListenerNode.node l) as [node|]; [| right; left; eexists; reflexivity].
    right. right. split; [by eexists |]. eexists _, _, _. split; [reflexivity |]. done.
  - unfold mbind, M_bind, get, modify, mret, M_ret, throw, await.
    destruct (rtmpListeners w !! port) as [l|]; [| right; left; eexists; reflexivity].
    destruct (ListenerNode.node l) as [node|]; [| right; left; eexists; reflexivity].
    right. right. split; [by eexists |]. eexists _, _, _. split; [reflexivity |]. done.
Qed.

(** X13.  When [next] is populated and the playlist has an item at the
    position, [update] promotes the prewarmed state: when the call first
    gives control back, [current] is the state that was in [next] and [prev]
    the one that was in [current]; the call has asked the engine for no node
    for the promoted item (it is suspended, if at all, on the prewarming of
    the item after it), and the heap has grown by the state of that next item
    at most. *)
Theorem update_promotes (w : World) (n : nat) (item : PlaylistItem.t) :
  playlist w !! sourceIndex w = Some item →
  next (playingItems w) = Some n →
  current (playingItems (outcomeWorld (run update w))) = Some n ∧
  prev (playingItems (outcomeWorld (run update w))) = current (playingItems w) ∧
  inputs (outcomeWorld (run update w)) = inputs w ∧
  (∃ new, heap (outcomeWorld (run update w)) = heap w ++ new ∧ (length new ≤ 1)%nat) ∧
  match run update w with
  | Suspended _ (awaitInput settings) _ =>
      ∃ next', playlist w !! S (sourceIndex w) = Some next' ∧
               in_source settings = PlaylistItem.source next' ∧
               isLive (PlaylistItem.source next') = true
  | Suspended _ awaitSettled _ =>
      ∃ next', playlist w !! S (sourceIndex w) = Some next' ∧
               is_Some (listenerOf (PlaylistItem.source next'))
  | Suspended _ _ _ => False
  | Exited _ => False
  | _ => True
  end.
Proof.
  intros Hitem Hnext. unfold run. rewrite update_prefix.
  unfold advance, mbind, M_bind, get, modify.
  rewrite playlist_prefix, Hitem.
  assert (Hp : playingItems (prefix w) = playingItems w).
  { unfold prefix. by rewrite clearTimeouts_eq. }
  assert (Hh : heap (prefix w) = heap w ∧ inputs (prefix w) = inputs w).
  { unfold prefix. by rewrite clearTimeouts_eq. }
  cbn [playingItems set_playingItems set_prev next]. rewrite Hp, Hnext.
  match goal with |- context [usePrestarted n ?x] => set (w2 := x) end.
  set (w3 := usePrestarted n w2).
  set (w4 := scheduleAdvance (sourceIndex w) w3).
  assert (H4 : playingItems w4 = mkSlots (current (playingItems w)) (Some n) None ∧
               heap w4 = heap w ∧ inputs w4 = inputs w ∧ playlist w4 = playlist w).
  { destruct (scheduleAdvance_fields (sourceIndex w) w3) as (E1 & E2 & E3 & E4 & _).
    fold w4 in E1, E2, E3, E4. rewrite E1, E2, E3, E4.
    destruct (refreshActive_fields
                (set_playingItems (mkSlots (prev (playingItems w2)) (Some n) None) w2))
      as (F1 & F2 & F3 & F4 & _).
    change (refreshActive _) with w3 in F1, F2, F3, F4.
    rewrite F1, F2, F3, F4. unfold w2.
    cbn [playingItems heap inputs playlist set_playingItems prev].
    rewrite playlist_prefix. destruct Hh as [-> ->]. done. }
  destruct H4 as (H4p & H4h & H4i & H4l).
  destruct (prewarm_outcome (sourceIndex w) w4)
    as [-> | (next' & Hn' & Hlive &
              [(Hl & k' & ->) | [(e & ->) | (Hl & ci & w0 & k' & -> & Hp0 & Hh0 & Hi0)]])];
    simpl.
  - rewrite H4p, H4i, H4h. simpl. repeat split; try done.
    exists []. split; [by rewrite app_nil_r | simpl; lia].
  - rewrite H4p, H4i, H4h. simpl. repeat split; try done.
    + exists []. split; [by rewrite app_nil_r | simpl; lia].
    + exists next'. rewrite H4l, Nat.add_1_r in Hn'. done.
  - rewrite H4p, H4i, H4h. simpl. repeat split; try done.
    exists []. split; [by rewrite app_nil_r | simpl; lia].
  - rewrite Hp0, Hh0, Hi0, H4p, H4i, H4h. simpl. repeat split; try done.
    + eexists. split; [reflexivity | simpl; lia].
    + exists next'. rewrite H4l, Nat.add_1_r in Hn'. done.
Qed.

Lemma update_promotes_witness :
  current (playingItems (outcomeWorld (run update (world prewarmed)))) = Some 1%nat ∧
  prev (playingItems (outcomeWorld (run update (world prewarmed)))) = Some 0%nat.
Proof.
  assert (Hitem : playlist (world prewarmed) !! sourceIndex (world prewarmed) =
                  Some (PlaylistItem.mk None None (rtp []))) by (vm_compute; reflexivity).
  assert (Hnext : next (playingItems (world prewarmed)) = Some 1%nat)
    by (vm_compute; reflexivity).
  destruct (update_promotes (world prewarmed) 1 _ Hitem Hnext) as (Hc & Hp & _).
  split; [exact Hc |]. rewrite Hp. vm_compute. reflexivity.
Defined.

(** ** What [createNode] has come to when it first gives control back *)

Lemma createNode_outcome (item : PlaylistItem.t) (currentSource : nat)
    (subscribeNode : InitialCreateInfo -> World -> World) (w : World)
    (k : CreatedNodeInfo -> World -> Outcome) :
  (listenerOf (PlaylistItem.source item) = None ∧
   ∃ k', createNode item currentSource subscribeNode w k =
         Suspended w (awaitInput (mkInput (nodeIdOf currentSource)
                                    (PlaylistItem.source item))) k') ∨
  (∃ proto port,
     listenerOf (PlaylistItem.source item) = Some (proto, port) ∧
     registered proto port w = None ∧
     createNode item currentSource subscribeNode w k = Rejected w (listenerNotFound port)) ∨
  (∃ proto port l node cb ci,
     listenerOf (PlaylistItem.source item) = Some (proto, port) ∧
     callbackOf (PlaylistItem.source item) (nodeIdOf currentSource) = Some cb ∧
     listeners proto w !! port = Some l ∧
     ListenerNode.node l = Some node ∧
     ci_item (cr_info ci) = item ∧
     ci_kind (cr_info ci) = nodeKind (PlaylistItem.source item) ∧
     ci_node (cr_info ci) = node ∧
     ci_closeNode (cr_info ci) = mkCloseNode false (nodeIdOf currentSource) node ∧
     createNode item currentSource subscribeNode w k =
       k ci (subscribeNode (cr_info ci)
               (set_listeners proto
                  (<[port := attach (nodeIdOf currentSource) cb l]> (listeners proto w)) w))).
Proof.
  unfold createNode, nodeIdOf, registered.
  destruct item as [b d src]. cbn [PlaylistItem.source].
  destruct src as [| |[] ? port|port ? ?| | |];
    try (left; split; [reflexivity |];
         unfold createStandalone, mbind, M_bind, await; eexists; reflexivity).
  - right. unfold mbind, M_bind, get, modify, mret, M_ret, throw.
    destruct (srtListeners w !! port) as [l|] eqn:Hl;
      [| left; exists SRT, port; split; [reflexivity |];
         split; [simpl; by rewrite Hl | reflexivity]].
    destruct (ListenerNode.node l) as [node|] eqn:Hn;
      [| left; exists SRT, port; split; [reflexivity |];
         split; [simpl; rewrite Hl; simpl; by rewrite Hn | reflexivity]].
    right. exists SRT, port, l, node.
    exists (srtOnDisconnect ("input-" +:+ toString currentSource) port).
    exists (mkCreated
              (mkInfo node ("input-" +:+ toString currentSource)
                 (nodeKind (srt listener ip port))
                 (PlaylistItem.mk b d (srt listener ip port)) acceptAll
                 (mkCloseNode false ("input-" +:+ toString currentSource) node))
              resolvedUndefined).
    repeat split; done.
  - right. unfold mbind, M_bind, get, modify, mret, M_ret, throw.
    destruct (rtmpListeners w !! port) as [l|] eqn:Hl;
      [| left; exists RTMP, port; split; [reflexivity |];
         split; [simpl; by rewrite Hl | reflexivity]].
    destruct (ListenerNode.node l) as [node|] eqn:Hn;
      [| left; exists RTMP, port; split; [reflexivity |];
         split; [simpl; rewrite Hl; simpl; by rewrite Hn | reflexivity]].
    right. exists RTMP, port, l, node.
    exists (rtmpOnDisconnect ("input-" +:+ toString currentSource) port
              (rtmpSourceName app stream)).
    exists (mkCreated
              (mkInfo node ("input-" +:+ toString currentSource)
                 (nodeKind (rtmp port app stream))
                 (PlaylistItem.mk b d (rtmp port app stream))
                 (rtmpStreamKeyFilter (rtmpSourceName app stream))
                 (mkCloseNode false ("input-" +:+ toString currentSource) node))
              resolvedUndefined).
    repeat split; done.
Qed.

(** ** The loop over the callbacks of a listener ends *)

Lemma Map_replace_length {V} key (v : V) m : length (Map_replace key v m) = length m.
Proof.
  induction m as [|[[k v0]|] m IH]; simpl; try done.
  - destruct (String.eqb k key); simpl; by rewrite ?IH.
  - by rewrite IH.
Qed.

Lemma Map_set_length {V} key (v : V) m : (length (Map_set key v m) ≤ S (length m))%nat.
Proof.
  unfold Map_set. destruct (Map_has key m).
  - rewrite Map_replace_length. lia.
  - rewrite length_app. simpl. lia.
Qed.

Lemma Map_delete_length {V} key (m : list (option (string * V))) :
  length (Map_delete key m) = length m.
Proof.
  induction m as [|[[k v0]|] m IH]; simpl; try done.
  - destruct (String.eqb k key); simpl; by rewrite ?IH.
  - by rewrite IH.
Qed.

(** The number of entries, live or deleted, of the [onDisconnect] map of a
    listener. *)
Definition entries (proto : Protocol) (port : nat) (w : World) : nat :=
  match listeners proto w !! port with
  | Some l => length (ListenerNode.onDisconnect l)
  | None => 0
  end.

(** A stretch of the program that keeps the playlist and adds one entry at
    most to each map. *)
Definition grew (w w' : World) : Prop :=
  playlist w' = playlist w ∧
  ∀ proto port, (entries proto port w' ≤ S (entries proto port w))%nat.

(** A stretch that keeps the playlist and the registries. *)
Definition sameRegistry (w w' : World) : Prop :=
  playlist w' = playlist w ∧
  srtListeners w' = srtListeners w ∧
  rtmpListeners w' = rtmpListeners w.

Lemma sameRegistry_entries w w' proto port :
  sameRegistry w w' → entries proto port w' = entries proto port w.
Proof. intros (_ & Hs & Hr). unfold entries. destruct proto; simpl; by rewrite ?Hs, ?Hr. Qed.

Lemma sameRegistry_grew w w' : sameRegistry w w' → grew w w'.
Proof.
  intros H. split; [apply H |]. intros proto port.
  rewrite (sameRegistry_entries w w') by done. lia.
Qed.

Lemma sameRegistry_refl w : sameRegistry w w.
Proof. by unfold sameRegistry. Qed.

Lemma sameRegistry_trans a b c : sameRegistry a b → sameRegistry b c → sameRegistry a c.
Proof. unfold sameRegistry. intros (? & ? & ?) (? & ? & ?). repeat split; congruence. Qed.

Lemma grew_sameRegistry_l a b c : sameRegistry a b → grew b c → grew a c.
Proof.
  intros Hab [Hp He]. split; [destruct Hab; congruence |].
  intros proto port. rewrite <- (sameRegistry_entries a b) by done. apply He.
Qed.

Lemma grew_sameRegistry_r a b c : grew a b → sameRegistry b c → grew a c.
Proof.
  intros [Hp He] Hbc. split; [destruct Hbc; congruence |].
  intros proto port. rewrite (sameRegistry_entries b c) by done. apply He.
Qed.

Lemma sameRegistry_subscribeToNode i slot ci w : sameRegistry w (subscribeToNode i slot ci w).
Proof. by unfold sameRegistry. Qed.

Lemma sameRegistry_prefix w : sameRegistry w (prefix w).
Proof. unfold prefix. rewrite clearTimeouts_eq. by unfold sameRegistry. Qed.

Lemma sameRegistry_refreshActive w : sameRegistry w (refreshActive w).
Proof.
  unfold sameRegistry, refreshActive, activateSource, setTimeout.
  repeat case_match; simpl; done.
Qed.

Lemma sameRegistry_scheduleAdvance c w : sameRegistry w (scheduleAdvance c w).
Proof.
  unfold sameRegistry, scheduleAdvance, setTimeout. repeat case_match; simpl; done.
Qed.

Lemma grew_attach proto port nodeId cb l w :
  listeners proto w !! port = Some l →
  grew w (set_listeners proto (<[port := attach nodeId cb l]> (listeners proto w)) w).
Proof.
  intros Hl. split; [by destruct proto |].
  intros proto' port'. unfold entries.
  destruct proto, proto'; simpl in *;
    try (destruct (_ !! port'); lia);
    (destruct (decide (port' = port)) as [-> | Hne];
     [rewrite lookup_insert_eq, Hl; simpl; apply Map_set_length
     | rewrite lookup_insert_ne by done; destruct (_ !! port'); lia]).
Qed.

(** The factory, up to the point where it first gives control back, adds one
    callback at most. *)
Lemma createNode_grew item currentSource i slot w (k : CreatedNodeInfo -> World -> Outcome) :
  (∀ a w', outcomeWorld (k a w') = w') →
  grew w (outcomeWorld (createNode item currentSource (subscribeToNode i slot) w k)).
Proof.
  intros Hk.
  destruct (createNode_outcome item currentSource (subscribeToNode i slot) w k)
    as [(_ & k' & ->) | [(proto & port & _ & _ & ->)
                        | (proto & port & l & node & cb & ci & _ & _ & Hl & _ & _ & _ & _ & _ & ->)]];
    simpl.
  - apply sameRegistry_grew, sameRegistry_refl.
  - apply sameRegistry_grew, sameRegistry_refl.
  - rewrite Hk. eapply grew_sameRegistry_r; [by apply grew_attach |].
    apply sameRegistry_subscribeToNode.
Qed.

Lemma update_grew (w : World) : grew w (outcomeWorld (run update w)).
Proof.
  unfold run. rewrite update_prefix.
  eapply grew_sameRegistry_l; [apply sameRegistry_prefix |].
  generalize (prefix w) as w1. intros w1.
  unfold advance, mbind, M_bind, get, modify.
  destruct (playlist w1 !! sourceIndex w) as [item|];
    [| apply sameRegistry_grew, sameRegistry_refl].
  set (w2 := set_playingItems _ w1).
  change (next (playingItems w2)) with (next (playingItems w1)).
  assert (H2 : sameRegistry w1 w2) by (by unfold sameRegistry).
  eapply grew_sameRegistry_l; [exact H2 |].
  assert (Hpre : ∀ w3, grew w3 (outcomeWorld (prewarm (sourceIndex w) w3
                                               (fun _ w' => Finished w')))).
  { intros w3. unfold prewarm, mbind, M_bind, get.
    destruct (playlist w3 !! (sourceIndex w + 1)%nat) as [next'|];
      [| apply sameRegistry_grew, sameRegistry_refl].
    destruct (isLive (PlaylistItem.source next'));
      [| apply sameRegistry_grew, sameRegistry_refl].
    apply createNode_grew. intros a w'. reflexivity. }
  destruct (next (playingItems w1)) as [n|].
  - eapply grew_sameRegistry_l; [| apply Hpre].
    eapply sameRegistry_trans; [| apply sameRegistry_scheduleAdvance].
    unfold usePrestarted.
    eapply sameRegistry_trans; [| apply sameRegistry_refreshActive].
    by unfold sameRegistry.
  - unfold startImmediately, mbind, M_bind.
    apply createNode_grew. intros a w'. reflexivity.
Qed.

(** What one callback does to the quantities the loop depends on: nothing,
    or it has called [update], which moved the position on by one and added
    one entry at most, and if the process still runs the position was on an
    item. *)
Definition advanced (proto : Protocol) (port : nat) (s s1 : Sys) : Prop :=
  playlist (world s1) = playlist (world s) ∧
  sourceIndex (world s1) = S (sourceIndex (world s)) ∧
  (entries proto port (world s1) ≤ S (entries proto port (world s)))%nat ∧
  (halted s1 = false →
   (sourceIndex (world s) < length (playlist (world s)))%nat).

Lemma callUpdate_advanced proto port s :
  halted s = false → advanced proto port s (callUpdate s).
Proof.
  intros Hh. unfold advanced, callUpdate. rewrite Hh, world_settle, halted_settle.
  destruct (update_grew (world s)) as [Hp He].
  split; [exact Hp |]. split; [apply update_position |]. split; [apply He |].
  intros Hrun.
  destruct (playlist (world s) !! sourceIndex (world s)) as [item|] eqn:Hitem.
  - by eapply lookup_lt_Some.
  - rewrite (update_exits _ Hitem) in Hrun. discriminate Hrun.
Qed.

Lemma deleteCallback_entries proto' port' nodeId proto port w :
  entries proto port (deleteCallback proto' port' nodeId w) = entries proto port w.
Proof.
  unfold entries, deleteCallback.
  destruct proto, proto'; simpl; try done;
    (destruct (decide (port = port')) as [-> | Hne];
     [rewrite lookup_alter_eq; destruct (_ !! port'); simpl; [apply Map_delete_length | done]
     | by rewrite lookup_alter_ne]).
Qed.

Lemma runDisconnect_advanced proto port cb name s :
  halted s = false →
  runDisconnect cb name s = s ∨ advanced proto port s (runDisconnect cb name s).
Proof.
  intros Hh.
  assert (H : ∀ proto' port' nodeId,
            advanced proto port s (sync (deleteCallback proto' port' nodeId) (callUpdate s))).
  { intros proto' port' nodeId.
    pose proof (callUpdate_advanced proto port s Hh) as (Hp & Hs & He & Hrun).
    unfold sync. destruct (halted (callUpdate s)) eqn:Hh1.
    - split; [done |]. split; [done |]. split; [done |]. by rewrite Hh1.
    - unfold advanced. simpl. rewrite deleteCallback_entries.
      split; [by destruct proto' |]. split; [by destruct proto' |]. split; [done |].
      intros _. by apply Hrun. }
  destruct cb as [nodeId port' | nodeId port' [n|]]; simpl; auto.
  destruct (String.eqb name n); auto.
Qed.

(** The number of rounds the loop needs at most, from entry [i] on. *)
Definition rounds (proto : Protocol) (port : nat) (i : nat) (s : Sys) : nat :=
  (entries proto port (world s) - i) +
  2 * (length (playlist (world s)) - sourceIndex (world s)) + 1.

Lemma nodeOnDisconnect_ends fuel proto port name i s :
  (rounds proto port i s ≤ fuel)%nat →
  is_Some (nodeOnDisconnect fuel proto port name i s).
Proof.
  revert i s. induction fuel as [|fuel IH]; intros i s Hfuel.
  { unfold rounds in Hfuel. lia. }
  cbn [nodeOnDisconnect].
  destruct (halted s) eqn:Hh; [by eexists |].
  destruct (listeners proto (world s) !! port) as [l|] eqn:Hl; [| by eexists].
  destruct (ListenerNode.onDisconnect l !! i) as [entry|] eqn:Hi; [| by eexists].
  assert (Hlen : (i < entries proto port (world s))%nat).
  { unfold entries. rewrite Hl. by eapply lookup_lt_Some. }
  assert (Hskip : is_Some (nodeOnDisconnect fuel proto port name (S i) s)).
  { apply IH. unfold rounds in *. lia. }
  destruct entry as [[key fn]|]; [| exact Hskip].
  destruct (runDisconnect_advanced proto port fn name s Hh) as [-> | (Hp & Hs & He & Hrun)];
    [exact Hskip |].
  destruct (halted (runDisconnect fn name s)) eqn:Hh1.
  - destruct fuel as [|fuel]; [unfold rounds in Hfuel; lia |].
    cbn [nodeOnDisconnect]. rewrite Hh1. by eexists.
  - apply IH. specialize (Hrun eq_refl). unfold rounds in *.
    rewrite Hp, Hs. lia.
Qed.

Lemma nodeOnDisconnect_more fuel fuel' proto port name i s s' :
  nodeOnDisconnect fuel proto port name i s = Some s' →
  (fuel ≤ fuel')%nat →
  nodeOnDisconnect fuel' proto port name i s = Some s'.
Proof.
  revert fuel' i s. induction fuel as [|fuel IH]; intros fuel' i s; [done |].
  intros H Hle. destruct fuel' as [|fuel']; [lia |].
  cbn [nodeOnDisconnect] in *.
  destruct (halted s); [done |].
  destruct (listeners proto (world s) !! port) as [l|]; [| done].
  destruct (ListenerNode.onDisconnect l !! i) as [[[key fn]|]|]; [| | done].
  - apply IH; [done | lia].
  - apply IH; [done | lia].
Qed.

(** X8.  The loop of [nodeOnDisconnect] runs over the live [onDisconnect]
    map, to which the callbacks it calls add entries (each call of [update]
    can register the callback of the item it starts).  It ends all the same:
    in any state, after as many rounds at most as the map has entries, plus
    two for each item the playlist has left, plus one; it then yields one
    state, the same however many more rounds it is allowed.  So the
    disconnect of a registered listener is an event the program always gets
    through. *)
Theorem nodeOnDisconnect_terminates (proto : Protocol) (port : nat) (name : string)
    (i : nat) (s : Sys) :
  ∃ s',
    (∀ fuel, (rounds proto port i s ≤ fuel)%nat →
             nodeOnDisconnect fuel proto port name i s = Some s') ∧
    (halted s = false → is_Some (listeners proto (world s) !! port) →
     ∀ fuel, (rounds proto port 0 s ≤ fuel)%nat →
             is_Some (dispatch (disconnected proto port name fuel) s)).
Proof.
  destruct (nodeOnDisconnect_ends (rounds proto port i s) proto port name i s (le_n _))
    as [s' Hs'].
  exists s'. split.
  - intros fuel Hfuel. by eapply nodeOnDisconnect_more.
  - intros Hh [l Hl] fuel Hfuel. unfold dispatch. rewrite Hh, Hl. simpl.
    by apply nodeOnDisconnect_ends.
Qed.

(** ** Listener pre-creation, run to its end *)

(** The state of the program while [precreateListeners], called by [create],
    has [items] left to look at. *)
Definition precreating (items : list PlaylistItem.t) (w : World) : Sys :=
  settle precreateCall (precreateFrom items w (fun _ w' => Finished w'))
    (mkSys w [] false false []).

Lemma create_precreating playlist transitionDuration :
  create playlist transitionDuration =
  precreating playlist (newPlaylist playlist transitionDuration).
Proof. reflexivity. Qed.

(** The listener made for [port] when the engine hands out [handle]. *)
Definition register (proto : Protocol) (port : nat) (node : Node) (w : World) : World :=
  set_listeners proto (<[port := newListener node]> (listeners proto w)) w.

(** Whether [item] needs a listener that is not registered yet. *)
Definition needsListener (item : PlaylistItem.t) (w : World) : option (Protocol * nat) :=
  match listenerOf (PlaylistItem.source item) with
  | Some (proto, port) =>
      match listeners proto w !! port with
      | None => Some (proto, port)
      | Some _ => None
      end
  | None => None
  end.

(** One round of the loop: an item that needs no new listener is passed
    over; one that does stops the loop on the engine. *)
Lemma precreateFrom_head (item : PlaylistItem.t) (items : list PlaylistItem.t) (w : World) :
  match needsListener item w with
  | None =>
      precreateFrom (item :: items) w (fun _ w' => Finished w') =
      precreateFrom items w (fun _ w' => Finished w')
  | Some (proto, port) =>
      ∃ k',
        precreateFrom (item :: items) w (fun _ w' => Finished w') =
          Suspended w (awaitListener proto port) k' ∧
        (∀ e w', k' (failed e) w' = Rejected w' e) ∧
        (∀ node w', k' (created node) w' =
                    precreateFrom items (register proto port node w') (fun _ w' => Finished w'))
  end.
Proof.
  cbn [precreateFrom]. unfold mbind, M_bind, precreateItem, needsListener.
  destruct item as [b d src]. cbn [PlaylistItem.source].
  destruct src as [| |mode ? port|port ? ?| | |]; try reflexivity.
  - unfold mbind, M_bind, get, mret, M_ret.
    destruct mode; [reflexivity |]. simpl.
    destruct (srtListeners w !! port) eqn:Hp; [reflexivity |].
    eexists. split; [reflexivity |]. split; reflexivity.
  - unfold mbind, M_bind, get, mret, M_ret. simpl.
    destruct (rtmpListeners w !! port) eqn:Hp; [reflexivity |].
    eexists. split; [reflexivity |]. split; reflexivity.
Qed.

Lemma needsListener_Some item w proto port :
  needsListener item w = Some (proto, port) ↔
  listenerOf (PlaylistItem.source item) = Some (proto, port) ∧ listeners proto w !! port = None.
Proof.
  unfold needsListener.
  destruct (listenerOf (PlaylistItem.source item)) as [[proto' port']|];
    [| split; [done | by intros [? _]]].
  destruct (listeners proto' w !! port') eqn:E; split.
  - done.
  - intros [[= <- <-] H]. congruence.
  - intros [= <- <-]. done.
  - by intros [[= <- <-] _].
Qed.

(** The first item that needs a listener stops the loop on the engine; if
    there is none the loop ends where it started. *)
Lemma precreateFrom_first (items : list PlaylistItem.t) (w : World) :
  precreateFrom items w (fun _ w' => Finished w') = Finished w ∨
  ∃ proto port rest k',
    precreateFrom items w (fun _ w' => Finished w') =
      Suspended w (awaitListener proto port) k' ∧
    listeners proto w !! port = None ∧
    (∃ skipped item, items = skipped ++ item :: rest ∧
                     listenerOf (PlaylistItem.source item) = Some (proto, port)) ∧
    (∀ e w', k' (failed e) w' = Rejected w' e) ∧
    (∀ node w', k' (created node) w' =
                precreateFrom rest (register proto port node w') (fun _ w' => Finished w')).
Proof.
  induction items as [|item items IH]; [by left |].
  pose proof (precreateFrom_head item items w) as Hhead.
  destruct (needsListener item w) as [[proto port]|] eqn:Hneed.
  - destruct Hhead as (k' & Hk & Hf & Hc).
    apply needsListener_Some in Hneed as [Hl Hnone].
    right. exists proto, port, items, k'. split; [done |]. split; [done |].
    split; [| done]. by exists [], item.
  - rewrite Hhead.
    destruct IH as [IH | (proto & port & rest & k' & Hk & Hnone & (sk & it & Hit & Hl) & Hf & Hc)];
      [by left | right].
    exists proto, port, rest, k'. split; [done |]. split; [done |].
    split; [| done]. exists (item :: sk), it. split; [by rewrite Hit | done].
Qed.

(** The registries once every listener the items need has been made, the
    engine handing out its handles in order. *)
Fixpoint precreated (items : list PlaylistItem.t) (w : World) : World :=
  match items with
  | [] => w
  | item :: rest =>
      match needsListener item w with
      | Some (proto, port) =>
          precreated rest
            (register proto port (mkNode (nextHandle w) (listenerId proto port))
               (set_nextHandle (S (nextHandle w)) w))
      | None => precreated rest w
      end
  end.

Lemma precreating_runs (items : list PlaylistItem.t) (w : World) :
  ∃ n, dispatchAll (repeat (settles 0 ok) n) (precreating items w) =
         Some (mkSys (precreated items w) [] false false []) ∧
       nextHandle (precreated items w) = (nextHandle w + n)%nat.
Proof.
  revert w. induction items as [|item items IH]; intros w.
  - exists 0%nat. split; [reflexivity | simpl; lia].
  - pose proof (precreateFrom_head item items w) as Hhead.
    cbn [precreated].
    destruct (needsListener item w) as [[proto port]|] eqn:Hneed.
    + destruct Hhead as (k' & Hk & Hf & Hc).
      set (w1 := set_nextHandle (S (nextHandle w)) w).
      set (node := mkNode (nextHandle w) (listenerId proto port)).
      destruct (IH (register proto port node w1)) as (n & Hn & Hh).
      exists (S n). split.
      * cbn [repeat dispatchAll]. unfold precreating at 1. rewrite Hk.
        unfold dispatch. cbn [settle halted tasks app lookup world awaiting deliver].
        simpl. rewrite Hc. exact Hn.
      * rewrite Hh. destruct proto; simpl; lia.
    + destruct (IH w) as (n & Hn & Hh). exists n. split; [| exact Hh].
      unfold precreating. rewrite Hhead. exact Hn.
Qed.

#[export] Instance Protocol_eq_dec : EqDecision Protocol.
Proof. solve_decision. Defined.

Lemma listeners_register proto port node w proto' port' :
  listeners proto' (register proto port node w) !! port' =
  if decide (proto' = proto ∧ port' = port) then Some (newListener node)
  else listeners proto' w !! port'.
Proof.
  unfold register. case_decide as Heq.
  - destruct Heq as [-> ->]. destruct proto; simpl; by rewrite lookup_insert_eq.
  - destruct proto, proto'; simpl; try done;
      (rewrite lookup_insert_ne; [done |]; intros ->; by apply Heq).
Qed.

Lemma precreated_nextHandle items w : (nextHandle w ≤ nextHandle (precreated items w))%nat.
Proof.
  destruct (precreating_runs items w) as (n & _ & ->). lia.
Qed.

Lemma register_fields proto port node w :
  playlist (register proto port node w) = playlist w ∧
  transitionDuration (register proto port node w) = transitionDuration w ∧
  sourceIndex (register proto port node w) = sourceIndex w ∧
  playing (register proto port node w) = playing w ∧
  playingItems (register proto port node w) = playingItems w ∧
  heap (register proto port node w) = heap w ∧
  timers (register proto port node w) = timers w ∧
  inputs (register proto port node w) = inputs w ∧
  nextHandle (register proto port node w) = nextHandle w.
Proof. by destruct proto. Qed.

(** Pre-creation writes the registries and nothing else of the class. *)
Lemma precreated_fields items w :
  playlist (precreated items w) = playlist w ∧
  transitionDuration (precreated items w) = transitionDuration w ∧
  sourceIndex (precreated items w) = sourceIndex w ∧
  playing (precreated items w) = playing w ∧
  playingItems (precreated items w) = playingItems w ∧
  heap (precreated items w) = heap w ∧
  timers (precreated items w) = timers w ∧
  inputs (precreated items w) = inputs w.
Proof.
  revert w. induction items as [|item items IH]; intros w; [done |].
  cbn [precreated]. destruct (needsListener item w) as [[proto port]|]; [| apply IH].
  destruct (IH (register proto port (mkNode (nextHandle w) (listenerId proto port))
                  (set_nextHandle (S (nextHandle w)) w)))
    as (-> & -> & -> & -> & -> & -> & -> & ->).
  by destruct proto.
Qed.

(** A listener that is registered stays as it is. *)
Lemma precreated_keeps items w proto port l :
  listeners proto w !! port = Some l →
  listeners proto (precreated items w) !! port = Some l.
Proof.
  revert w. induction items as [|item items IH]; intros w Hl; [done |].
  cbn [precreated]. destruct (needsListener item w) as [[proto' port']|] eqn:Hneed;
    [| by apply IH].
  apply IH. rewrite listeners_register. case_decide as Heq.
  - destruct Heq as [-> ->]. apply needsListener_Some in Hneed as [_ Hnone].
    simpl in Hnone. congruence.
  - by destruct proto'.
Qed.

(** Every item served by a listener finds one. *)
Lemma precreated_covers items w item proto port :
  item ∈ items →
  listenerOf (PlaylistItem.source item) = Some (proto, port) →
  is_Some (listeners proto (precreated items w) !! port).
Proof.
  revert w. induction items as [|item' items IH]; intros w Hin Hl; [by inversion Hin |].
  cbn [precreated].
  apply elem_of_cons in Hin as [-> | Hin].
  - unfold needsListener. rewrite Hl.
    destruct (listeners proto w !! port) as [l|] eqn:Hw.
    + exists l. by apply precreated_keeps.
    + eexists. apply precreated_keeps. rewrite listeners_register.
      by rewrite decide_True.
  - destruct (needsListener item' w) as [[proto' port']|]; by apply IH.
Qed.

(** Where a registered listener comes from: it was there before, or it was
    made for an item of the list, under a fresh handle and under the
    identifier of its protocol and port. *)
Lemma precreated_origin items w proto port l :
  listeners proto (precreated items w) !! port = Some l →
  listeners proto w !! port = Some l ∨
  (∃ item, item ∈ items ∧ listenerOf (PlaylistItem.source item) = Some (proto, port)) ∧
  ∃ h, (nextHandle w ≤ h < nextHandle (precreated items w))%nat ∧
       l = newListener (mkNode h (listenerId proto port)).
Proof.
  revert w. induction items as [|item items IH]; intros w Hl; [by left |].
  cbn [precreated] in *.
  destruct (needsListener item w) as [[proto' port']|] eqn:Hneed.
  - set (w1 := register proto' port' (mkNode (nextHandle w) (listenerId proto' port'))
                 (set_nextHandle (S (nextHandle w)) w)) in *.
    pose proof (precreated_nextHandle items w1) as Hle.
    assert (Hh1 : nextHandle w1 = S (nextHandle w)) by (unfold w1; by destruct proto').
    apply needsListener_Some in Hneed as [Hitem Hnone].
    destruct (IH w1 Hl) as [Hold | ((it & Hin & Hit) & h & Hh & ->)].
    + unfold w1 in Hold. rewrite listeners_register in Hold. case_decide as Heq.
      * destruct Heq as [-> ->]. simplify_eq. right. split.
        -- exists item. split; [apply list_elem_of_here | done].
        -- exists (nextHandle w). split; [lia | done].
      * left. by destruct proto'.
    + right. split.
      * exists it. split; [by apply list_elem_of_further | done].
      * exists h. split; [lia | done].
  - destruct (IH w Hl) as [Hold | ((it & Hin & Hit) & h & Hh & ->)]; [by left | right].
    split; [| by exists h].
    exists it. split; [by apply list_elem_of_further | done].
Qed.

(** One request to the engine for each listener registered. *)
Lemma precreated_size items w :
  (size (srtListeners (precreated items w)) + size (rtmpListeners (precreated items w)) +
   nextHandle w =
   size (srtListeners w) + size (rtmpListeners w) + nextHandle (precreated items w))%nat.
Proof.
  revert w. induction items as [|item items IH]; intros w; [done |].
  cbn [precreated]. destruct (needsListener item w) as [[proto port]|] eqn:Hneed; [| apply IH].
  apply needsListener_Some in Hneed as [_ Hnone].
  pose proof (IH (register proto port (mkNode (nextHandle w) (listenerId proto port))
                    (set_nextHandle (S (nextHandle w)) w))) as H.
  destruct proto; simpl in *; rewrite map_size_insert_None in H by done; lia.
Qed.

(** X6.  Left to run, with the engine making every listener it is asked for,
    the pre-creation started by [create] comes to an end; it has then asked
    the engine for exactly one listener for each protocol and port that an
    item of the playlist is served from, however many items share it, and for
    no other; each is registered under its port with the node the engine
    made, called ["srt-<port>"] or ["rtmp-<port>"]; so every SRT listener
    item and every RTMP item finds its listener.  Nothing else of the
    controller has been written. *)
Theorem precreate_completes (playlist' : list PlaylistItem.t) (transitionDuration' : option Z) :
  ∃ n s',
    dispatchAll (repeat (settles 0 ok) n) (create playlist' transitionDuration') = Some s' ∧
    tasks s' = [] ∧ unhandled s' = [] ∧ halted s' = false ∧
    n = (size (srtListeners (world s')) + size (rtmpListeners (world s')))%nat ∧
    nextHandle (world s') = (5 + n)%nat ∧
    (∀ proto port,
       is_Some (listeners proto (world s') !! port) ↔
       ∃ item, item ∈ playlist' ∧
               listenerOf (PlaylistItem.source item) = Some (proto, port)) ∧
    (∀ proto port l,
       listeners proto (world s') !! port = Some l →
       ∃ h, (5 ≤ h < 5 + n)%nat ∧ l = newListener (mkNode h (listenerId proto port))) ∧
    (∀ item proto port,
       item ∈ playlist' → listenerOf (PlaylistItem.source item) = Some (proto, port) →
       ∃ h, registered proto port (world s') = Some (mkNode h (listenerId proto port))) ∧
    heap (world s') = [] ∧
    playingItems (world s') = mkSlots None None None ∧
    sourceIndex (world s') = 0%nat ∧
    inputs (world s') = [].
Proof.
  set (w := newPlaylist playlist' transitionDuration').
  destruct (precreating_runs playlist' w) as (n & Hrun & Hh).
  pose proof (precreated_size playlist' w) as Hsize.
  pose proof (precreated_fields playlist' w) as (_ & _ & Hsi & _ & Hpi & Hheap & _ & Hin).
  assert (Hempty : ∀ proto port, listeners proto w !! port = None).
  { intros [] port; apply lookup_empty. }
  assert (Horigin : ∀ proto port l,
            listeners proto (precreated playlist' w) !! port = Some l →
            (∃ item, item ∈ playlist' ∧
                     listenerOf (PlaylistItem.source item) = Some (proto, port)) ∧
            ∃ h, (5 ≤ h < 5 + n)%nat ∧ l = newListener (mkNode h (listenerId proto port))).
  { intros proto port l Hl.
    destruct (precreated_origin _ _ _ _ _ Hl) as [Hold | [Hitem (h & Hlt & ->)]].
    - by rewrite Hempty in Hold.
    - split; [done |]. exists h. split; [| done]. rewrite Hh in Hlt. exact Hlt. }
  exists n, (mkSys (precreated playlist' w) [] false false []).
  split; [exact Hrun |]. cbn [world tasks unhandled halted].
  split; [done |]. split; [done |]. split; [done |].
  split; [rewrite Hh in Hsize; simpl in Hsize; rewrite !map_size_empty in Hsize; lia |].
  split; [exact Hh |].
  split.
  { intros proto port. split.
    - intros [l Hl]. by destruct (Horigin _ _ _ Hl).
    - intros (item & Hin' & Hl). by eapply precreated_covers. }
  split; [intros proto port l Hl; by destruct (Horigin _ _ _ Hl) |].
  split.
  { intros item proto port Hin' Hl.
    destruct (precreated_covers playlist' w item proto port Hin' Hl) as [l Hl'].
    destruct (Horigin _ _ _ Hl') as [_ (h & _ & ->)].
    exists h. unfold registered. by rewrite Hl'. }
  done.
Qed.

Lemma precreating_idle items w :
  precreateFrom items w (fun _ w' => Finished w') = Finished w →
  ∀ ans, dispatch (settles 0 ans) (precreating items w) = None.
Proof.
  intros Hfin ans. unfold precreating. rewrite Hfin. reflexivity.
Qed.

Lemma precreating_after n items w s :
  dispatchAll (repeat (settles 0 ok) n) (precreating items w) = Some s →
  ∃ items' w', s = precreating items' w' ∧ ∀ x, x ∈ items' → x ∈ items.
Proof.
  revert items w. induction n as [|n IH]; intros items w.
  - intros [= <-]. by exists items, w.
  - cbn [repeat dispatchAll].
    destruct (precreateFrom_first items w)
      as [Hfin | (proto & port & rest & k' & Hk & Hnone & (sk & it & -> & Hl) & Hf & Hc)].
    + by rewrite precreating_idle.
    + unfold precreating at 1. rewrite Hk.
      unfold dispatch. cbn [settle halted tasks app lookup world awaiting deliver]. simpl.
      rewrite Hc. intros Hn.
      destruct (IH rest _ Hn) as (items' & w' & -> & Hsub).
      exists items', w'. split; [done |]. intros x Hx.
      apply elem_of_app. right. apply list_elem_of_further. by apply Hsub.
Qed.

(** X7.  If the engine refuses to make a listener, at whatever point of the
    pre-creation, the pre-creation stops there: nothing is written, no call
    is left suspended (the listener is not asked for again and the items
    after it are not looked at), and the error is a rejection that nobody
    handles, [create] having returned already.  The listener that was asked
    for is missing from the registry. *)
Theorem precreate_stops_on_failure (playlist' : list PlaylistItem.t)
    (transitionDuration' : option Z) (n : nat) (e : string) (s s' : Sys) :
  dispatchAll (repeat (settles 0 ok) n) (create playlist' transitionDuration') = Some s →
  dispatch (settles 0 (error e)) s = Some s' →
  world s' = world s ∧
  tasks s' = [] ∧
  unhandled s' = [e] ∧
  halted s' = false ∧
  ∃ item proto port,
    item ∈ playlist' ∧
    listenerOf (PlaylistItem.source item) = Some (proto, port) ∧
    registered proto port (world s') = None.
Proof.
  rewrite create_precreating. intros Hn He.
  destruct (precreating_after _ _ _ _ Hn) as (items & w & -> & Hsub).
  destruct (precreateFrom_first items w)
    as [Hfin | (proto & port & rest & k' & Hk & Hnone & (sk & it & -> & Hl) & Hf & Hc)].
  - by rewrite precreating_idle in He.
  - revert He. unfold precreating. rewrite Hk.
    unfold dispatch. cbn [settle halted tasks app lookup world awaiting deliver]. simpl.
    rewrite Hf. intros [= <-]. simpl.
    repeat split; try done.
    exists it, proto, port. split; [| split; [done |]].
    + apply Hsub, elem_of_app. right. apply list_elem_of_here.
    + unfold registered. by rewrite Hnone.
Qed.

Lemma precreate_stops_on_failure_witness :
  world (after [settles 0 ok; settles 0 (error "refused")] (create sharedPorts None)) =
    world (after [settles 0 ok] (create sharedPorts None)) ∧
  unhandled (after [settles 0 ok; settles 0 (error "refused")] (create sharedPorts None)) =
    ["refused"].
Proof.
  assert (H1 : dispatchAll (repeat (settles 0 ok) 1) (create sharedPorts None) =
               Some (after [settles 0 ok] (create sharedPorts None)))
    by (vm_compute; reflexivity).
  assert (H2 : dispatch (settles 0 (error "refused"))
                 (after [settles 0 ok] (create sharedPorts None)) =
               Some (after [settles 0 ok; settles 0 (error "refused")]
                       (create sharedPorts None)))
    by (vm_compute; reflexivity).
  destruct (precreate_stops_on_failure sharedPorts None 1 "refused" _ _ H1 H2)
    as (Hw & _ & Hu & _).
  split; [exact Hw | exact Hu].
Defined.

(** * Well-formed states

    What holds of the controller in every state of the running program,
    whatever the order in which the engine answers, timers fire and calls of
    [update] overlap. *)

Section WellFormed.
Context (pl : list PlaylistItem.t).

(** A [closeNode] closure that closes a node closes an input node of the
    factory. *)
Definition closeOk (c : CloseNode) : Prop :=
  isStandaloneNode c = true →
  ∃ i, (i < length pl)%nat ∧ id (cn_node c) = nodeIdOf i.

(** The state object at [r] on the heap: its item is the playlist entry at
    its index, its subscription maps to the pin of that index and writes the
    [ready] flag of this very object, and it is subscribed to the silence
    generator exactly if it is video only. *)
Definition stateOk (r : nat) (o : PlayingItem.t) : Prop :=
  pl !! PlayingItem.index o = Some (PlayingItem.item o) ∧
  (∃ node f,
     PlayingItem.sub o =
       Some (mkSub node
               (StreamSelector (PlayingItem.index o)
                  (nodeKind (PlaylistItem.source (PlayingItem.item o))) f r))) ∧
  PlayingItem.silenceSub o =
    (if AVKind_eqb (nodeKind (PlaylistItem.source (PlayingItem.item o))) Kvideo
     then Some (mkSub silence (SilenceSelector (PlayingItem.index o))) else None) ∧
  closeOk (PlayingItem.closeNode o).

(** The positions that have a state on the heap: the items that have been
    started or prewarmed. *)
Definition startedIn (h : list PlayingItem.t) (i : nat) : Prop :=
  ∃ r o, h !! r = Some o ∧ PlayingItem.index o = i.

Definition timerOk (h : list PlayingItem.t) (cb : TimerCallback) : Prop :=
  match cb with
  | durationExpired c => (c < length pl)%nat
  | deferredClose (Some c) => closeOk c
  | deferredClose None => True
  | closeNodeNow nodeId node => ∃ i, (i < length pl)%nat ∧ id node = nodeIdOf i
  | switchSource pin => ∃ i, startedIn h i ∧ pin = toString i
  end.

Definition okHeap (w : World) : Prop := ∀ r o, heap w !! r = Some o → stateOk r o.

Definition okSlots (w : World) : Prop :=
  ∀ r, prev (playingItems w) = Some r ∨ current (playingItems w) = Some r ∨
       next (playingItems w) = Some r →
       (r < length (heap w))%nat.

Definition okPlaying (w : World) : Prop :=
  ∀ i, playing w = Some i → startedIn (heap w) i.

Definition okTimers (w : World) : Prop :=
  (∀ t, t ∈ timers w → timerOk (heap w) (callback t) ∧ (timerId t < nextTimer w)%nat) ∧
  (∀ i, i ∈ timeouts w → (i < nextTimer w)%nat).

Definition okLog (w : World) : Prop :=
  (∀ pin, pin ∈ switched w → ∃ i, startedIn (heap w) i ∧ pin = toString i) ∧
  (∀ node, node ∈ closed w → ∃ i, (i < length pl)%nat ∧ id node = nodeIdOf i).

Definition okSubscribed (w : World) : Prop :=
  ∀ x, x ∈ subscribed w →
       ∃ r o, heap w !! r = Some o ∧
              (PlayingItem.sub o = Some x ∨ PlayingItem.silenceSub o = Some x).

Definition okListeners (w : World) : Prop :=
  ∀ proto port l,
    listeners proto w !! port = Some l →
    ∃ h, ListenerNode.node l = Some (mkNode h (listenerId proto port)).

(** The inputs the engine has made carry the identifier the factory asked
    for. *)
Definition okInputs (w : World) : Prop :=
  ∀ node settings,
    (node, settings) ∈ inputs w →
    id node = in_id settings ∧ ∃ i, (i < length pl)%nat ∧ in_id settings = nodeIdOf i.

Record wf0 (w : World) : Prop := mkWf {
  wf_playlist : playlist w = pl;
  wf_heap : okHeap w;
  wf_slots : okSlots w;
  wf_playing : okPlaying w;
  wf_timers : okTimers w;
  wf_log : okLog w;
  wf_subscribed : okSubscribed w;
  wf_listeners : okListeners w;
  wf_inputs : okInputs w }.

(** While the process runs the position is on the playlist or just past its
    end. *)
Definition wf (w : World) : Prop := wf0 w ∧ (sourceIndex w ≤ length pl)%nat.

Ltac same :=
  unfold okHeap, okSlots, okPlaying, okTimers, okLog, okSubscribed, okListeners, okInputs in *;
  simpl in *; assumption.

Lemma okListeners_split w :
  okListeners w ↔
  (∀ port l, srtListeners w !! port = Some l →
             ∃ h, ListenerNode.node l = Some (mkNode h (listenerId SRT port))) ∧
  (∀ port l, rtmpListeners w !! port = Some l →
             ∃ h, ListenerNode.node l = Some (mkNode h (listenerId RTMP port))).
Proof.
  unfold okListeners. split.
  - intros H. split; intros port l Hl; [apply (H SRT) | apply (H RTMP)]; done.
  - intros [Hs Hr] [] port l Hl; [by apply Hs | by apply Hr].
Qed.

(** ** The operations keep states well-formed *)

Lemma stateOk_index r o : stateOk r o → (PlayingItem.index o < length pl)%nat.
Proof. intros (H & _). by eapply lookup_lt_Some. Qed.

Lemma timerOk_mono h h' cb :
  (∀ i, startedIn h i → startedIn h' i) → timerOk h cb → timerOk h' cb.
Proof.
  intros Hm. destruct cb as [c | [c|] | nodeId node | pin]; simpl; try done.
  intros (i & Hi & ->). exists i. split; [by apply Hm | done].
Qed.

(** The parts of a well-formed state that speak of started positions go
    over to a state whose heap has the states of those positions still. *)
Lemma started_mono w w' :
  (∀ i, startedIn (heap w) i → startedIn (heap w') i) →
  playing w' = playing w → timers w' = timers w → nextTimer w' = nextTimer w →
  timeouts w' = timeouts w → switched w' = switched w → closed w' = closed w →
  okPlaying w ∧ okTimers w ∧ okLog w → okPlaying w' ∧ okTimers w' ∧ okLog w'.
Proof.
  intros Hm Hp Ht Hn Hto Hs Hc (Hplay & [Ht1 Ht2] & [Hl1 Hl2]).
  unfold okPlaying, okTimers, okLog. rewrite Hp, Ht, Hn, Hto, Hs, Hc.
  split; [| split; split]; try done.
  - intros i Hi. by apply Hm, Hplay.
  - intros t Hin. destruct (Ht1 t Hin) as [Hok Hlt]. split; [| done].
    by eapply timerOk_mono.
  - intros pin Hin. destruct (Hl1 pin Hin) as (i & Hi & ->). exists i. split; [by apply Hm | done].
Qed.

Lemma startedIn_app h l i : startedIn h i → startedIn (h ++ l) i.
Proof. intros (r & o & Hr & Ho). exists r, o. split; [by apply lookup_app_l_Some | done]. Qed.

Lemma startedIn_alter (f : PlayingItem.t -> PlayingItem.t) r h i :
  (∀ o, PlayingItem.index (f o) = PlayingItem.index o) →
  startedIn h i → startedIn (alter f r h) i.
Proof.
  intros Hf (j & o & Hj & Ho). destruct (decide (r = j)) as [-> | Hne].
  - exists j, (f o). rewrite list_lookup_alter_eq, Hj. split; [done | by rewrite Hf].
  - exists j, o. by rewrite list_lookup_alter_ne.
Qed.

Lemma okTimers_filter (p : Timer -> bool) w w' :
  heap w' = heap w →
  timers w' = List.filter p (timers w) → nextTimer w' = nextTimer w →
  (∀ i, i ∈ timeouts w' → i ∈ timeouts w) →
  okTimers w → okTimers w'.
Proof.
  intros Hh Ht Hn Hto [H1 H2]. unfold okTimers. rewrite Hh, Ht, Hn. split.
  - intros t Hin. apply H1. apply list_elem_of_In, filter_In in Hin.
    apply list_elem_of_In, Hin.
  - intros i Hi. by apply H2, Hto.
Qed.

Lemma okTimers_append cb ms w w' :
  heap w' = heap w →
  timers w' = timers w ++ [mkTimer (nextTimer w) ms cb] →
  nextTimer w' = S (nextTimer w) →
  (∀ i, i ∈ timeouts w' → i ∈ timeouts w ∨ i = nextTimer w) →
  timerOk (heap w) cb →
  okTimers w → okTimers w'.
Proof.
  intros Hh Ht Hn Hto Hcb [H1 H2]. unfold okTimers. rewrite Hh, Ht, Hn. split.
  - intros t Hin. apply elem_of_app in Hin as [Hin | Hin].
    + destruct (H1 t Hin). split; [done | lia].
    + apply list_elem_of_singleton in Hin as ->. simpl. split; [done | lia].
  - intros i Hi. destruct (Hto i Hi) as [Hi' | ->]; [| lia].
    specialize (H2 i Hi'). lia.
Qed.

Lemma wf0_prefix w : wf0 w → wf0 (prefix w).
Proof.
  intros [Hpl Hheap Hslots Hplay Htim Hlog Hsub Hlis Hinp].
  unfold prefix. rewrite clearTimeouts_eq.
  split; try same.
  eapply (okTimers_filter _ w); [reflexivity | reflexivity | reflexivity | | exact Htim].
  simpl. intros i Hi. inversion Hi.
Qed.

Lemma wf0_set_prev x w :
  (∀ r, x = Some r → (r < length (heap w))%nat) →
  wf0 w → wf0 (set_playingItems (set_prev x (playingItems w)) w).
Proof.
  intros Hx [Hpl Hheap Hslots Hplay Htim Hlog Hsub Hlis Hinp].
  split; try same.
  intros r. simpl. intros [Hr | [Hr | Hr]]; [by apply Hx | |]; apply Hslots; auto.
Qed.

Lemma wf0_setTimeout cb ms w :
  timerOk (heap w) cb → wf0 w → wf0 (snd (setTimeout cb ms w)).
Proof.
  intros Hcb [Hpl Hheap Hslots Hplay Htim Hlog Hsub Hlis Hinp].
  split; try same.
  eapply (okTimers_append _ _ w); [reflexivity | reflexivity | reflexivity | | exact Hcb | exact Htim].
  simpl. auto.
Qed.

Lemma wf0_activateSource c w :
  startedIn (heap w) (PlayingItem.index c) → wf0 w → wf0 (activateSource c w).
Proof.
  intros Hc Hw. unfold activateSource. apply wf0_setTimeout; [by exists (PlayingItem.index c) |].
  destruct Hw as [Hpl Hheap Hslots Hplay Htim Hlog Hsub Hlis Hinp].
  split; try same.
  intros i. simpl. by intros [= <-].
Qed.

Lemma deref_Some w r o : deref w r = Some o → ∃ i, r = Some i ∧ heap w !! i = Some o.
Proof. destruct r as [i|]; simpl; [| done]. intros H. by exists i. Qed.

Lemma wf0_refreshActive w : wf0 w → wf0 (refreshActive w).
Proof.
  intros Hw.
  destruct (refreshActive_cases w) as [-> | (c & Hc & _ & _ & ->)]; [done |].
  apply wf0_activateSource; [| done].
  assert (Hd : ∃ r, deref w r = Some c).
  { destruct Hc as [Hc | (_ & _ & Hc)]; eauto. }
  destruct Hd as (r & Hd). apply deref_Some in Hd as (i & _ & Hi).
  by exists i, c.
Qed.

Lemma wf0_usePrestarted n w :
  next (playingItems w) = Some n → wf0 w → wf0 (usePrestarted n w).
Proof.
  intros Hn Hw. unfold usePrestarted. apply wf0_refreshActive.
  destruct Hw as [Hpl Hheap Hslots Hplay Htim Hlog Hsub Hlis Hinp].
  split; try same.
  intros r. simpl. intros [Hr | [Hr | Hr]]; [| | done]; apply Hslots; auto.
  simplify_eq. auto.
Qed.

Lemma wf0_scheduleAdvance c w : (c < length pl)%nat → wf0 w → wf0 (scheduleAdvance c w).
Proof.
  intros Hc Hw. unfold scheduleAdvance.
  destruct (truthyZ _); [| done].
  destruct (deref w (current (playingItems w)) ≫= PlayingItem.duration) as [d|]; [| done].
  destruct Hw as [Hpl Hheap Hslots Hplay Htim Hlog Hsub Hlis Hinp].
  split; try same.
  eapply (okTimers_append _ _ w); [reflexivity | reflexivity | reflexivity | | exact Hc | exact Htim].
  simpl. intros i Hi. apply elem_of_app in Hi as [Hi | Hi]; [by left | right].
  by apply list_elem_of_singleton in Hi.
Qed.

Lemma subs_elem x o : x ∈ subs o →
  ∃ o', o = Some o' ∧ (PlayingItem.sub o' = Some x ∨ PlayingItem.silenceSub o' = Some x).
Proof.
  destruct o as [o'|]; simpl; [| by intros H; inversion H].
  intros Hx. exists o'. split; [done |].
  destruct (PlayingItem.sub o') as [a|], (PlayingItem.silenceSub o') as [b|]; simpl in Hx;
    repeat (apply elem_of_cons in Hx as [-> | Hx]); auto; by inversion Hx.
Qed.

Lemma okSubscribed_refreshSubs w : okSubscribed (refreshSubs w).
Proof.
  intros x. unfold refreshSubs. cbn [subscribed set_subscribed heap].
  cbn [flat_map]. rewrite app_nil_r. rewrite !elem_of_app.
  intros [Hx | [Hx | Hx]]; apply subs_elem in Hx as (o & Hd & Hx);
    apply deref_Some in Hd as (i & _ & Hi); eauto.
Qed.

Lemma wf0_refreshSubs w : wf0 w → wf0 (refreshSubs w).
Proof.
  intros [Hpl Hheap Hslots Hplay Htim Hlog Hsub Hlis Hinp].
  split; try same. apply okSubscribed_refreshSubs.
Qed.

Lemma wf0_subscribeToNode i slot ci w :
  pl !! i = Some (ci_item ci) →
  ci_kind ci = nodeKind (PlaylistItem.source (ci_item ci)) →
  closeOk (ci_closeNode ci) →
  wf0 w → wf0 (subscribeToNode i slot ci w).
Proof.
  intros Hi Hkind Hclose Hw. unfold subscribeToNode. apply wf0_refreshSubs.
  destruct Hw as [Hpl Hheap Hslots Hplay Htim Hlog Hsub Hlis Hinp].
  match goal with |- wf0 ?x => set (w' := x) end.
  destruct (started_mono w w') as (Hplay' & Htim' & Hlog'); try done.
  { intros j. apply startedIn_app. }
  subst w'. split; try done.
  - intros r o. cbn [heap set_heap set_playingItems].
    intros Hr. apply lookup_app_Some in Hr as [Hr | [Hlen Hr]]; [by apply Hheap |].
    apply list_lookup_singleton_Some in Hr as [Hr <-].
    assert (r = length (heap w)) as -> by lia.
    split; [exact Hi |]. split; [| split; [| exact Hclose]]; simpl.
    + rewrite Hkind. eauto.
    + by rewrite Hkind.
  - intros r. cbn [heap set_heap set_playingItems playingItems]. rewrite length_app. simpl.
    destruct slot; simpl; intros [Hr | [Hr | Hr]]; simplify_eq; try lia;
      (assert (r < length (heap w))%nat; [apply Hslots; auto | lia]).
  - intros x Hx. destruct (Hsub x Hx) as (r & o & Hr & Ho).
    exists r, o. split; [| done]. cbn [heap set_heap set_playingItems].
    by apply lookup_app_l_Some.
Qed.

Lemma okSubscribed_alter (f : PlayingItem.t -> PlayingItem.t) r w w' :
  heap w' = alter f r (heap w) → subscribed w' = subscribed w →
  (∀ o, PlayingItem.sub (f o) = PlayingItem.sub o ∧
        PlayingItem.silenceSub (f o) = PlayingItem.silenceSub o) →
  okSubscribed w → okSubscribed w'.
Proof.
  intros Hh Hs Hf Hsub x. rewrite Hs, Hh. intros Hx.
  destruct (Hsub x Hx) as (i & o & Hi & Ho).
  destruct (decide (r = i)) as [-> | Hne].
  - exists i, (f o). rewrite list_lookup_alter_eq, Hi. split; [done |].
    destruct (Hf o) as [-> ->]. done.
  - exists i, o. by rewrite list_lookup_alter_ne.
Qed.

Lemma okHeap_alter (f : PlayingItem.t -> PlayingItem.t) r w w' :
  heap w' = alter f r (heap w) →
  (∀ i o, stateOk i o → stateOk i (f o)) →
  okHeap w → okHeap w'.
Proof.
  intros Hh Hf Hheap i o. rewrite Hh. rewrite list_lookup_alter.
  case_decide as Heq.
  - subst. destruct (heap w !! i) as [o'|] eqn:Ho; simpl; [| done].
    intros [= <-]. by apply Hf, Hheap.
  - apply Hheap.
Qed.

Lemma okSlots_alter (f : PlayingItem.t -> PlayingItem.t) r w w' :
  heap w' = alter f r (heap w) → playingItems w' = playingItems w →
  okSlots w → okSlots w'.
Proof.
  intros Hh Hp Hslots i. rewrite Hh, Hp, length_alter. apply Hslots.
Qed.

Lemma wf0_setDurationAndClose r d c w :
  closeOk c → wf0 w → wf0 (setDurationAndClose r d c w).
Proof.
  intros Hc [Hpl Hheap Hslots Hplay Htim Hlog Hsub Hlis Hinp].
  unfold setDurationAndClose.
  match goal with |- wf0 ?x => set (w' := x) end.
  destruct (started_mono w w') as (Hplay' & Htim' & Hlog'); try done.
  { intros j. by apply startedIn_alter. }
  subst w'. split; try done.
  - eapply okHeap_alter; [reflexivity | | exact Hheap].
    intros i o (H1 & H2 & H3 & H4). by repeat split.
  - eapply okSlots_alter; [reflexivity | reflexivity | exact Hslots].
  - eapply okSubscribed_alter; [reflexivity | reflexivity | | exact Hsub]. by intros o.
Qed.

Lemma wf0_runSelector sel streams w : wf0 w → wf0 (snd (runSelector sel streams w)).
Proof.
  intros Hw. destruct sel as [i kind f state |]; [| done].
  cbn [runSelector snd]. apply wf0_refreshActive.
  destruct Hw as [Hpl Hheap Hslots Hplay Htim Hlog Hsub Hlis Hinp].
  match goal with |- wf0 ?x => set (w' := x) end.
  destruct (started_mono w w') as (Hplay' & Htim' & Hlog'); try done.
  { intros j. by apply startedIn_alter. }
  subst w'. split; try done.
  - eapply okHeap_alter; [reflexivity | | exact Hheap].
    intros j o (H1 & H2 & H3 & H4). by repeat split.
  - eapply okSlots_alter; [reflexivity | reflexivity | exact Hslots].
  - eapply okSubscribed_alter; [reflexivity | reflexivity | | exact Hsub]. by intros o.
Qed.

Lemma wf0_closeNode c w : closeOk c → wf0 w → wf0 (closeNode c w).
Proof.
  intros Hc Hw. unfold closeNode.
  destruct (isStandaloneNode c) eqn:Hs; [| done].
  apply wf0_setTimeout; [| done]. by apply Hc.
Qed.

Lemma wf0_onClose node w : wf0 w → wf0 (onClose node w).
Proof.
  intros Hw. unfold onClose.
  destruct (deref w (prev (playingItems w))) as [p|]; [| done].
  destruct (PlayingItem.sub p) as [s|]; [| done].
  destruct (Node_eqb (sub_source s) node); [| done].
  apply wf0_refreshSubs, wf0_set_prev; done.
Qed.

Lemma wf0_clearTimeout t w : wf0 w → wf0 (clearTimeout t w).
Proof.
  intros [Hpl Hheap Hslots Hplay Htim Hlog Hsub Hlis Hinp].
  unfold clearTimeout. split; try same.
  eapply (okTimers_filter _ w); [reflexivity | reflexivity | reflexivity | | exact Htim]. auto.
Qed.

Lemma wf0_closed node w :
  (∃ i, (i < length pl)%nat ∧ id node = nodeIdOf i) →
  wf0 w → wf0 (set_closed (closed w ++ [node]) w).
Proof.
  intros Hn [Hpl Hheap Hslots Hplay Htim [Hsw Hcl] Hsub Hlis Hinp].
  split; try same. split; [same |].
  intros x. simpl. intros Hx. apply elem_of_app in Hx as [Hx | Hx]; [by apply Hcl |].
  by apply list_elem_of_singleton in Hx as ->.
Qed.

Lemma wf0_switched pin w :
  (∃ i, startedIn (heap w) i ∧ pin = toString i) →
  wf0 w → wf0 (set_switched (switched w ++ [pin]) w).
Proof.
  intros Hn [Hpl Hheap Hslots Hplay Htim [Hsw Hcl] Hsub Hlis Hinp].
  split; try same. split; [| same].
  intros x. simpl. intros Hx. apply elem_of_app in Hx as [Hx | Hx]; [by apply Hsw |].
  by apply list_elem_of_singleton in Hx as ->.
Qed.

Lemma wf0_set_listeners proto m w :
  (∀ port l, m !! port = Some l →
             ∃ h, ListenerNode.node l = Some (mkNode h (listenerId proto port))) →
  wf0 w → wf0 (set_listeners proto m w).
Proof.
  intros Hm [Hpl Hheap Hslots Hplay Htim Hlog Hsub Hlis Hinp].
  apply okListeners_split in Hlis as [Hs Hr].
  destruct proto; (split; try same); apply okListeners_split; split; simpl; auto.
Qed.

Lemma wf0_alter_listener proto (f : ListenerNode.t -> ListenerNode.t) port w :
  (∀ l, ListenerNode.node (f l) = ListenerNode.node l) →
  wf0 w → wf0 (set_listeners proto (alter f port (listeners proto w)) w).
Proof.
  intros Hf Hw. apply wf0_set_listeners; [| done].
  intros port' l. destruct (decide (port = port')) as [-> | Hne].
  - rewrite lookup_alter_eq.
    destruct (listeners proto w !! port') as [l0|] eqn:Hl; simpl; [| done].
    intros [= <-]. rewrite Hf. by eapply (wf_listeners _ Hw).
  - rewrite lookup_alter_ne by done. apply (wf_listeners _ Hw).
Qed.

Lemma wf0_attach proto port nodeId cb l w :
  listeners proto w !! port = Some l →
  wf0 w →
  wf0 (set_listeners proto (<[port := attach nodeId cb l]> (listeners proto w)) w).
Proof.
  intros Hl Hw. apply wf0_set_listeners; [| done].
  intros port' l'. destruct (decide (port = port')) as [-> | Hne].
  - rewrite lookup_insert_eq. intros [= <-]. simpl. by eapply (wf_listeners _ Hw).
  - rewrite lookup_insert_ne by done. apply (wf_listeners _ Hw).
Qed.

Lemma wf0_register proto port node w :
  id node = listenerId proto port →
  wf0 w →
  wf0 (set_listeners proto (<[port := newListener node]> (listeners proto w)) w).
Proof.
  intros Hid Hw. apply wf0_set_listeners; [| done].
  intros port' l'. destruct (decide (port = port')) as [-> | Hne].
  - rewrite lookup_insert_eq. intros [= <-]. simpl. exists (handle node).
    rewrite <- Hid. by destruct node.
  - rewrite lookup_insert_ne by done. apply (wf_listeners _ Hw).
Qed.

Lemma wf0_deleteCallback proto port nodeId w : wf0 w → wf0 (deleteCallback proto port nodeId w).
Proof. intros Hw. unfold deleteCallback. by apply wf0_alter_listener. Qed.

(** What the program may ask of the engine: an input under an identifier of
    the factory. *)
Definition awaitOk (a : Await) : Prop :=
  match a with
  | awaitInput settings => ∃ i, (i < length pl)%nat ∧ in_id settings = nodeIdOf i
  | _ => True
  end.

Lemma wf0_deliver a ans w r w' :
  awaitOk a → deliver a ans w = Some (r, w') → wf0 w → wf0 w'.
Proof.
  intros Ha Hd [Hpl Hheap Hslots Hplay Htim Hlog Hsub Hlis Hinp].
  destruct a, ans; simpl in Hd; simplify_eq; split; try same.
  intros node st. simpl. intros Hin.
  apply elem_of_app in Hin as [Hin | Hin]; [by apply Hinp |].
  apply list_elem_of_singleton in Hin. simplify_eq. simpl. split; [done | exact Ha].
Qed.

(** What an answer of the engine carries: the node it made has the
    identifier it was asked for. *)
Definition respOk (a : Await) (r : Response) : Prop :=
  match a, r with
  | awaitInput settings, created node => id node = in_id settings
  | awaitListener proto port, created node => id node = listenerId proto port
  | _, _ => True
  end.

Lemma deliver_respOk a ans w r w' : deliver a ans w = Some (r, w') → respOk a r.
Proof. destruct a, ans; simpl; intros; simplify_eq; done. Qed.

Lemma deliver_sourceIndex a ans w r w' :
  deliver a ans w = Some (r, w') → sourceIndex w' = sourceIndex w.
Proof. destruct a, ans; simpl; intros; simplify_eq; done. Qed.

(** ** Calls that keep states well-formed

    An outcome is [sound] when the state it leaves is well-formed and what
    is left of the call, resumed in any well-formed state with an answer of
    the engine, is sound again.  The process is not ended by a sound
    outcome. *)

Inductive sound : Outcome -> Prop :=
| sound_Finished w : wf w → sound (Finished w)
| sound_Rejected w e : wf w → sound (Rejected w e)
| sound_Suspended w a k :
    wf w → awaitOk a → (∀ r w', wf w' → respOk a r → sound (k r w')) →
    sound (Suspended w a k).

(** [m], run in a well-formed state, is sound, and the value it hands over
    satisfies [Post]. *)
Definition keeps {A} (m : M A) (Post : A -> Prop) : Prop :=
  ∀ k, (∀ a w', wf w' → Post a → sound (k a w')) → ∀ w, wf w → sound (m w k).

Lemma keeps_ret {A} (a : A) (Post : A -> Prop) : Post a → keeps (mret a) Post.
Proof. intros Ha k Hk w Hw. by apply Hk. Qed.

Lemma keeps_bind {A B} (m : M A) (f : A -> M B) (P : A -> Prop) (Q : B -> Prop) :
  keeps m P → (∀ a, P a → keeps (f a) Q) → keeps (m ≫= f) Q.
Proof.
  intros Hm Hf k Hk w Hw. unfold mbind, M_bind.
  apply Hm; [| done]. intros a w' Hw' Ha. by apply (Hf a Ha).
Qed.

Lemma keeps_weaken {A} (m : M A) (P Q : A -> Prop) :
  keeps m P → (∀ a, P a → Q a) → keeps m Q.
Proof. intros Hm HPQ k Hk w Hw. apply Hm; [| done]. intros a w' Hw' Ha. apply Hk; auto. Qed.

Lemma keeps_modify (f : World -> World) :
  (∀ w, wf w → wf (f w)) → keeps (modify f) (fun _ => True).
Proof. intros Hf k Hk w Hw. apply Hk; [by apply Hf | done]. Qed.

Lemma keeps_throw {A} e (Post : A -> Prop) : keeps (throw e) Post.
Proof. intros k Hk w Hw. by constructor. Qed.

Lemma keeps_await a : awaitOk a → keeps (await a) (respOk a).
Proof.
  intros Ha k Hk w Hw. constructor; [done | done |]. intros r w' Hw' Hr. by apply Hk.
Qed.

Lemma wf_same w w' : wf w → wf0 w' → sourceIndex w' = sourceIndex w → wf w'.
Proof. intros [_ Hs] Hw' Heq. split; [done | by rewrite Heq]. Qed.

Lemma subscribeToNode_sourceIndex i slot ci w :
  sourceIndex (subscribeToNode i slot ci w) = sourceIndex w.
Proof. reflexivity. Qed.

Lemma wf_subscribeToNode i slot ci w :
  pl !! i = Some (ci_item ci) →
  ci_kind ci = nodeKind (PlaylistItem.source (ci_item ci)) →
  closeOk (ci_closeNode ci) →
  wf w → wf (subscribeToNode i slot ci w).
Proof.
  intros Hi Hk Hc Hw. eapply wf_same; [exact Hw | | reflexivity].
  apply wf0_subscribeToNode; try done. apply Hw.
Qed.

Lemma wf_set_listeners_attach proto port nodeId cb l w :
  listeners proto w !! port = Some l →
  wf w → wf (set_listeners proto (<[port := attach nodeId cb l]> (listeners proto w)) w).
Proof.
  intros Hl Hw. eapply wf_same; [exact Hw | | by destruct proto].
  apply wf0_attach; [done | apply Hw].
Qed.

(** The factory keeps states well-formed, and the [closeNode] it returns
    closes an input node of the factory, if any. *)
Lemma createNode_keeps item currentSource i slot :
  pl !! i = Some item → (currentSource < length pl)%nat →
  keeps (createNode item currentSource (subscribeToNode i slot))
    (fun ci => closeOk (ci_closeNode (cr_info ci))).
Proof.
  intros Hi Hc k Hk w Hw.
  destruct (createNode_outcome item currentSource (subscribeToNode i slot) w k)
    as [(Hl & k' & Hk') | [(proto & port & _ & _ & ->)
                        | (proto & port & l & node & cb & ci & _ & _ & Hl & _ & Hitem & Hkind
                           & _ & Hclose & ->)]].
  - clear Hk'. unfold createNode.
    assert (Hst : ∀ promise,
              sound (createStandalone item ("input-" +:+ toString currentSource)
                       (subscribeToNode i slot) promise w k)).
    { intros promise.
      unfold createStandalone, mbind, M_bind, await, modify, mret, M_ret, throw.
      constructor; [done | by exists currentSource |]. intros r w' Hw' Hr.
      destruct r as [node | e | d |]; try by constructor.
      simpl in Hr.
      assert (Hclose : closeOk (mkCloseNode true ("input-" +:+ toString currentSource) node)).
      { intros _. exists currentSource. split; [done |]. exact Hr. }
      apply Hk; [| exact Hclose]. by apply wf_subscribeToNode. }
    destruct (PlaylistItem.source item) as [| |[] ? ?|? ? ?| | |]; simplify_eq/=; apply Hst.
  - by constructor.
  - apply Hk.
    + apply wf_subscribeToNode; try done.
      * by rewrite Hitem.
      * by rewrite Hkind, Hitem.
      * rewrite Hclose. intros Hs. discriminate Hs.
      * by apply wf_set_listeners_attach.
    + rewrite Hclose. intros Hs. discriminate Hs.
Qed.

Lemma durationOf_keeps item createInfo :
  keeps (durationOf item createInfo) (fun _ => True).
Proof.
  intros k Hk w Hw. unfold durationOf.
  destruct (truthyZ (PlaylistItem.duration item)); [by apply Hk |].
  unfold awaitDuration, mbind, M_bind, await, mret, M_ret, throw.
  destruct (cr_duration createInfo); constructor; try done.
  - intros r w' Hw' _. by apply Hk.
  - intros r w' Hw' _. destruct r; try by constructor. by apply Hk.
Qed.

Lemma wf_setDurationAndClose r d c w :
  closeOk c → wf w → wf (setDurationAndClose r d c w).
Proof.
  intros Hc Hw. eapply wf_same; [exact Hw | | reflexivity].
  apply wf0_setDurationAndClose; [done | apply Hw].
Qed.

Lemma startImmediately_keeps item currentSource :
  pl !! currentSource = Some item →
  keeps (startImmediately item currentSource) (fun _ => True).
Proof.
  intros Hitem. unfold startImmediately.
  eapply keeps_bind; [apply createNode_keeps; [done | by eapply lookup_lt_Some] |].
  intros createInfo Hclose.
  eapply keeps_bind; [by apply keeps_await |]. intros _ _.
  eapply keeps_bind; [apply durationOf_keeps |]. intros duration _.
  apply keeps_modify. intros w Hw.
  destruct (current (playingItems w)); [| done].
  by apply wf_setDurationAndClose.
Qed.

Lemma prewarm_keeps currentSource :
  (currentSource < length pl)%nat →
  keeps (prewarm currentSource) (fun _ => True).
Proof.
  intros Hc k Hk w Hw. unfold prewarm, mbind, M_bind, get.
  destruct (playlist w !! (currentSource + 1)%nat) as [next'|] eqn:Hn; [| by apply Hk].
  destruct (isLive (PlaylistItem.source next')); [| by apply Hk].
  rewrite (wf_playlist _ (proj1 Hw)) in Hn.
  apply (createNode_keeps next' currentSource (currentSource + 1) nextSlot Hn Hc); [| done].
  intros createInfo w1 Hw1 Hclose.
  unfold await. constructor; [done | done |]. intros _ w2 Hw2 _.
  apply (durationOf_keeps next' createInfo); [| done].
  intros duration w3 Hw3 _.
  destruct (next (playingItems w3)); [| by constructor].
  unfold modify. apply Hk; [| done]. by apply wf_setDurationAndClose.
Qed.

Lemma wf_prefix w :
  wf w → (sourceIndex w < length pl)%nat → wf (prefix w).
Proof.
  intros [Hw _] Hlt. split; [by apply wf0_prefix |].
  unfold prefix. simpl. lia.
Qed.

Lemma scheduleAdvance_sourceIndex c w : sourceIndex (scheduleAdvance c w) = sourceIndex w.
Proof. unfold scheduleAdvance, setTimeout. repeat case_match; reflexivity. Qed.

Lemma refreshActive_sourceIndex w : sourceIndex (refreshActive w) = sourceIndex w.
Proof. unfold refreshActive, activateSource, setTimeout. repeat case_match; reflexivity. Qed.

(** A call of [update] made in a well-formed state on an item of the
    playlist is sound; made past the end, it ends the process. *)
Lemma update_sound w item :
  wf w → playlist w !! sourceIndex w = Some item → sound (run update w).
Proof.
  intros Hw Hitem. unfold run. rewrite update_prefix.
  assert (Hlt : (sourceIndex w < length pl)%nat).
  { rewrite <- (wf_playlist _ (proj1 Hw)). by eapply lookup_lt_Some. }
  assert (Hitem' : pl !! sourceIndex w = Some item).
  { by rewrite <- (wf_playlist _ (proj1 Hw)). }
  pose proof (wf_prefix w Hw Hlt) as Hw1.
  unfold advance, mbind, M_bind, get, modify.
  rewrite playlist_prefix, Hitem.
  set (w2 := set_playingItems _ (prefix w)).
  assert (Hw2 : wf w2).
  { eapply wf_same; [exact Hw1 | | reflexivity].
    apply wf0_set_prev; [| apply Hw1].
    intros r Hr. apply (wf_slots _ (proj1 Hw1)). auto. }
  assert (Hrest : ∀ w3, wf w3 →
            sound (prewarm (sourceIndex w) (scheduleAdvance (sourceIndex w) w3)
                     (fun _ w' => Finished w'))).
  { intros w3 Hw3. apply (prewarm_keeps (sourceIndex w) Hlt).
    - intros _ w' Hw' _. by constructor.
    - eapply wf_same; [exact Hw3 | | apply scheduleAdvance_sourceIndex].
      apply wf0_scheduleAdvance; [done | apply Hw3]. }
  change (next (playingItems w2)) with (next (playingItems (prefix w))).
  destruct (next (playingItems (prefix w))) as [n|] eqn:Hn.
  - apply Hrest. eapply wf_same; [exact Hw2 | |].
    + apply wf0_usePrestarted; [exact Hn | apply Hw2].
    + unfold usePrestarted. by rewrite refreshActive_sourceIndex.
  - apply (startImmediately_keeps item (sourceIndex w) Hitem'); [| done].
    intros _ w3 Hw3 _. by apply Hrest.
Qed.

Lemma precreateItem_keeps item : keeps (precreateItem item) (fun _ => True).
Proof.
  intros k Hk w Hw. unfold precreateItem.
  assert (Hreg : ∀ proto port node w',
            wf w' → id node = listenerId proto port →
            wf (set_listeners proto (<[port := newListener node]> (listeners proto w')) w')).
  { intros proto port node w' Hw' Hid.
    eapply wf_same; [exact Hw' | | by destruct proto].
    apply wf0_register; [done | apply Hw']. }
  destruct (PlaylistItem.source item) as [| |mode ? port|port ? ?| | |]; try by apply Hk.
  - unfold mbind, M_bind, get, await, modify, mret, M_ret, throw.
    destruct mode; [by apply Hk |].
    destruct (srtListeners w !! port); [by apply Hk |].
    constructor; [done | done |]. intros r w' Hw' Hr. destruct r; try by constructor.
    apply Hk; [| done]. by apply (Hreg SRT).
  - unfold mbind, M_bind, get, await, modify, mret, M_ret, throw.
    destruct (rtmpListeners w !! port); [by apply Hk |].
    constructor; [done | done |]. intros r w' Hw' Hr. destruct r; try by constructor.
    apply Hk; [| done]. by apply (Hreg RTMP).
Qed.

Lemma precreateFrom_keeps items : keeps (precreateFrom items) (fun _ => True).
Proof.
  induction items as [|item rest IH]; simpl.
  - by apply keeps_ret.
  - eapply keeps_bind; [apply precreateItem_keeps |]. intros _ _. apply IH.
Qed.

Lemma precreate_sound w : wf w → sound (run precreateListeners w).
Proof.
  intros Hw. unfold run, precreateListeners, mbind, M_bind, get.
  apply precreateFrom_keeps; [| done]. intros _ w' Hw' _. by constructor.
Qed.

(** ** The event loop keeps states well-formed *)

Definition taskOk (t : Task) : Prop :=
  awaitOk (awaiting t) ∧
  ∀ r w', wf w' → respOk (awaiting t) r → sound (resume t r w').

(** The state of the program: well-formed, and either running, with the
    position at most the length of the playlist and every suspended call
    sound, or ended, with the position one more than that length. *)
Definition sysOk (s : Sys) : Prop :=
  wf0 (world s) ∧
  if halted s then sourceIndex (world s) = S (length pl)
  else (sourceIndex (world s) ≤ length pl)%nat ∧ Forall taskOk (tasks s).

Lemma sysOk_wf s : sysOk s → halted s = false → wf (world s).
Proof. intros [Hw H] Hh. rewrite Hh in H. split; [done | apply H]. Qed.

Lemma sysOk_settle kind o w ts ov un :
  sound o → Forall taskOk ts → sysOk (settle kind o (mkSys w ts false ov un)).
Proof.
  intros Ho Hts. destruct Ho as [w1 Hw | w1 e Hw | w1 a k Hw Ha Hk]; simpl.
  - split; [apply Hw |]. simpl. split; [apply Hw | done].
  - split; [apply Hw |]. simpl. split; [apply Hw | done].
  - split; [apply Hw |]. simpl. split; [apply Hw |].
    apply Forall_app. split; [done |]. by constructor.
Qed.

Lemma sysOk_sync (f : World -> World) s :
  (wf0 (world s) → wf0 (f (world s))) →
  sourceIndex (f (world s)) = sourceIndex (world s) →
  sysOk s → sysOk (sync f s).
Proof.
  intros Hf Hs Hok. unfold sync. destruct (halted s) eqn:Hh; [done |].
  destruct Hok as [Hw H]. rewrite Hh in H.
  split; [by apply Hf |]. simpl. rewrite Hh, Hs. done.
Qed.

Lemma sysOk_callUpdate s : sysOk s → sysOk (callUpdate s).
Proof.
  intros Hok. unfold callUpdate. destruct (halted s) eqn:Hh; [done |].
  pose proof (sysOk_wf s Hok Hh) as Hw.
  destruct Hok as [_ H]. rewrite Hh in H. destruct H as [Hle Hts].
  destruct (playlist (world s) !! sourceIndex (world s)) as [item|] eqn:Hitem.
  - apply sysOk_settle; [by eapply update_sound | done].
  - rewrite (update_exits _ Hitem). simpl. split; [apply wf0_prefix, Hw |].
    cbn [halted world]. unfold prefix. rewrite clearTimeouts_eq. simpl.
    apply lookup_ge_None in Hitem. rewrite (wf_playlist _ (proj1 Hw)) in Hitem.
    lia.
Qed.

Lemma sysOk_runDisconnect cb name s : sysOk s → sysOk (runDisconnect cb name s).
Proof.
  intros Hok.
  assert (H : ∀ proto port nodeId,
            sysOk (sync (deleteCallback proto port nodeId) (callUpdate s))).
  { intros. apply sysOk_sync; [apply wf0_deleteCallback | by destruct proto |].
    by apply sysOk_callUpdate. }
  destruct cb as [nodeId port | nodeId port [n|]]; simpl; auto.
  destruct (String.eqb name n); auto.
Qed.

Lemma sysOk_nodeOnDisconnect fuel proto port name i s s' :
  nodeOnDisconnect fuel proto port name i s = Some s' → sysOk s → sysOk s'.
Proof.
  revert i s. induction fuel as [|fuel IH]; intros i s; simpl; [done |].
  destruct (halted s); [by intros [= <-] |].
  destruct (listeners proto (world s) !! port) as [l|]; [| by intros [= <-]].
  destruct (ListenerNode.onDisconnect l !! i) as [[[key fn]|]|]; [| | by intros [= <-]].
  - intros H Hs. eapply IH; [exact H |]. by apply sysOk_runDisconnect.
  - intros H Hs. by eapply IH.
Qed.

Lemma sysOk_runTimer cb s :
  timerOk (heap (world s)) cb → sysOk s → sysOk (runTimer cb s).
Proof.
  intros Hcb Hok. destruct cb as [c | [c|] | nodeId node | pin]; simpl.
  - pose proof (sysOk_callUpdate s Hok) as Hok1.
    apply sysOk_sync; [| reflexivity | done].
    intros Hw. apply wf0_setTimeout; [| done].
    destruct (deref (world s) (current (playingItems (world s)))) as [o|] eqn:Ho;
      simpl; [| done].
    apply deref_Some in Ho as (r & _ & Hr).
    destruct Hok as [Hw0 _]. by destruct (wf_heap _ Hw0 r o Hr) as (_ & _ & _ & Hc).
  - apply sysOk_sync; [by apply wf0_closeNode | | done].
    unfold closeNode. by destruct (isStandaloneNode c).
  - done.
  - apply sysOk_sync; [by apply wf0_closed | reflexivity | done].
  - apply sysOk_sync; [by apply wf0_switched | reflexivity | done].
Qed.

Lemma heap_sync_clearTimeout t s : heap (world (sync (clearTimeout t) s)) = heap (world s).
Proof. unfold sync. by destruct (halted s). Qed.

Lemma findTimer_elem t w x : findTimer t w = Some x → x ∈ timers w ∧ timerId x = t.
Proof.
  unfold findTimer. intros H. apply find_some in H as [Hin Heq].
  split; [by apply list_elem_of_In | by apply Nat.eqb_eq].
Qed.

Lemma closeNode_sourceIndex c w : sourceIndex (closeNode c w) = sourceIndex w.
Proof. unfold closeNode. by destruct (isStandaloneNode c). Qed.

Lemma onClose_sourceIndex node w : sourceIndex (onClose node w) = sourceIndex w.
Proof. unfold onClose. repeat case_match; reflexivity. Qed.

Lemma runSelector_sourceIndex sel streams w :
  sourceIndex (snd (runSelector sel streams w)) = sourceIndex w.
Proof.
  destruct sel; [| done]. cbn [runSelector snd]. by rewrite refreshActive_sourceIndex.
Qed.

Lemma sysOk_dispatch ev s s' :
  dispatch ev s = Some s' → sysOk s → sysOk s'.
Proof.
  revert ev s s'.
  apply (dispatch_cases (fun s s' => sysOk s → sysOk s')).
  - intros s _. apply sysOk_callUpdate.
  - intros s i t ans r w Hh Ht Hd Hok.
    pose proof (sysOk_wf s Hok Hh) as Hw.
    destruct Hok as [_ H]. rewrite Hh in H. destruct H as [Hle Hts].
    rewrite Hh. apply sysOk_settle; [| by apply Forall_delete].
    destruct (Forall_lookup_1 _ _ _ _ Hts Ht) as [Ha Hk].
    apply Hk.
    + split; [eapply wf0_deliver; [exact Ha | exact Hd | apply Hw] |].
      rewrite (deliver_sourceIndex _ _ _ _ _ Hd). apply Hw.
    + by eapply deliver_respOk.
  - intros s t x Hh Hx Hok.
    apply findTimer_elem in Hx as [Hin _].
    apply sysOk_runTimer.
    + rewrite heap_sync_clearTimeout.
      destruct Hok as [Hw _]. by destruct (proj1 (wf_timers _ Hw) x Hin).
    + apply sysOk_sync; [apply wf0_clearTimeout | reflexivity | done].
  - intros s node settings Hh Hfind Hhook Hok. unfold onEnded.
    apply sysOk_callUpdate, sysOk_sync; [| apply closeNode_sourceIndex | done].
    intros Hw0. pose proof (wf_inputs _ Hw0) as Hin.
    apply wf0_closeNode; [| done]. intros _. simpl.
    unfold findInput in Hfind.
    destruct (List.find _ (inputs (world s))) as [[node' settings']|] eqn:Hf; [| done].
    simpl in Hfind. simplify_eq.
    apply find_some in Hf as [Hf Heq]. simpl in Heq.
    apply list_elem_of_In, Hin in Hf as [Hid (i & Hi & Hset)].
    exists i. split; [done |].
    unfold Node_eqb in Heq. apply andb_true_iff in Heq as [_ Heq].
    apply String.eqb_eq in Heq. congruence.
  - intros s node Hh Hok.
    apply sysOk_sync; [apply wf0_onClose | apply onClose_sourceIndex | done].
  - intros s i streams x Hh Hx Hok.
    apply sysOk_sync; [apply wf0_runSelector | apply runSelector_sourceIndex | done].
  - intros s proto port name fuel s' Hh H Hok. by eapply sysOk_nodeOnDisconnect.
Qed.

Lemma wf_newPlaylist transitionDuration' : wf (newPlaylist pl transitionDuration').
Proof.
  split; [| simpl; lia].
  split.
  - reflexivity.
  - intros r o Hr. simpl in Hr. by rewrite lookup_nil in Hr.
  - intros r. simpl. by intros [? | [? | ?]].
  - intros i Hi. simpl in Hi. discriminate Hi.
  - split; simpl; intros ? H; inversion H.
  - split; simpl; intros ? H; inversion H.
  - intros x H. inversion H.
  - intros [] port l Hl; simpl in Hl; by rewrite lookup_empty in Hl.
  - intros node st H. inversion H.
Qed.

Lemma sysOk_create transitionDuration' : sysOk (create pl transitionDuration').
Proof.
  unfold create. apply sysOk_settle; [| by constructor].
  apply precreate_sound, wf_newPlaylist.
Qed.

Lemma sysOk_reachable transitionDuration' s :
  reachable pl transitionDuration' s → sysOk s.
Proof.
  induction 1 as [| s s' _ IH [ev Hev]]; [apply sysOk_create |].
  by eapply sysOk_dispatch.
Qed.

End WellFormed.

(** ** What holds in every state of the running program *)

(** Two positions have the same decimal name only if they are the same: pins
    and node identifiers name positions without clashes. *)
Lemma toString_inj (i j : nat) : toString i = toString j → i = j.
Proof.
  unfold toString. intros H.
  assert (Hnn : ∀ n, Nat.to_uint n ≠ Decimal.Nil).
  { intros n Hn. pose proof (Unsigned.of_to n) as Hof. rewrite Hn in Hof.
    simpl in Hof. subst n. discriminate Hn. }
  apply Unsigned.to_uint_inj.
  pose proof (NilZero.usu _ (Hnn i)) as Hi. pose proof (NilZero.usu _ (Hnn j)) as Hj.
  rewrite H in Hi. congruence.
Qed.

(** The transition duration is written by the constructor only. *)
Definition sameTransition (w w' : World) : Prop :=
  transitionDuration w' = transitionDuration w.

Ltac solve_sameTransition :=
  intros; unfold sameTransition in *; unfold_ops; repeat case_match; simpl; congruence.

#[export] Instance sameTransition_step : StepRel sameTransition.
Proof. split; solve_sameTransition. Qed.

#[export] Instance sameTransition_precreate : PrecreateKeeps sameTransition.
Proof. split; [apply _ |]; solve_sameTransition. Qed.

#[export] Instance sameTransition_update : UpdateKeeps sameTransition.
Proof. split; [apply _ | ..]; solve_sameTransition. Qed.

#[export] Instance sameTransition_events : EventsKeep sameTransition.
Proof.
  split; [apply _ | ..]; try solve_sameTransition.
  - intros w. unfold sameTransition, prefix. by rewrite clearTimeouts_eq.
  - intros sel streams w. unfold sameTransition.
    destruct sel; [| done]. cbn [runSelector snd].
    unfold refreshActive, activateSource, setTimeout. repeat case_match; reflexivity.
  - intros a ans w r w' Hd. unfold sameTransition.
    destruct a, ans; simpl in Hd; simplify_eq; reflexivity.
Qed.

(** X9.  In every state of the running program the configuration is the one
    [create] was given: the playlist, and the transition duration, which is
    300 if none or 0 was given.  And the position never runs away: while the
    process runs [sourceIndex] is at most the length of the playlist, and the
    process has ended exactly in the states in which it is one more than
    that, which is where the call of [update] that found no item left it. *)
Theorem position_in_bounds (playlist' : list PlaylistItem.t)
    (transitionDuration' : option Z) (s : Sys) :
  reachable playlist' transitionDuration' s →
  playlist (world s) = playlist' ∧
  transitionDuration (world s) =
    match transitionDuration' with
    | Some d => if Z.eqb d 0 then 300%Z else d
    | None => 300%Z
    end ∧
  (sourceIndex (world s) ≤ S (length playlist'))%nat ∧
  (halted s = true ↔ sourceIndex (world s) = S (length playlist')).
Proof.
  intros Hr. destruct (sysOk_reachable _ _ _ Hr) as [Hw H].
  split; [apply Hw |].
  split.
  { rewrite (reachable_R sameTransition _ _ _ Hr). simpl.
    destruct transitionDuration' as [d|]; simpl; [| done]. by destruct (Z.eqb d 0). }
  destruct (halted s).
  - rewrite H. split; [lia | done].
  - destruct H as [Hle _]. split; [lia |]. split; [done | lia].
Qed.

Lemma position_in_bounds_witness :
  reachable tsThenRtp None prewarmed ∧
  playlist (world prewarmed) = tsThenRtp ∧
  (sourceIndex (world prewarmed) ≤ S (length tsThenRtp))%nat.
Proof.
  assert (Hr : reachable tsThenRtp None prewarmed) by apply reachable_after.
  split; [exact Hr |].
  destruct (position_in_bounds tsThenRtp None prewarmed Hr) as (Hp & _ & Hle & _).
  split; [exact Hp | exact Hle].
Defined.

(** X10.  In every state of the running program: no slot dangles; every
    state object the controller has made is the state of the playlist entry
    at its [index]; its subscription maps streams to the pin named after that
    index, takes the kind of its source, and writes the [ready] flag of that
    very object; it is subscribed to the silence generator exactly if its
    source is an image; and the switcher's subscription list is made of
    subscriptions of such state objects. *)
Theorem slots_hold_playlist_items (playlist' : list PlaylistItem.t)
    (transitionDuration' : option Z) (s : Sys) :
  reachable playlist' transitionDuration' s →
  (∀ r, prev (playingItems (world s)) = Some r ∨ current (playingItems (world s)) = Some r ∨
        next (playingItems (world s)) = Some r →
        is_Some (heap (world s) !! r)) ∧
  (∀ r o, heap (world s) !! r = Some o →
     playlist' !! PlayingItem.index o = Some (PlayingItem.item o) ∧
     (∃ node f,
        PlayingItem.sub o =
          Some (mkSub node
                  (StreamSelector (PlayingItem.index o)
                     (nodeKind (PlaylistItem.source (PlayingItem.item o))) f r))) ∧
     PlayingItem.silenceSub o =
       match PlaylistItem.source (PlayingItem.item o) with
       | image _ _ => Some (mkSub silence (SilenceSelector (PlayingItem.index o)))
       | _ => None
       end) ∧
  (∀ x, x ∈ subscribed (world s) →
     ∃ r o, heap (world s) !! r = Some o ∧
            (PlayingItem.sub o = Some x ∨ PlayingItem.silenceSub o = Some x)).
Proof.
  intros Hr. destruct (sysOk_reachable _ _ _ Hr) as [Hw _].
  split; [| split].
  - intros r Hslot. apply lookup_lt_is_Some. by apply (wf_slots _ _ Hw).
  - intros r o Ho. destruct (wf_heap _ _ Hw r o Ho) as (Hitem & Hsub & Hsil & _).
    split; [done |]. split; [done |]. rewrite Hsil.
    by destruct (PlaylistItem.source (PlayingItem.item o)).
  - apply (wf_subscribed _ _ Hw).
Qed.

Lemma slots_hold_playlist_items_witness :
  reachable tsThenRtp None prewarmed ∧
  next (playingItems (world prewarmed)) = Some 1%nat ∧
  is_Some (heap (world prewarmed) !! 1%nat).
Proof.
  assert (Hr : reachable tsThenRtp None prewarmed) by apply reachable_after.
  assert (Hn : next (playingItems (world prewarmed)) = Some 1%nat) by (vm_compute; reflexivity).
  split; [exact Hr |]. split; [exact Hn |].
  destruct (slots_hold_playlist_items tsThenRtp None prewarmed Hr) as (Hs & _).
  apply Hs. right. right. exact Hn.
Defined.

(** X11.  In every state of the running program, the switcher has only been
    told to switch (and the timers still pending will only tell it to
    switch) to a pin that names the position of an item that has a state
    object, so one whose subscription was made; [playing] is such a position
    too.  Different positions have different pins. *)
Theorem switches_name_started_items (playlist' : list PlaylistItem.t)
    (transitionDuration' : option Z) (s : Sys) :
  reachable playlist' transitionDuration' s →
  (∀ pin, pin ∈ switched (world s) →
     ∃ i r o, pin = toString i ∧ heap (world s) !! r = Some o ∧
              PlayingItem.index o = i ∧ playlist' !! i = Some (PlayingItem.item o)) ∧
  (∀ t pin, t ∈ timers (world s) → callback t = switchSource pin →
     ∃ i r o, pin = toString i ∧ heap (world s) !! r = Some o ∧
              PlayingItem.index o = i ∧ playlist' !! i = Some (PlayingItem.item o)) ∧
  (∀ i, playing (world s) = Some i →
     ∃ r o, heap (world s) !! r = Some o ∧ PlayingItem.index o = i ∧
            playlist' !! i = Some (PlayingItem.item o)) ∧
  (∀ i j, toString i = toString j → i = j).
Proof.
  intros Hr. destruct (sysOk_reachable _ _ _ Hr) as [Hw _].
  assert (Hst : ∀ i, startedIn (heap (world s)) i →
                     ∃ r o, heap (world s) !! r = Some o ∧ PlayingItem.index o = i ∧
                            playlist' !! i = Some (PlayingItem.item o)).
  { intros i (r & o & Ho & Hi). exists r, o. split; [done |]. split; [done |].
    destruct (wf_heap _ _ Hw r o Ho) as (Hitem & _). by rewrite <- Hi. }
  split; [| split; [| split]].
  - intros pin Hpin. destruct (proj1 (wf_log _ _ Hw) pin Hpin) as (i & Hi & ->).
    destruct (Hst i Hi) as (r & o & H). by exists i, r, o.
  - intros t pin Ht Hcb. destruct (proj1 (wf_timers _ _ Hw) t Ht) as [Hok _].
    rewrite Hcb in Hok. destruct Hok as (i & Hi & ->).
    destruct (Hst i Hi) as (r & o & H). by exists i, r, o.
  - intros i Hi. apply Hst. by apply (wf_playing _ _ Hw).
  - apply toString_inj.
Qed.

(** A TS file with a video and an audio stream, started and switched to. *)
Definition playingFile : Sys :=
  after [callStart; settles 0 ok; settles 0 ok; settles 0 ok;
         streamsChanged 0
           [mkStream (mkStreamKey 1 "a" 1 "source") audioMessage;
            mkStream (mkStreamKey 1 "v" 2 "source") videoMessage];
         fires 0]
    (create [tsItem None] None).

Lemma switches_name_started_items_witness :
  reachable [tsItem None] None playingFile ∧
  switched (world playingFile) = ["0"] ∧
  ∃ i r o, "0" = toString i ∧ heap (world playingFile) !! r = Some o ∧
           PlayingItem.index o = i ∧ [tsItem None] !! i = Some (PlayingItem.item o).
Proof.
  assert (Hr : reachable [tsItem None] None playingFile) by apply reachable_after.
  assert (Hs : switched (world playingFile) = ["0"]) by (vm_compute; reflexivity).
  split; [exact Hr |]. split; [exact Hs |].
  destruct (switches_name_started_items [tsItem None] None playingFile Hr) as (H & _).
  apply H. rewrite Hs. apply list_elem_of_here.
Defined.

Lemma nodeIdOf_listenerId i proto port : nodeIdOf i ≠ listenerId proto port.
Proof. by destruct proto. Qed.

(** X12.  In every state of the running program, the nodes the controller
    has closed, and those the pending timers will close, are input nodes of
    the factory (they carry an identifier ["input-<i>"] of a position of the
    playlist); every registered listener carries the identifier of its
    protocol and port, so no listener node has been closed and no pending
    timer closes one: a listener stays up as long as the process runs. *)
Theorem listeners_are_never_closed (playlist' : list PlaylistItem.t)
    (transitionDuration' : option Z) (s : Sys) :
  reachable playlist' transitionDuration' s →
  (∀ node, node ∈ closed (world s) →
     ∃ i, (i < length playlist')%nat ∧ id node = nodeIdOf i) ∧
  (∀ t nodeId node, t ∈ timers (world s) → callback t = closeNodeNow nodeId node →
     ∃ i, (i < length playlist')%nat ∧ id node = nodeIdOf i) ∧
  (∀ proto port node,
     registered proto port (world s) = Some node →
     id node = listenerId proto port ∧
     (node ∉ closed (world s)) ∧
     ∀ t nodeId, t ∈ timers (world s) → callback t ≠ closeNodeNow nodeId node).
Proof.
  intros Hr. destruct (sysOk_reachable _ _ _ Hr) as [Hw _].
  assert (Htim : ∀ t nodeId node, t ∈ timers (world s) →
                   callback t = closeNodeNow nodeId node →
                   ∃ i, (i < length playlist')%nat ∧ id node = nodeIdOf i).
  { intros t nodeId node Ht Hcb. destruct (proj1 (wf_timers _ _ Hw) t Ht) as [Hok _].
    by rewrite Hcb in Hok. }
  split; [apply (proj2 (wf_log _ _ Hw)) |]. split; [exact Htim |].
  intros proto port node Hreg. unfold registered in Hreg.
  destruct (listeners proto (world s) !! port) as [l|] eqn:Hl; [| done].
  simpl in Hreg. destruct (wf_listeners _ _ Hw proto port l Hl) as (h & Hnode).
  rewrite Hnode in Hreg. simplify_eq. split; [done |]. split.
  - intros Hin. destruct (proj2 (wf_log _ _ Hw) _ Hin) as (i & _ & Hid).
    simpl in Hid. symmetry in Hid. by apply nodeIdOf_listenerId in Hid.
  - intros t nodeId Ht Hcb. destruct (Htim _ _ _ Ht Hcb) as (i & _ & Hid).
    simpl in Hid. symmetry in Hid. by apply nodeIdOf_listenerId in Hid.
Qed.

Lemma listeners_are_never_closed_witness :
  reachable [srtListenerItem 5000] None
    (after [settles 0 ok; callStart] (create [srtListenerItem 5000] None)) ∧
  registered SRT 5000
    (world (after [settles 0 ok; callStart] (create [srtListenerItem 5000] None))) =
    Some (mkNode 5 "srt-5000") ∧
  mkNode 5 "srt-5000" ∉
    closed (world (after [settles 0 ok; callStart] (create [srtListenerItem 5000] None))).
Proof.
  assert (Hr : reachable [srtListenerItem 5000] None
                 (after [settles 0 ok; callStart] (create [srtListenerItem 5000] None)))
    by apply reachable_after.
  assert (Hreg : registered SRT 5000
                   (world (after [settles 0 ok; callStart]
                             (create [srtListenerItem 5000] None))) =
                 Some (mkNode 5 "srt-5000")) by (vm_compute; reflexivity).
  split; [exact Hr |]. split; [exact Hreg |].
  destruct (listeners_are_never_closed _ _ _ Hr) as (_ & _ & H).
  destruct (H SRT 5000%nat _ Hreg) as (_ & Hnot & _). exact Hnot.
Defined.

(** ** The end of a standalone input *)

(** After its prefix, [update] cancels no timer. *)
Definition timersGrow (w w' : World) : Prop := ∀ t, t ∈ timers w → t ∈ timers w'.

Ltac solve_timersGrow :=
  intros; unfold timersGrow; unfold_ops; repeat case_match; simpl; intros;
  rewrite ?elem_of_app; auto.

#[export] Instance timersGrow_step : StepRel timersGrow.
Proof. split; unfold timersGrow; auto. Qed.

#[export] Instance timersGrow_precreate : PrecreateKeeps timersGrow.
Proof. split; [apply _ |]. solve_timersGrow. Qed.

#[export] Instance timersGrow_update : UpdateKeeps timersGrow.
Proof. split; [apply _ | ..]; solve_timersGrow. Qed.

Lemma update_timersGrow (w : World) :
  timersGrow (prefix w) (outcomeWorld (run update w)).
Proof.
  unfold run. rewrite update_prefix.
  apply (guar_world timersGrow).
  eapply (advance_kept timersGrow); [| apply R_refl].
  intros a w0 w' _ Hw'. by constructor.
Qed.

Lemma findTimer_unique (w : World) (x : Timer) :
  NoDup (map timerId (timers w)) → x ∈ timers w → findTimer (timerId x) w = Some x.
Proof.
  intros Hnd Hin. unfold findTimer.
  destruct (List.find _ (timers w)) as [y|] eqn:Hy.
  - apply find_some in Hy as [Hy Heq]. apply Nat.eqb_eq in Heq.
    f_equal. eapply NoDup_map_inj; eauto. by apply list_elem_of_In.
  - exfalso. eapply find_none in Hy; [| by apply list_elem_of_In].
    simpl in Hy. by rewrite Nat.eqb_refl in Hy.
Qed.

(** X14.  When a standalone input that has an end hook ends (end of file of
    a TS or MP4 file, disconnection of an SRT caller), in any state of the
    running program: the controller sets a timer that closes that node
    1000 ms later and calls [update] at once, which moves the position on by
    one and ends the process exactly if the position was already past the
    last item.  If the process goes on, the advance has not cancelled the
    close: the timer is pending, and when it fires the node is closed. *)
Theorem end_of_input_closes_and_advances (playlist' : list PlaylistItem.t)
    (transitionDuration' : option Z) (s : Sys) (node : Node) (settings : InputSettings) :
  reachable playlist' transitionDuration' s →
  halted s = false →
  findInput node (world s) = Some settings →
  hasEndHook (in_source settings) = true →
  ∃ s1,
    dispatch (ended node) s = Some s1 ∧
    sourceIndex (world s1) = S (sourceIndex (world s)) ∧
    (halted s1 = true ↔ sourceIndex (world s) = length playlist') ∧
    (halted s1 = false →
     findTimer (nextTimer (world s)) (world s1) =
       Some (mkTimer (nextTimer (world s)) 1000 (closeNodeNow (in_id settings) node)) ∧
     ∃ s2, dispatch (fires (nextTimer (world s))) s1 = Some s2 ∧
           closed (world s2) = closed (world s1) ++ [node]).
Proof.
  intros Hr Hh Hfind Hhook.
  set (close := mkTimer (nextTimer (world s)) 1000 (closeNodeNow (in_id settings) node)).
  assert (Hd : dispatch (ended node) s = Some (onEnded (in_id settings) node s)).
  { unfold dispatch. rewrite Hh, Hfind. simpl. by rewrite Hhook. }
  exists (onEnded (in_id settings) node s). split; [exact Hd |].
  assert (Hr1 : reachable playlist' transitionDuration' (onEnded (in_id settings) node s)).
  { eapply reachable_step; [exact Hr | by eexists]. }
  destruct (sysOk_reachable _ _ _ Hr) as [Hw Hpos]. rewrite Hh in Hpos.
  destruct Hpos as [Hle _].
  unfold onEnded in *.
  set (s0 := set_world (closeNode (mkCloseNode true (in_id settings) node) (world s)) s).
  assert (Hsync : sync (closeNode (mkCloseNode true (in_id settings) node)) s = s0).
  { unfold sync. by rewrite Hh. }
  rewrite Hsync in *.
  assert (Hh0 : halted s0 = false) by exact Hh.
  assert (Hw0 : world s0 =
                set_nextTimer (S (nextTimer (world s)))
                  (set_timers (timers (world s) ++ [close]) (world s))) by reflexivity.
  assert (Hpl0 : playlist (world s0) = playlist') by (rewrite Hw0; apply Hw).
  assert (Hsi0 : sourceIndex (world s0) = sourceIndex (world s)) by (by rewrite Hw0).
  split; [| split].
  - unfold callUpdate. rewrite Hh0, world_settle, update_position. by rewrite Hsi0.
  - unfold callUpdate. rewrite Hh0, halted_settle. split.
    + intros Hhalt.
      destruct (playlist (world s0) !! sourceIndex (world s0)) as [item|] eqn:Hitem.
      * pose proof (update_noExit (world s0) (ex_intro _ item Hitem)) as Hne.
        destruct (run update (world s0)); simpl in *; done.
      * apply lookup_ge_None in Hitem. rewrite Hpl0, Hsi0 in Hitem. lia.
    + intros Heq. rewrite update_exits; [done |].
      apply lookup_ge_None. rewrite Hpl0, Hsi0. lia.
  - intros Hh1.
    assert (Hin : close ∈ timers (world (callUpdate s0))).
    { unfold callUpdate. rewrite Hh0, world_settle.
      apply update_timersGrow. unfold prefix. rewrite clearTimeouts_eq. simpl.
      apply list_elem_of_In, filter_In. split.
      - apply in_or_app. right. by left.
      - apply negb_true_iff. unfold cancelled.
        destruct (existsb _ (timeouts (world s))) eqn:Hex; [| done].
        apply existsb_exists in Hex as (i & Hi & Heq). apply Nat.eqb_eq in Heq.
        apply list_elem_of_In in Hi.
        pose proof (proj2 (wf_timers _ _ Hw) i Hi) as Hlt. simpl in Heq. lia. }
    assert (Hft : findTimer (nextTimer (world s)) (world (callUpdate s0)) = Some close).
    { apply (findTimer_unique _ close); [| exact Hin].
      by destruct (timersOk_reachable _ _ _ Hr1) as (_ & Hnd & _). }
    split; [exact Hft |].
    unfold dispatch. rewrite Hh1, Hft. cbn [mbind option_bind]. eexists.
    split; [reflexivity |].
    unfold close, runTimer, sync. cbn [callback]. rewrite Hh1.
    cbn [halted set_world]. rewrite Hh1. reflexivity.
Qed.

Lemma end_of_input_closes_and_advances_witness :
  reachable tsThenRtp None prewarmed ∧
  halted prewarmed = false ∧
  findInput (mkNode 5 "input-0") (world prewarmed) =
    Some (mkInput "input-0" (localTsFile "a.ts")) ∧
  ∃ s1, dispatch (ended (mkNode 5 "input-0")) prewarmed = Some s1 ∧
        sourceIndex (world s1) = S (sourceIndex (world prewarmed)).
Proof.
  assert (Hr : reachable tsThenRtp None prewarmed) by apply reachable_after.
  assert (Hh : halted prewarmed = false) by (vm_compute; reflexivity).
  assert (Hf : findInput (mkNode 5 "input-0") (world prewarmed) =
               Some (mkInput "input-0" (localTsFile "a.ts"))) by (vm_compute; reflexivity).
  split; [exact Hr |]. split; [exact Hh |]. split; [exact Hf |].
  destruct (end_of_input_closes_and_advances tsThenRtp None prewarmed _ _ Hr Hh Hf eq_refl)
    as (s1 & Hd & Hs & _).
  exists s1. split; [exact Hd | exact Hs].
Defined.

(** * A playlist of files, played to its end *)

(** A TS file with no duration of its own. *)
Definition tsFile (item : PlaylistItem.t) : Prop :=
  (∃ fileName, PlaylistItem.source item = localTsFile fileName) ∧
  truthyZ (PlaylistItem.duration item) = false.

(** The input the engine makes for the item at position [k] when it is the
    [k]-th node it is asked for after the five of [create]. *)
Definition inputNode (k : nat) : Node := mkNode (5 + k) (nodeIdOf k).

(** The answers that take a call of [update] on a file through: the node is
    made, the [await] of the factory and that of the duration are passed. *)
Definition startItem : list Event := [settles 0 ok; settles 0 ok; settles 0 ok].

(** Item [j] is up and [m] items follow it: each file ends, and the next one
    is started; the end of the last one is the end of the playlist. *)
Fixpoint playOn (j m : nat) : list Event :=
  match m with
  | O => [ended (inputNode j)]
  | S m' => ended (inputNode j) :: startItem ++ playOn (S j) m'
  end.

Definition playThrough (playlist : list PlaylistItem.t) : list Event :=
  match playlist with
  | [] => [callStart]
  | _ :: rest => callStart :: startItem ++ playOn 0 (length rest)
  end.

(** The inputs made for [items], the first of them at position [k]. *)
Fixpoint madeInputs (k : nat) (items : list PlaylistItem.t) : list (Node * InputSettings) :=
  match items with
  | [] => []
  | item :: rest =>
      (inputNode k, mkInput (nodeIdOf k) (PlaylistItem.source item)) :: madeInputs (S k) rest
  end.

Lemma madeInputs_app k items items' :
  madeInputs k (items ++ items') = madeInputs k items ++ madeInputs (length items + k) items'.
Proof.
  revert k. induction items as [|item items IH]; intros k; simpl; [done |].
  rewrite IH. do 3 f_equal. lia.
Qed.

Lemma find_madeInputs k items j item :
  items !! j = Some item →
  List.find (fun x => Node_eqb (fst x) (inputNode (k + j))) (madeInputs k items) =
  Some (inputNode (k + j), mkInput (nodeIdOf (k + j)) (PlaylistItem.source item)).
Proof.
  revert k j. induction items as [|item' items IH]; intros k j; [done |].
  destruct j as [|j]; simpl.
  - intros [= ->]. rewrite Nat.add_0_r. unfold Node_eqb. simpl.
    by rewrite Nat.eqb_refl, String.eqb_refl.
  - intros Hj. unfold Node_eqb at 1. simpl.
    assert (Hne : Nat.eqb k (k + S j) = false) by (apply Nat.eqb_neq; lia).
    rewrite Hne. cbn [andb].
    replace (k + S j)%nat with (S k + j)%nat by lia. by apply IH.
Qed.

(** ** One call of [update] on a file *)

Lemma dispatch_single kind a k w ov un ans r w' :
  deliver a ans w = Some (r, w') →
  dispatch (settles 0 ans) (mkSys w [mkTask kind a k] false ov un) =
  Some (settle kind (k r w') (mkSys w' [] false ov un)).
Proof. intros Hd. unfold dispatch. simpl. rewrite Hd. reflexivity. Qed.

(** The three stops of [startImmediately] on a file, and the state it hands
    over. *)
Lemma startImmediately_tsFile item currentSource w (K : unit -> World -> Outcome) :
  tsFile item →
  let info node :=
    mkInfo node (nodeIdOf currentSource) Kav item acceptAll
      (mkCloseNode true (nodeIdOf currentSource) node) in
  ∃ k1,
    startImmediately item currentSource w K =
      Suspended w (awaitInput (mkInput (nodeIdOf currentSource) (PlaylistItem.source item))) k1 ∧
    ∀ node w1, ∃ k2,
      k1 (created node) w1 =
        Suspended (subscribeToNode currentSource currentSlot (info node) w1) awaitSettled k2 ∧
      ∀ r2 w2, ∃ k3,
        k2 r2 w2 = Suspended w2 awaitSettled k3 ∧
        ∀ r3 w3,
          k3 r3 w3 =
            K tt (match current (playingItems w3) with
                  | Some r =>
                      setDurationAndClose r None
                        (mkCloseNode true (nodeIdOf currentSource) node) w3
                  | None => w3
                  end).
Proof.
  intros [[fileName Hsrc] Hd] info. unfold info. clear info.
  destruct item as [b d src]. simpl in *. subst src.
  unfold startImmediately, createNode, createStandalone, nodeIdOf.
  unfold mbind, M_bind, await, modify, mret, M_ret. simpl.
  eexists. split; [reflexivity |]. intros node w1.
  eexists. split; [reflexivity |]. intros r2 w2.
  unfold durationOf. simpl. rewrite Hd.
  unfold awaitDuration, mbind, M_bind, await, mret, M_ret. simpl.
  eexists. split; [reflexivity |]. intros r3 w3. reflexivity.
Qed.

Lemma prewarm_not_live currentSource w (k : unit -> World -> Outcome) :
  (∀ next', playlist w !! (currentSource + 1)%nat = Some next' →
            isLive (PlaylistItem.source next') = false) →
  prewarm currentSource w k = k tt w.
Proof.
  intros Hn. unfold prewarm, mbind, M_bind, get.
  destruct (playlist w !! (currentSource + 1)%nat) as [next'|]; [| done].
  by rewrite (Hn next' eq_refl).
Qed.

(** The state of the program when [k] files have been started and the last
    of them is up: no call is suspended, [next] is empty, and the engine has
    made the inputs of the first [k] items, in order. *)
Record up (pl : list PlaylistItem.t) (k : nat) (s : Sys) : Prop := mkUp {
  up_halted : halted s = false;
  up_tasks : tasks s = [];
  up_unhandled : unhandled s = [];
  up_overlapped : overlapped s = false;
  up_playlist : playlist (world s) = pl;
  up_position : sourceIndex (world s) = k;
  up_next : next (playingItems (world s)) = None;
  up_handle : nextHandle (world s) = (5 + k)%nat;
  up_inputs : inputs (world s) = madeInputs 0 (take k pl) }.

Lemma tsFile_not_live item : tsFile item → isLive (PlaylistItem.source item) = false.
Proof. intros [[f Hf] _]. by rewrite Hf. Qed.

Lemma take_S_lookup {A} (l : list A) k x : l !! k = Some x → take (S k) l = take k l ++ [x].
Proof. intros H. by apply take_S_r. Qed.

Lemma advance_starts item currentSource w (K : unit -> World -> Outcome) :
  playlist w !! currentSource = Some item → next (playingItems w) = None →
  advance currentSource w K =
  startImmediately item currentSource
    (set_playingItems (set_prev (current (playingItems w)) (playingItems w)) w)
    (fun _ w' => prewarm currentSource (scheduleAdvance currentSource w') K).
Proof.
  intros Hi Hn. unfold advance, mbind, M_bind, get, modify. rewrite Hi. simpl.
  by rewrite Hn.
Qed.

(** The state [startImmediately] leaves when the duration of the file is not
    known: the new item is current, with no duration. *)
Lemma started_fields currentSource info c w :
  let w4 := subscribeToNode currentSource currentSlot info w in
  let w5 := match current (playingItems w4) with
            | Some r => setDurationAndClose r None c w4
            | None => w4
            end in
  playlist w5 = playlist w ∧ sourceIndex w5 = sourceIndex w ∧
  next (playingItems w5) = next (playingItems w) ∧
  nextHandle w5 = nextHandle w ∧ inputs w5 = inputs w ∧
  truthyZ (deref w5 (current (playingItems w5)) ≫= PlayingItem.duration) = false.
Proof.
  simpl. do 5 (split; [done |]).
  rewrite list_lookup_alter_eq, lookup_app_r by done.
  by rewrite Nat.sub_diag.
Qed.

Lemma update_on_file (pl : list PlaylistItem.t) (k : nat) (item : PlaylistItem.t) (s : Sys) :
  Forall tsFile pl → pl !! k = Some item → up pl k s →
  ∃ s', dispatchAll startItem (callUpdate s) = Some s' ∧ up pl (S k) s'.
Proof.
  intros Hpl Hitem [Hh Ht Hu Ho Hp Hk Hn Hhd Hin].
  assert (Hts : tsFile item).
  { rewrite Forall_forall in Hpl. apply Hpl. by eapply list_elem_of_lookup_2. }
  unfold callUpdate. rewrite Hh, Ht. unfold run. rewrite update_prefix, Hk.
  set (w1 := prefix (world s)).
  assert (H1 : playlist w1 = pl ∧ sourceIndex w1 = S k ∧ next (playingItems w1) = None ∧
               nextHandle w1 = (5 + k)%nat ∧ inputs w1 = madeInputs 0 (take k pl)).
  { unfold w1, prefix. rewrite clearTimeouts_eq. simpl. rewrite Hk. done. }
  destruct H1 as (Hp1 & Hk1 & Hn1 & Hh1 & Hi1).
  rewrite (advance_starts item) by (by rewrite ?Hp1).
  set (w2 := set_playingItems _ w1).
  assert (H2 : playlist w2 = pl ∧ sourceIndex w2 = S k ∧ next (playingItems w2) = None ∧
               nextHandle w2 = (5 + k)%nat ∧ inputs w2 = madeInputs 0 (take k pl)).
  { by subst w2. }
  clearbody w2. clear Hp1 Hk1 Hn1 Hh1 Hi1. destruct H2 as (Hp2 & Hk2 & Hn2 & Hh2 & Hi2).
  match goal with |- context [startImmediately item k w2 ?K] =>
    destruct (startImmediately_tsFile item k w2 K Hts) as (k1 & -> & Hk1') end.
  cbn [settle existsb orb app tasks halted overlapped unhandled world].
  unfold startItem. cbn [dispatchAll].
  erewrite dispatch_single by reflexivity. cbn [mbind option_bind].
  set (w3 := set_nextHandle _ _).
  assert (H3 : playlist w3 = pl ∧ sourceIndex w3 = S k ∧ next (playingItems w3) = None ∧
               nextHandle w3 = (5 + S k)%nat ∧
               inputs w3 = madeInputs 0 (take k pl) ++
                           [(inputNode k, mkInput (nodeIdOf k) (PlaylistItem.source item))]).
  { subst w3. cbn. rewrite Hh2, Hi2. done. }
  clearbody w3. destruct H3 as (Hp3 & Hk3 & Hn3 & Hh3 & Hi3).
  match goal with |- context [k1 (created ?node) w3] =>
    destruct (Hk1' node w3) as (k2 & -> & Hk2') end.
  cbn [settle app tasks halted overlapped unhandled world].
  erewrite dispatch_single by reflexivity. cbn [mbind option_bind].
  match goal with |- context [k2 settled ?w] =>
    destruct (Hk2' settled w) as (k3 & -> & Hk3') end.
  cbn [settle app tasks halted overlapped unhandled world].
  erewrite dispatch_single by reflexivity. cbn [mbind option_bind].
  rewrite Hk3'.
  match goal with |- context [scheduleAdvance k ?w] => set (w5 := w) end.
  match goal with w5 := match current (playingItems (subscribeToNode k currentSlot ?info w3)) with
                         | Some r => setDurationAndClose r None ?c _ | None => _ end |- _ =>
    destruct (started_fields k info c w3) as (Hp5 & Hk5 & Hn5 & Hh5 & Hi5 & Hd5) end.
  fold w5 in Hp5, Hk5, Hn5, Hh5, Hi5, Hd5.
  rewrite (scheduleAdvance_falsy k w5 Hd5).
  rewrite prewarm_not_live.
  2:{ intros next' Hnext. rewrite Hp5, Hp3 in Hnext. apply tsFile_not_live.
      rewrite Forall_forall in Hpl. apply Hpl. by eapply list_elem_of_lookup_2. }
  cbn [settle]. unfold set_world. cbn [halted tasks unhandled world overlapped].
  clearbody w5. eexists. split; [reflexivity |].
  split; cbn [halted tasks unhandled overlapped world]; try congruence.
  { by rewrite Ho. }
  rewrite Hi5, Hi3, (take_S_lookup _ _ _ Hitem), madeInputs_app. simpl.
  rewrite length_take_le by (apply Nat.lt_le_incl; by eapply lookup_lt_Some).
  by rewrite Nat.add_0_r.
Qed.

(** The end of the file at position [j], while it is the current one: its
    node is closed after a second, and [update] is called. *)
Lemma file_ends (pl : list PlaylistItem.t) (j : nat) (item : PlaylistItem.t) (s : Sys) :
  pl !! j = Some item → tsFile item → up pl (S j) s →
  ∃ s0, dispatch (ended (inputNode j)) s = Some (callUpdate s0) ∧ up pl (S j) s0.
Proof.
  intros Hitem [[fileName Hsrc] _] [Hh Ht Hu Ho Hp Hk Hn Hhd Hin].
  unfold dispatch, findInput. rewrite Hh, Hin.
  assert (Hf := find_madeInputs 0 (take (S j) pl) j item).
  cbn [Nat.add] in Hf. rewrite Hf by (rewrite lookup_take_lt by lia; done).
  cbn [fmap option_fmap option_map snd mbind option_bind in_source in_id Nat.add].
  rewrite Hsrc. cbn [hasEndHook]. unfold onEnded.
  eexists. split; [reflexivity |].
  unfold sync. rewrite Hh. unfold set_world, closeNode, setTimeout. by split.
Qed.

(** The playlist has been played: the process has exited, no call of
    [update] is left suspended or was rejected, and the engine was asked for
    one input for each item, in the order of the playlist. *)
Definition played (pl : list PlaylistItem.t) (s : Sys) : Prop :=
  halted s = true ∧ tasks s = [] ∧ unhandled s = [] ∧ overlapped s = false ∧
  inputs (world s) = madeInputs 0 pl ∧
  sourceIndex (world s) = S (length pl).

Lemma update_at_end (pl : list PlaylistItem.t) (s : Sys) :
  up pl (length pl) s → played pl (callUpdate s).
Proof.
  intros [Hh Ht Hu Ho Hp Hk Hn Hhd Hin].
  unfold callUpdate. rewrite Hh, Ht, update_exits.
  2:{ rewrite Hp, Hk. apply lookup_ge_None_2. lia. }
  unfold played, prefix. rewrite clearTimeouts_eq. simpl.
  rewrite Hu, Ho, Hk, Hin, firstn_all. done.
Qed.

Lemma playOn_runs (pl : list PlaylistItem.t) :
  Forall tsFile pl →
  ∀ m j s, up pl (S j) s → (S j + m = length pl)%nat →
  ∃ s', dispatchAll (playOn j m) s = Some s' ∧ played pl s'.
Proof.
  intros Hpl. induction m as [|m IH]; intros j s Hup Hlen.
  - destruct (lookup_lt_is_Some_2 pl j) as [item Hitem]; [lia |].
    assert (Hts : tsFile item).
    { rewrite Forall_forall in Hpl. apply Hpl. by eapply list_elem_of_lookup_2. }
    destruct (file_ends pl j item s Hitem Hts Hup) as (s0 & Hd & Hup0).
    cbn [playOn dispatchAll]. rewrite Hd. cbn [mbind option_bind].
    eexists. split; [reflexivity |]. apply update_at_end.
    by replace (length pl) with (S j) by lia.
  - destruct (lookup_lt_is_Some_2 pl j) as [item Hitem]; [lia |].
    destruct (lookup_lt_is_Some_2 pl (S j)) as [item' Hitem']; [lia |].
    assert (Hts : tsFile item).
    { rewrite Forall_forall in Hpl. apply Hpl. by eapply list_elem_of_lookup_2. }
    destruct (file_ends pl j item s Hitem Hts Hup) as (s0 & Hd & Hup0).
    destruct (update_on_file pl (S j) item' s0 Hpl Hitem' Hup0) as (s1 & Hs1 & Hup1).
    destruct (IH (S j) s1 Hup1) as (s' & Hs' & Hplayed); [lia |].
    exists s'. split; [| done].
    cbn [playOn dispatchAll]. rewrite Hd. cbn [mbind option_bind].
    unfold startItem in *. cbn [app dispatchAll] in *.
    destruct (dispatch (settles 0 ok) (callUpdate s0)) as [sa|]; [| done].
    cbn [mbind option_bind] in *.
    destruct (dispatch (settles 0 ok) sa) as [sb|]; [| done].
    cbn [mbind option_bind] in *.
    destruct (dispatch (settles 0 ok) sb) as [sc|]; [| done].
    cbn [mbind option_bind] in *. by simplify_eq.
Qed.

(** No item of a playlist of files needs a listener: [create] leaves no call
    suspended. *)
Lemma create_files (pl : list PlaylistItem.t) (transitionDuration' : option Z) :
  Forall tsFile pl → up pl 0 (create pl transitionDuration').
Proof.
  intros Hpl. unfold create, run, precreateListeners, mbind, M_bind, get.
  cbn [playlist newPlaylist].
  destruct (precreateFrom_first pl (newPlaylist pl transitionDuration'))
    as [-> | (proto & port & rest & k' & _ & _ & (skipped & item & -> & Hl) & _)].
  - by split.
  - apply Forall_app in Hpl as [_ Hpl]. apply Forall_cons in Hpl as [[[f Hf] _] _].
    by rewrite Hf in Hl.
Qed.

(** X15.  A playlist of TS files that give no duration plays to its end.
    After [start], each call of [update] asks the engine for the input of
    the next item, under the name [input-<position>], and passes two more
    [await]s; when a file ends its [onEof] calls [update] again.  Along this
    run the inputs are asked for one at a time and in the order of the
    playlist, no call of [update] overlaps another or is rejected, and the
    end of the last file ends the process, the position then being one past
    the length of the playlist. *)
Theorem files_play_through (pl : list PlaylistItem.t) (transitionDuration' : option Z) :
  Forall tsFile pl →
  ∃ s, dispatchAll (playThrough pl) (create pl transitionDuration') = Some s ∧
       halted s = true ∧ tasks s = [] ∧ unhandled s = [] ∧ overlapped s = false ∧
       inputs (world s) = madeInputs 0 pl ∧
       sourceIndex (world s) = S (length pl).
Proof.
  intros Hpl. pose proof (create_files pl transitionDuration' Hpl) as Hup.
  destruct pl as [|item rest] eqn:Epl.
  - cbn [playThrough dispatchAll]. unfold dispatch. rewrite (up_halted _ _ _ Hup).
    cbn [mbind option_bind]. eexists. split; [reflexivity |].
    by apply (update_at_end []).
  - rewrite <- Epl in *.
    assert (Hitem : pl !! 0%nat = Some item) by (by rewrite Epl).
    destruct (update_on_file pl 0 item _ Hpl Hitem Hup) as (s1 & Hs1 & Hup1).
    destruct (playOn_runs pl Hpl (length rest) 0 s1 Hup1) as (s' & Hs' & Hplayed).
    { rewrite Epl. simpl. lia. }
    exists s'. split; [| exact Hplayed].
    rewrite Epl at 1. cbn [playThrough dispatchAll]. unfold dispatch at 1.
    rewrite (up_halted _ _ _ Hup). cbn [mbind option_bind]. unfold start.
    unfold startItem in *. cbn [app dispatchAll] in *.
    destruct (dispatch (settles 0 ok) (callUpdate _)) as [sa|]; [| done].
    cbn [mbind option_bind] in *.
    destruct (dispatch (settles 0 ok) sa) as [sb|]; [| done].
    cbn [mbind option_bind] in *.
    destruct (dispatch (settles 0 ok) sb) as [sc|]; [| done].
    cbn [mbind option_bind] in *. by simplify_eq.
Qed.

Lemma files_play_through_witness :
  let pl := [PlaylistItem.mk None None (localTsFile "a.ts");
             PlaylistItem.mk None None (localTsFile "b.ts")] in
  ∃ s, dispatchAll (playThrough pl) (create pl None) = Some s ∧
       halted s = true ∧ tasks s = [] ∧ unhandled s = [] ∧ overlapped s = false ∧
       inputs (world s) = madeInputs 0 pl ∧
       sourceIndex (world s) = S (length pl).
Proof.
  intros pl. apply (files_play_through pl None).
  repeat constructor; by eexists.
Defined.
